(** * A 3-D ResNet encoder: the wiring of [encoders/resnet.py]

    The file instantiates and nests layer objects of a neural-network
    framework.  The embedding has two parts.

    - The constructors.  Every [__init__] of the file becomes a function
      that returns the object it builds, or the exception it raises.
      Framework modules are the constructors of [Module], with the
      attributes the file sets on them.
    - The [forward] methods.  Tensors live in a store, because the file
      asks for in-place activations and uses [+=]; a [forward] takes the
      location of its argument and returns the location of its result,
      or raises what the framework raises.

    The framework itself is an interface, [Framework]: what it makes of
    a shape when it allocates a parameter, and what its operations make
    of a tensor, with the rules of its documentation as laws.

    Python integers are [Z]; [//] is [Z.div] (both round down).  The
    [*args, **kwargs] of the constructors carry the keywords the file
    itself forwards ([activation], [downsampling], and for the
    convolutions [kernel_size], [stride], [padding], [dilation],
    [bias], [padding_mode]); no further positional argument is passed,
    and a padding is an integer or a triple (the framework's string
    paddings are left out).  Gradients are not tracked. *)

From Stdlib Require Import ZArith String List Bool Lia.
From Stdlib Require QArith_base.
From stdpp Require Import base option list.

Import ListNotations.

Set Warnings "-register-all".

(** ** Exceptions and results *)

Inductive Exc : Type :=
| KeyError
| IndexError
| TypeError
| ValueError
| RuntimeError.

Inductive Result (A : Type) : Type :=
| Ok (a : A)
| Raise (e : Exc).

Arguments Ok {A} a.
Arguments Raise {A} e.

#[global] Instance Result_ret : MRet Result := fun _ a => Ok a.

#[global] Instance Result_bind : MBind Result := fun _ _ f r =>
  match r with
  | Ok a => f a
  | Raise e => Raise e
  end.

Definition succeeds {A} (r : Result A) : bool :=
  match r with
  | Ok _ => true
  | Raise _ => false
  end.

(** [[f(x) for x in xs]], stopping at the first exception. *)
Fixpoint comprehension {A B} (f : A -> Result B) (xs : list A) : Result (list B) :=
  match xs with
  | [] => Ok []
  | x :: xs' => y ← f x; ys ← comprehension f xs'; Ok (y :: ys)
  end.

(** [xs[i]] for a non-negative literal index. *)
Definition index {A} (xs : list A) (i : nat) : Result A :=
  match xs !! i with
  | Some x => Ok x
  | None => Raise IndexError
  end.

(** [range(n)]: empty when [n <= 0]. *)
Definition range (n : Z) : list nat := seq 0 (Z.to_nat n).

(** ** Convolutions *)

(** An argument that the framework accepts as one integer or as a
    triple; [_triple] is the framework's normalisation. *)
Inductive Size3 : Type :=
| S_int (n : Z)
| S_tuple (a b c : Z).

Definition _triple (x : Size3) : Z * Z * Z :=
  match x with
  | S_int n => (n, n, n)
  | S_tuple a b c => (a, b, c)
  end.

Record ConvKwargs : Type := {
  kw_kernel_size : option Size3;
  kw_stride : option Size3;
  kw_padding : option Size3;
  kw_dilation : option Size3;
  kw_bias : option bool;
  kw_padding_mode : option string }.

(** [{**a, **b}]: the keywords of [b] win. *)
Definition merge_kwargs (a b : ConvKwargs) : ConvKwargs :=
  {| kw_kernel_size := kw_kernel_size b ∪ kw_kernel_size a;
     kw_stride := kw_stride b ∪ kw_stride a;
     kw_padding := kw_padding b ∪ kw_padding a;
     kw_dilation := kw_dilation b ∪ kw_dilation a;
     kw_bias := kw_bias b ∪ kw_bias a;
     kw_padding_mode := kw_padding_mode b ∪ kw_padding_mode a |}.

Inductive ConvClass : Type :=
| cls_Conv3d
| cls_Conv3dAuto.

(** The attributes of a convolution.  [padding_at_init] is the padding
    the constructor of [nn.Conv3d] was given: it keeps it, as
    [_reversed_padding_repeated_twice], for the padding modes other
    than "zeros", and an assignment to [padding] does not change it. *)
Record Conv3dObj : Type := {
  conv_class : ConvClass;
  conv_in_channels : Z;
  conv_out_channels : Z;
  kernel_size : Z * Z * Z;
  stride : Z * Z * Z;
  padding : Z * Z * Z;
  dilation : Z * Z * Z;
  bias : bool;
  padding_mode : string;
  padding_at_init : Z * Z * Z }.

(** A callable that builds a convolution: [partial(cls, **keywords)]. *)
Record ConvFactory : Type := {
  partial_func : ConvClass;
  partial_keywords : ConvKwargs }.

Definition conv3x3 : ConvFactory :=
  {| partial_func := cls_Conv3dAuto;
     partial_keywords :=
       {| kw_kernel_size := Some (S_int 3); kw_stride := None; kw_padding := None;
          kw_dilation := None; kw_bias := Some false; kw_padding_mode := None |} |}.

(** The padding modes the framework knows. *)
Definition valid_padding_modes : list string :=
  ["zeros"; "reflect"; "replicate"; "circular"]%string.

(** The padding [forward] applies: the attribute [padding] in the mode
    "zeros"; in the other modes the input is padded beforehand, by the
    padding kept at construction. *)
Definition applied_padding (c : Conv3dObj) : Z * Z * Z :=
  if String.eqb (padding_mode c) "zeros" then padding c else padding_at_init c.

(** Extent of the output of the framework's convolution along one
    spatial dimension, for an input of extent [l], as the framework
    documents it:
    [floor((l + 2*padding - dilation*(kernel_size-1) - 1) / stride) + 1]. *)
Definition conv_out_extent (l k s p d : Z) : Z :=
  ((l + 2 * p - d * (k - 1) - 1) / s + 1)%Z.

Definition conv_out_shape (c : Conv3dObj) (shape : Z * Z * Z) : Z * Z * Z :=
  (conv_out_extent shape.1.1 (kernel_size c).1.1 (stride c).1.1 (applied_padding c).1.1
     (dilation c).1.1,
   conv_out_extent shape.1.2 (kernel_size c).1.2 (stride c).1.2 (applied_padding c).1.2
     (dilation c).1.2,
   conv_out_extent shape.2 (kernel_size c).2 (stride c).2 (applied_padding c).2
     (dilation c).2).

(** The framework's max pooling (dilation 1, no ceiling mode) has the
    output extent of a convolution of the same kernel size, stride and
    padding. *)
Definition pool_out_shape (k s p : Z) (shape : Z * Z * Z) : Z * Z * Z :=
  (conv_out_extent shape.1.1 k s p 1,
   conv_out_extent shape.1.2 k s p 1,
   conv_out_extent shape.2 k s p 1).

(** ** Modules *)

(** The attributes of the block objects sit in a name space of their
    own, so that [Attr.in_channels self] reads [self.in_channels] where
    a constructor has a parameter of the same name. *)
Module Attr.

(** The attributes [ResidualBlock.__init__] sets; [M] is the type of
    the sub-modules. *)
Record ResidualBlockObj (M : Type) : Type := {
  in_channels : Z;
  out_channels : Z;
  activation : string;
  blocks : M;
  activate : M;
  shortcut : option M }.

Arguments in_channels {M} _.
Arguments out_channels {M} _.
Arguments activation {M} _.
Arguments blocks {M} _.
Arguments activate {M} _.
Arguments shortcut {M} _.

(** The classes derived from [ResidualBlock]. *)
Inductive BlockClass : Type :=
| cls_ResNetResidualBlock
| cls_ResNetBasicBlock
| cls_ResNetBottleNeckBlock.

(** An instance of [ResNetResidualBlock] or of one of its subclasses:
    the inherited attributes and the ones it adds. *)
Record ResNetResidualBlockObj (M : Type) : Type := {
  block_class : BlockClass;
  super : ResidualBlockObj M;
  expansion : Z;
  downsampling : Z;
  conv : ConvFactory }.

Arguments block_class {M} _.
Arguments super {M} _.
Arguments expansion {M} _.
Arguments downsampling {M} _.
Arguments conv {M} _.

End Attr.

Export Attr.

Unset Elimination Schemes.

Inductive Module : Type :=
| Conv3d (c : Conv3dObj)
| BatchNorm3d (num_features : Z)
| ReLU (inplace : bool)
| LeakyReLU (negative_slope : QArith_base.Q) (inplace : bool)
| SELU (inplace : bool)
| Identity
| MaxPool3d (pool_kernel_size pool_stride pool_padding : Z)
| Sequential (ms : list Module)
| ResidualBlock (self : ResidualBlockObj Module)
| ResNetResidualBlock (self : ResNetResidualBlockObj Module).

Set Elimination Schemes.

(** [ResidualBlock.should_apply_shortcut]. *)
Definition ResidualBlock_should_apply_shortcut {M} (self : ResidualBlockObj M) : bool :=
  negb (in_channels self =? out_channels self)%Z.

(** [ResNetResidualBlock.expanded_channels]. *)
Definition expanded_channels {M} (self : ResNetResidualBlockObj M) : Z :=
  (out_channels (super self) * expansion self)%Z.

(** [ResNetResidualBlock.should_apply_shortcut], which overrides the
    property of the base class. *)
Definition should_apply_shortcut {M} (self : ResNetResidualBlockObj M) : bool :=
  negb (in_channels (super self) =? expanded_channels self)%Z.

(** Assignments to an attribute of [self]. *)
Definition set_blocks {M} (self : ResNetResidualBlockObj M) (m : M) : ResNetResidualBlockObj M :=
  {| block_class := block_class self;
     super := {| in_channels := in_channels (super self);
                 out_channels := out_channels (super self);
                 activation := activation (super self);
                 blocks := m;
                 activate := activate (super self);
                 shortcut := shortcut (super self) |};
     expansion := expansion self;
     downsampling := downsampling self;
     conv := conv self |}.

Definition set_shortcut {M} (self : ResNetResidualBlockObj M) (m : option M) : ResNetResidualBlockObj M :=
  {| block_class := block_class self;
     super := {| in_channels := in_channels (super self);
                 out_channels := out_channels (super self);
                 activation := activation (super self);
                 blocks := blocks (super self);
                 activate := activate (super self);
                 shortcut := m |};
     expansion := expansion self;
     downsampling := downsampling self;
     conv := conv self |}.

(** The [nn.ModuleDict] of [activation_func]; all four modules are in
    place. *)
Definition activations : list (string * Module) :=
  [ ("ReLU"%string, ReLU true);
    ("leaky_ReLU"%string, LeakyReLU (QArith_base.Qmake 1 100) true);
    ("SeLU"%string, SELU true);
    ("none"%string, Identity) ].

Fixpoint getitem {V} (d : list (string * V)) (key : string) : Result V :=
  match d with
  | [] => Raise KeyError
  | (k, v) :: d' => if String.eqb k key then Ok v else getitem d' key
  end.

Definition activation_func (activation : string) : Result Module :=
  getitem activations activation.

(** ** The framework *)

(** The place of a module in the tree of modules: attribute names and
    positions in a container, innermost first. *)
Inductive Key : Type :=
| Name (s : string)
| Idx (i : nat).

Definition Path : Type := list Key.

(** A shape that broadcasts to another: in each dimension the extents
    are equal or the first is one. *)
Definition broadcasts (s t : Z * Z * Z) : Prop :=
  (s.1.1 = t.1.1 \/ s.1.1 = 1%Z) /\ (s.1.2 = t.1.2 \/ s.1.2 = 1%Z) /\
  (s.2 = t.2 \/ s.2 = 1%Z).

Definition int64 (n : Z) : Prop := (- 2 ^ 63 <= n < 2 ^ 63)%Z.

(** What the framework does.

    At construction: [new_parameter shape] is the outcome of making and
    initialising the parameter and buffer tensors of that shape.  It
    raises [TypeError] when an extent is no 64-bit integer and
    [RuntimeError] when one is negative; whether it succeeds otherwise
    (the shape may be too large) is the framework's to say.

    In a forward pass: the parameters of a module are fixed, so a
    primitive module denotes a function on tensors, which raises where
    the framework rejects its argument; two modules of equal
    configuration at different places have their own parameters.
    Activations accept every tensor.  [addable x residual] tells
    whether [x += residual] is accepted ([RuntimeError] if not), and
    [add x residual] is the sum.  Of a tensor the laws know its number
    of channels and its spatial shape (not its batch size or its
    content), and they are the shape rules of the framework's
    documentation: what an operation has accepted has the channels it
    was built for, and the result has the documented shape. *)
Class Framework : Type := {
  new_parameter : list Z -> Result unit;
  new_parameter_int64 : forall shape,
    Exists (fun n => ~ int64 n) shape -> new_parameter shape = Raise TypeError;
  new_parameter_negative : forall shape,
    Forall int64 shape -> Exists (fun n => (n < 0)%Z) shape ->
    new_parameter shape = Raise RuntimeError;

  Tensor : Type;
  tensor_channels : Tensor -> Z;
  tensor_shape : Tensor -> Z * Z * Z;

  conv3d : Path -> Conv3dObj -> Tensor -> Result Tensor;
  batch_norm : Path -> Z -> Tensor -> Result Tensor;
  relu : Tensor -> Tensor;
  leaky_relu : QArith_base.Q -> Tensor -> Tensor;
  selu : Tensor -> Tensor;
  max_pool3d : Z -> Z -> Z -> Tensor -> Result Tensor;
  add : Tensor -> Tensor -> Tensor;
  addable : Tensor -> Tensor -> bool;

  conv3d_shape : forall p c v w, conv3d p c v = Ok w ->
    tensor_channels v = conv_in_channels c /\
    tensor_channels w = conv_out_channels c /\
    tensor_shape w = conv_out_shape c (tensor_shape v);
  batch_norm_shape : forall p n v w, batch_norm p n v = Ok w ->
    tensor_channels v = n /\
    tensor_channels w = n /\
    tensor_shape w = tensor_shape v;
  max_pool3d_shape : forall k s pad v w, max_pool3d k s pad v = Ok w ->
    tensor_channels w = tensor_channels v /\
    tensor_shape w = pool_out_shape k s pad (tensor_shape v);
  relu_shape : forall v,
    tensor_channels (relu v) = tensor_channels v /\
    tensor_shape (relu v) = tensor_shape v;
  leaky_relu_shape : forall slope v,
    tensor_channels (leaky_relu slope v) = tensor_channels v /\
    tensor_shape (leaky_relu slope v) = tensor_shape v;
  selu_shape : forall v,
    tensor_channels (selu v) = tensor_channels v /\
    tensor_shape (selu v) = tensor_shape v;
  addable_refl : forall v, addable v v = true;
  add_shape : forall v w, addable v w = true ->
    tensor_channels (add v w) = tensor_channels v /\
    tensor_shape (add v w) = tensor_shape v /\
    (tensor_channels w = tensor_channels v \/ tensor_channels w = 1%Z) /\
    broadcasts (tensor_shape w) (tensor_shape v) }.

(** ** The constructors *)

Section Constructors.

Context {fw : Framework}.

(** [nn.Conv3d.__init__(in_channels, out_channels, kernel_size, stride=1,
    padding=0, dilation=1, bias=True, padding_mode='zeros')];
    [kernel_size] has no default.  The padding mode is checked, then
    the weight of shape [(out_channels, in_channels, *kernel_size)] is
    made, and the bias of shape [(out_channels,)] if there is one. *)
Definition nn_Conv3d (in_channels out_channels : Z) (kw : ConvKwargs) : Result Conv3dObj :=
  match kw_kernel_size kw with
  | None => Raise TypeError
  | Some k =>
      let self :=
        {| conv_class := cls_Conv3d;
           conv_in_channels := in_channels;
           conv_out_channels := out_channels;
           kernel_size := _triple k;
           stride := _triple (default (S_int 1) (kw_stride kw));
           padding := _triple (default (S_int 0) (kw_padding kw));
           dilation := _triple (default (S_int 1) (kw_dilation kw));
           bias := default true (kw_bias kw);
           padding_mode := default "zeros"%string (kw_padding_mode kw);
           padding_at_init := _triple (default (S_int 0) (kw_padding kw)) |} in
      _ ← (if existsb (String.eqb (padding_mode self)) valid_padding_modes then Ok ()
           else Raise ValueError);
      _ ← new_parameter [out_channels; in_channels; (kernel_size self).1.1;
                         (kernel_size self).1.2; (kernel_size self).2];
      _ ← (if bias self then new_parameter [out_channels] else Ok ());
      Ok self
  end.

(** [Conv3dAuto.__init__]: the parent's constructor, then the padding
    is overwritten from the kernel size. *)
Definition Conv3dAuto (in_channels out_channels : Z) (kw : ConvKwargs) : Result Conv3dObj :=
  self ← nn_Conv3d in_channels out_channels kw;
  Ok {| conv_class := cls_Conv3dAuto;
        conv_in_channels := conv_in_channels self;
        conv_out_channels := conv_out_channels self;
        kernel_size := kernel_size self;
        stride := stride self;
        padding := ((kernel_size self).1.1 / 2, (kernel_size self).1.2 / 2,
                    (kernel_size self).2 / 2)%Z;
        dilation := dilation self;
        bias := bias self;
        padding_mode := padding_mode self;
        padding_at_init := padding_at_init self |}.

Definition call_conv (conv : ConvFactory) (in_channels out_channels : Z)
    (kw : ConvKwargs) : Result Conv3dObj :=
  match partial_func conv with
  | cls_Conv3d => nn_Conv3d in_channels out_channels (merge_kwargs (partial_keywords conv) kw)
  | cls_Conv3dAuto => Conv3dAuto in_channels out_channels (merge_kwargs (partial_keywords conv) kw)
  end.

(** [nn.BatchNorm3d(num_features)]: its weight, bias and running
    statistics have shape [(num_features,)]. *)
Definition nn_BatchNorm3d (num_features : Z) : Result Module :=
  _ ← new_parameter [num_features];
  Ok (BatchNorm3d num_features).

(** [ResidualBlock.__init__]. *)
Definition ResidualBlock_init (in_channels out_channels : Z) (activation : string)
    : Result (ResidualBlockObj Module) :=
  act ← activation_func activation;
  Ok {| in_channels := in_channels;
        out_channels := out_channels;
        activation := activation;
        blocks := Identity;
        activate := act;
        shortcut := Some Identity |}.

(** [ResNetResidualBlock.__init__]; [cls] is the class being
    instantiated. *)
Definition ResNetResidualBlock_init (cls : BlockClass) (in_channels out_channels : Z)
    (expansion downsampling : Z) (conv : ConvFactory) (activation : string)
    : Result (ResNetResidualBlockObj Module) :=
  base ← ResidualBlock_init in_channels out_channels activation;
  let self := {| block_class := cls; super := base; expansion := expansion;
                 downsampling := downsampling; conv := conv |} in
  sc ← (if should_apply_shortcut self then
          c ← nn_Conv3d (Attr.in_channels (super self)) (expanded_channels self)
                {| kw_kernel_size := Some (S_int 1);
                   kw_stride := Some (S_int (Attr.downsampling self));
                   kw_padding := None; kw_dilation := None; kw_bias := Some false;
                   kw_padding_mode := None |};
          bn ← nn_BatchNorm3d (expanded_channels self);
          Ok (Some (Sequential [Conv3d c; bn]))
        else Ok None);
  Ok (set_shortcut self sc).

Definition conv_bn (in_channels out_channels : Z) (conv : ConvFactory) (kw : ConvKwargs)
    : Result Module :=
  c ← call_conv conv in_channels out_channels kw;
  bn ← nn_BatchNorm3d out_channels;
  Ok (Sequential [Conv3d c; bn]).

(** [ResNetBasicBlock.__init__].  The class attribute [expansion = 1]
    is the default of the parent's constructor; [conv] is left at its
    default [conv3x3]. *)
Definition ResNetBasicBlock (in_channels out_channels : Z) (activation : string)
    (downsampling : Z) : Result (ResNetResidualBlockObj Module) :=
  self ← ResNetResidualBlock_init cls_ResNetBasicBlock in_channels out_channels
           1 downsampling conv3x3 activation;
  c1 ← conv_bn (Attr.in_channels (super self)) (Attr.out_channels (super self))
         (conv self)
         {| kw_kernel_size := None;
            kw_stride := Some (S_int (Attr.downsampling self));
            kw_padding := None; kw_dilation := None; kw_bias := Some false;
            kw_padding_mode := None |};
  a ← activation_func (Attr.activation (super self));
  c2 ← conv_bn (Attr.out_channels (super self)) (expanded_channels self) (conv self)
         {| kw_kernel_size := None; kw_stride := None; kw_padding := None;
            kw_dilation := None; kw_bias := Some false; kw_padding_mode := None |};
  Ok (set_blocks self (Sequential [c1; a; c2])).

(** [ResNetBottleNeckBlock.__init__]. *)
Definition ResNetBottleNeckBlock (in_channels out_channels : Z) (activation : string)
    (downsampling : Z) : Result (ResNetResidualBlockObj Module) :=
  self ← ResNetResidualBlock_init cls_ResNetBottleNeckBlock in_channels out_channels
           4 downsampling conv3x3 activation;
  c1 ← conv_bn (Attr.in_channels (super self)) (Attr.out_channels (super self))
         (conv self)
         {| kw_kernel_size := Some (S_int 1); kw_stride := None; kw_padding := None;
            kw_dilation := None; kw_bias := None; kw_padding_mode := None |};
  a1 ← activation_func (Attr.activation (super self));
  c2 ← conv_bn (Attr.out_channels (super self)) (Attr.out_channels (super self))
         (conv self)
         {| kw_kernel_size := Some (S_int 3);
            kw_stride := Some (S_int (Attr.downsampling self));
            kw_padding := None; kw_dilation := None; kw_bias := None; kw_padding_mode := None |};
  a2 ← activation_func (Attr.activation (super self));
  c3 ← conv_bn (Attr.out_channels (super self)) (expanded_channels self) (conv self)
         {| kw_kernel_size := Some (S_int 1); kw_stride := None; kw_padding := None;
            kw_dilation := None; kw_bias := None; kw_padding_mode := None |};
  Ok (set_blocks self (Sequential [c1; a1; c2; a2; c3])).

(** The classes that can be passed as [block]: the two that define the
    class attribute [expansion]. *)
Inductive Block : Type :=
| BasicBlock
| BottleNeckBlock.

(** [block.expansion]. *)
Definition class_expansion (block : Block) : Z :=
  match block with
  | BasicBlock => 1
  | BottleNeckBlock => 4
  end.

(** [block(in_channels, out_channels, activation=..., downsampling=...)]. *)
Definition call_block (block : Block) (in_channels out_channels : Z) (activation : string)
    (downsampling : Z) : Result Module :=
  match block with
  | BasicBlock =>
      self ← ResNetBasicBlock in_channels out_channels activation downsampling;
      Ok (ResNetResidualBlock self)
  | BottleNeckBlock =>
      self ← ResNetBottleNeckBlock in_channels out_channels activation downsampling;
      Ok (ResNetResidualBlock self)
  end.

Record ResNetLayerObj : Type := {
  layer_blocks : Module }.

(** [ResNetLayer.__init__]. *)
Definition ResNetLayer (in_channels out_channels : Z) (block : Block) (n : Z)
    (activation : string) : Result ResNetLayerObj :=
  let downsampling := (if negb (in_channels =? out_channels) then 2 else 1)%Z in
  first ← call_block block in_channels out_channels activation downsampling;
  rest ← comprehension
           (fun _ => call_block block (out_channels * class_expansion block) out_channels
                       activation 1)
           (range (n - 1));
  Ok {| layer_blocks := Sequential (first :: rest) |}.

Record ResNetEncoderObj : Type := {
  blocks_sizes : list Z;
  gate : Module;
  in_out_block_sizes : list (Z * Z);
  encoder_blocks : list ResNetLayerObj }.

(** [ResNetEncoder.__init__]. *)
Definition ResNetEncoder (in_channels : Z) (blocks_sizes depths : list Z)
    (activation : string) (block : Block) : Result ResNetEncoderObj :=
  size0 ← index blocks_sizes 0;
  c ← nn_Conv3d in_channels size0
        {| kw_kernel_size := Some (S_int 7); kw_stride := Some (S_int 2);
           kw_padding := Some (S_int 3); kw_dilation := None; kw_bias := Some false;
           kw_padding_mode := None |};
  bn ← nn_BatchNorm3d size0;
  a ← activation_func activation;
  let gate := Sequential [Conv3d c; bn; a; MaxPool3d 3 2 1] in
  let in_out_block_sizes := zip blocks_sizes (tail blocks_sizes) in
  depth0 ← index depths 0;
  first ← ResNetLayer size0 size0 block depth0 activation;
  rest ← comprehension
           (fun '((in_channels, out_channels), n) =>
              ResNetLayer (in_channels * class_expansion block) out_channels block n activation)
           (zip in_out_block_sizes (tail depths));
  Ok {| blocks_sizes := blocks_sizes;
        gate := gate;
        in_out_block_sizes := in_out_block_sizes;
        encoder_blocks := first :: rest |}.

(** The keywords [resnet18] and [resnet34] may pass on to
    [ResNetEncoder], with the defaults of its signature. *)
Record EncoderKwargs : Type := {
  kw_blocks_sizes : option (list Z);
  kw_activation : option string }.

Definition call_ResNetEncoder (in_channels : Z) (block : Block) (depths : list Z)
    (kw : EncoderKwargs) : Result ResNetEncoderObj :=
  ResNetEncoder in_channels (default [64; 128; 256; 512]%Z (kw_blocks_sizes kw)) depths
    (default "ReLU"%string (kw_activation kw)) block.

(** [resnet18] and [resnet34]; [block = None] when the caller leaves
    it out. *)
Definition resnet18 (in_channels : Z) (block : option Block) (kw : EncoderKwargs)
    : Result ResNetEncoderObj :=
  call_ResNetEncoder in_channels (default BasicBlock block) [2; 2; 2; 2]%Z kw.

Definition resnet34 (in_channels : Z) (block : option Block) (kw : EncoderKwargs)
    : Result ResNetEncoderObj :=
  call_ResNetEncoder in_channels (default BasicBlock block) [3; 4; 6; 3]%Z kw.

End Constructors.

(** ** Forward passes *)

(** Tensor objects: a variable of the program holds a location of the
    store. *)
Abbreviation loc := nat (only parsing).

Abbreviation Store := (list Tensor) (only parsing).

Section Forward.

Context {fw : Framework}.

(** A computation on the store that may raise. *)
Definition Fwd (A : Type) : Type := Store -> Result (A * Store).

#[global] Instance Fwd_ret : MRet Fwd := fun _ a h => Ok (a, h).

#[global] Instance Fwd_bind : MBind Fwd := fun _ _ f c h =>
  match c h with
  | Ok (a, h') => f a h'
  | Raise e => Raise e
  end.

Definition raise {A} (e : Exc) : Fwd A := fun _ => Raise e.

(** An operation that returns a new tensor, or raises. *)
Definition out_of_place (f : Tensor -> Result Tensor) (x : loc) : Fwd loc := fun h =>
  match h !! x with
  | Some v =>
      match f v with
      | Ok w => Ok (length h, h ++ [w])
      | Raise e => Raise e
      end
  | None => Raise RuntimeError
  end.

(** An operation that overwrites its argument and returns it. *)
Definition in_place (f : Tensor -> Tensor) (x : loc) : Fwd loc := fun h =>
  match h !! x with
  | Some v => Ok (x, <[x := f v]> h)
  | None => Raise RuntimeError
  end.

(** An activation, which accepts every tensor. *)
Definition pointwise (inplace : bool) (f : Tensor -> Tensor) (x : loc) : Fwd loc :=
  if inplace then in_place f x else out_of_place (fun v => Ok (f v)) x.

(** [x += residual]. *)
Definition iadd (x residual : loc) : Fwd loc := fun h =>
  match h !! x, h !! residual with
  | Some v, Some w =>
      if addable v w then Ok (x, <[x := add v w]> h) else Raise RuntimeError
  | _, _ => Raise RuntimeError
  end.

(** [ResidualBlock.forward]; [call p m x] is [m(x)] for the sub-module
    [m] at [p], and [should_apply_shortcut] is the value of the
    property for the class of [self]. *)
Definition ResidualBlock_forward (call : Path -> Module -> loc -> Fwd loc) (p : Path)
    (should_apply_shortcut : bool) (self : ResidualBlockObj Module) (x : loc) : Fwd loc :=
  residual ← (if should_apply_shortcut then
                match shortcut self with
                | Some s => call (Name "shortcut" :: p) s x
                | None => raise TypeError
                end
              else mret x);
  x ← call (Name "blocks" :: p) (blocks self) x;
  x ← iadd x residual;
  x ← call (Name "activate" :: p) (activate self) x;
  mret x.

(** [m(x)] for the module [m] at [p]. *)
Fixpoint forward (p : Path) (m : Module) (x : loc) {struct m} : Fwd loc :=
  match m with
  | Conv3d c => out_of_place (conv3d p c) x
  | BatchNorm3d n => out_of_place (batch_norm p n) x
  | ReLU inplace => pointwise inplace relu x
  | LeakyReLU slope inplace => pointwise inplace (leaky_relu slope) x
  | SELU inplace => pointwise inplace selu x
  | Identity => mret x
  | MaxPool3d k s pad => out_of_place (max_pool3d k s pad) x
  | Sequential ms =>
      (fix each (i : nat) (ms : list Module) (x : loc) {struct ms} : Fwd loc :=
         match ms with
         | [] => mret x
         | m :: ms' => x ← forward (Idx i :: p) m x; each (S i) ms' x
         end) 0%nat ms x
  | ResidualBlock self =>
      ResidualBlock_forward forward p (ResidualBlock_should_apply_shortcut self) self x
  | ResNetResidualBlock self =>
      ResidualBlock_forward forward p (should_apply_shortcut self) (super self) x
  end.

(** [nn.Sequential.forward] on the modules from position [i] on. *)
Fixpoint Sequential_forward (p : Path) (i : nat) (ms : list Module) (x : loc) : Fwd loc :=
  match ms with
  | [] => mret x
  | m :: ms' => x ← forward (Idx i :: p) m x; Sequential_forward p (S i) ms' x
  end.

(** [ResNetLayer.forward]. *)
Definition ResNetLayer_forward (p : Path) (self : ResNetLayerObj) (x : loc) : Fwd loc :=
  x ← forward (Name "blocks" :: p) (layer_blocks self) x;
  mret x.

(** The loop [for block in self.blocks: x = block(x)], from position [i]. *)
Fixpoint for_blocks (p : Path) (i : nat) (bs : list ResNetLayerObj) (x : loc) : Fwd loc :=
  match bs with
  | [] => mret x
  | block :: bs' => x ← ResNetLayer_forward (Idx i :: p) block x; for_blocks p (S i) bs' x
  end.

(** [ResNetEncoder.forward]. *)
Definition ResNetEncoder_forward (p : Path) (self : ResNetEncoderObj) (x : loc) : Fwd loc :=
  x ← forward (Name "gate" :: p) (gate self) x;
  x ← for_blocks (Name "blocks" :: p) 0 (encoder_blocks self) x;
  mret x.

(** *** The value a module computes

    What [m(x)] is as a function of the value of [x], read off the
    module tree without any store, the way the specification words it
    ([forward] above is the code): a container composes its members,
    and a residual block is the composition
    [activate(blocks(x) + residual)], where the residual is
    [shortcut(x)] when the block's [should_apply_shortcut] holds and
    [x] otherwise.  Where the framework rejects a tensor there is no
    value, but the exception. *)

(** [v + w], where the framework accepts the sum. *)
Definition add_value (v w : Tensor) : Result Tensor :=
  if addable v w then Ok (add v w) else Raise RuntimeError.

Definition residual_composition (value : Path -> Module -> Tensor -> Result Tensor)
    (p : Path) (should_apply_shortcut : bool) (self : ResidualBlockObj Module)
    (v : Tensor) : Result Tensor :=
  residual ← (if should_apply_shortcut then
                match shortcut self with
                | Some s => value (Name "shortcut" :: p) s v
                | None => Raise TypeError
                end
              else Ok v);
  y ← value (Name "blocks" :: p) (blocks self) v;
  sum ← add_value y residual;
  value (Name "activate" :: p) (activate self) sum.

Fixpoint value (p : Path) (m : Module) (v : Tensor) {struct m} : Result Tensor :=
  match m with
  | Conv3d c => conv3d p c v
  | BatchNorm3d n => batch_norm p n v
  | ReLU _ => Ok (relu v)
  | LeakyReLU slope _ => Ok (leaky_relu slope v)
  | SELU _ => Ok (selu v)
  | Identity => Ok v
  | MaxPool3d k s pad => max_pool3d k s pad v
  | Sequential ms =>
      (fix each (i : nat) (ms : list Module) (v : Tensor) {struct ms} : Result Tensor :=
         match ms with
         | [] => Ok v
         | m :: ms' => w ← value (Idx i :: p) m v; each (S i) ms' w
         end) 0%nat ms v
  | ResidualBlock self =>
      residual_composition value p (ResidualBlock_should_apply_shortcut self) self v
  | ResNetResidualBlock self =>
      residual_composition value p (should_apply_shortcut self) (super self) v
  end.

Fixpoint Sequential_value (p : Path) (i : nat) (ms : list Module) (v : Tensor) : Result Tensor :=
  match ms with
  | [] => Ok v
  | m :: ms' => w ← value (Idx i :: p) m v; Sequential_value p (S i) ms' w
  end.

Definition ResNetLayer_value (p : Path) (self : ResNetLayerObj) (v : Tensor) : Result Tensor :=
  value (Name "blocks" :: p) (layer_blocks self) v.

(** Functions applied one after the other, in list order. *)
Fixpoint in_sequence (fs : list (Tensor -> Result Tensor)) (v : Tensor) : Result Tensor :=
  match fs with
  | [] => Ok v
  | f :: fs' => w ← f v; in_sequence fs' w
  end.

(** The gate, then the layers in the order of [self.blocks]. *)
Definition ResNetEncoder_parts (p : Path) (self : ResNetEncoderObj)
    : list (Tensor -> Result Tensor) :=
  value (Name "gate" :: p) (gate self)
  :: imap (fun i block => ResNetLayer_value (Idx i :: Name "blocks" :: p) block)
       (encoder_blocks self).

End Forward.

(** *** What a module does to the tensor it is given

    [Fresh]: the result is a new tensor and the argument is left as it
    was.  [Alias]: the result is the argument itself, unchanged.
    [InPlace]: the argument may have been overwritten. *)
Inductive Effect : Type :=
| Fresh
| Alias
| InPlace.

Definition and_then (e1 e2 : Effect) : Effect :=
  match e1 with
  | Fresh => Fresh
  | Alias => e2
  | InPlace => InPlace
  end.

Definition pointwise_effect (inplace : bool) : Effect :=
  if inplace then InPlace else Fresh.

(** A residual block adds in place into the result of [blocks]. *)
Definition block_effect (blocks_effect : Effect) : Effect :=
  match blocks_effect with
  | Fresh => Fresh
  | Alias | InPlace => InPlace
  end.

Fixpoint effect (m : Module) : Effect :=
  match m with
  | Conv3d _ | BatchNorm3d _ | MaxPool3d _ _ _ => Fresh
  | ReLU inplace | LeakyReLU _ inplace | SELU inplace => pointwise_effect inplace
  | Identity => Alias
  | Sequential ms =>
      (fix each (ms : list Module) : Effect :=
         match ms with
         | [] => Alias
         | m :: ms' => and_then (effect m) (each ms')
         end) ms
  | ResidualBlock self => block_effect (effect (blocks self))
  | ResNetResidualBlock self => block_effect (effect (blocks (super self)))
  end.

Fixpoint Sequential_effect (ms : list Module) : Effect :=
  match ms with
  | [] => Alias
  | m :: ms' => and_then (effect m) (Sequential_effect ms')
  end.

Definition keeps_argument (e : Effect) : bool :=
  match e with
  | Fresh | Alias => true
  | InPlace => false
  end.

(** The residual blocks of a tree are wired so that the residual
    survives until it is added: neither [blocks] nor an applied
    [shortcut] overwrites the block's argument, and a shortcut that is
    to be applied is there. *)
Definition block_residual_safe (safe : Module -> bool) (should_apply_shortcut : bool)
    (self : ResidualBlockObj Module) : bool :=
  safe (blocks self) && keeps_argument (effect (blocks self))
  && safe (activate self)
  && (if should_apply_shortcut then
        match shortcut self with
        | Some s => safe s && keeps_argument (effect s)
        | None => false
        end
      else true).

Fixpoint residual_safe (m : Module) : bool :=
  match m with
  | Sequential ms =>
      (fix each (ms : list Module) : bool :=
         match ms with
         | [] => true
         | m :: ms' => residual_safe m && each ms'
         end) ms
  | ResidualBlock self =>
      block_residual_safe residual_safe (ResidualBlock_should_apply_shortcut self) self
  | ResNetResidualBlock self =>
      block_residual_safe residual_safe (should_apply_shortcut self) (super self)
  | _ => true
  end.

Definition encoder_residual_safe (self : ResNetEncoderObj) : bool :=
  residual_safe (gate self)
  && forallb (fun block => residual_safe (layer_blocks block)) (encoder_blocks self).

(** The two kinds of residual block share [ResidualBlock.forward]; they
    differ in the property [should_apply_shortcut]. *)
Definition as_residual_block (m : Module) : option (bool * ResidualBlockObj Module) :=
  match m with
  | ResidualBlock self => Some (ResidualBlock_should_apply_shortcut self, self)
  | ResNetResidualBlock self => Some (should_apply_shortcut self, super self)
  | _ => None
  end.

(** ** Induction on module trees *)

Definition on_option (P : Module -> Prop) (o : option Module) : Prop :=
  match o with
  | Some s => P s
  | None => True
  end.

Section Module_induction.

Variable P : Module -> Prop.

Hypothesis P_Conv3d : forall c, P (Conv3d c).
Hypothesis P_BatchNorm3d : forall n, P (BatchNorm3d n).
Hypothesis P_ReLU : forall inplace, P (ReLU inplace).
Hypothesis P_LeakyReLU : forall slope inplace, P (LeakyReLU slope inplace).
Hypothesis P_SELU : forall inplace, P (SELU inplace).
Hypothesis P_Identity : P Identity.
Hypothesis P_MaxPool3d : forall k s pad, P (MaxPool3d k s pad).
Hypothesis P_Sequential : forall ms, Forall P ms -> P (Sequential ms).
Hypothesis P_ResidualBlock : forall self,
  P (blocks self) -> P (activate self) -> on_option P (shortcut self) ->
  P (ResidualBlock self).
Hypothesis P_ResNetResidualBlock : forall self,
  P (blocks (super self)) -> P (activate (super self)) ->
  on_option P (shortcut (super self)) ->
  P (ResNetResidualBlock self).

Fixpoint Module_ind (m : Module) : P m :=
  match m with
  | Conv3d c => P_Conv3d c
  | BatchNorm3d n => P_BatchNorm3d n
  | ReLU inplace => P_ReLU inplace
  | LeakyReLU slope inplace => P_LeakyReLU slope inplace
  | SELU inplace => P_SELU inplace
  | Identity => P_Identity
  | MaxPool3d k s pad => P_MaxPool3d k s pad
  | Sequential ms =>
      P_Sequential ms
        ((fix each (ms : list Module) : Forall P ms :=
            match ms with
            | [] => @List.Forall_nil Module P
            | m :: ms' => @List.Forall_cons Module P m ms' (Module_ind m) (each ms')
            end) ms)
  | ResidualBlock self =>
      P_ResidualBlock self (Module_ind (blocks self)) (Module_ind (activate self))
        (match shortcut self as o return on_option P o with
         | Some s => Module_ind s
         | None => I
         end)
  | ResNetResidualBlock self =>
      P_ResNetResidualBlock self (Module_ind (blocks (super self)))
        (Module_ind (activate (super self)))
        (match shortcut (super self) as o return on_option P o with
         | Some s => Module_ind s
         | None => I
         end)
  end.

End Module_induction.

(** ** What a forward pass guarantees *)

Section Guarantees.

Context {fw : Framework}.

(** Tensors other than the argument are left alone, and none is freed. *)
Definition frame (x : loc) (h h' : Store) : Prop :=
  length h <= length h' /\
  forall l, l < length h -> l <> x -> h' !! l = h !! l.

Definition result_at (e : Effect) (x : loc) (v : Tensor) (h : Store) (r : loc)
    (h' : Store) : Prop :=
  match e with
  | Fresh => length h <= r /\ h' !! x = Some v
  | Alias => r = x /\ h' !! x = Some v
  | InPlace => r = x \/ length h <= r
  end.

(** Started on a tensor of value [v] at [x], the computation [c] does
    what [f] does to [v]: where [f v] is a tensor, [c] returns a tensor
    of that value, with effect [e] on the store; where [f v] is an
    exception, [c] raises it. *)
Definition computes (e : Effect) (c : Fwd loc) (x : loc) (f : Tensor -> Result Tensor)
    : Prop :=
  forall h v, h !! x = Some v ->
    match f v with
    | Ok w => exists r h', c h = Ok (r, h') /\ h' !! r = Some w /\
                           frame x h h' /\ result_at e x v h r h'
    | Raise err => c h = Raise err
    end.

End Guarantees.

(** ** Reading a built encoder *)

(** The keys of the [nn.ModuleDict] of [activation_func]. *)
Definition activation_names : list string := map fst activations.

(** The keywords [kw] with [padding=pad]. *)
Definition with_padding (kw : ConvKwargs) (pad : option Size3) : ConvKwargs :=
  {| kw_kernel_size := kw_kernel_size kw;
     kw_stride := kw_stride kw;
     kw_padding := pad;
     kw_dilation := kw_dilation kw;
     kw_bias := kw_bias kw;
     kw_padding_mode := kw_padding_mode kw |}.

Definition as_resnet_block (m : Module) : option (ResNetResidualBlockObj Module) :=
  match m with
  | ResNetResidualBlock self => Some self
  | _ => None
  end.

(** The members of [layer.blocks]. *)
Definition layer_members (layer : ResNetLayerObj) : list Module :=
  match layer_blocks layer with
  | Sequential ms => ms
  | _ => []
  end.

(** [layer.blocks[0].in_channels]: the channels a layer takes. *)
Definition layer_in_channels (layer : ResNetLayerObj) : option Z :=
  b ← head (layer_members layer) ≫= as_resnet_block;
  Some (in_channels (super b)).

(** [layer.blocks[-1].expanded_channels]: the channels a layer gives. *)
Definition layer_out_channels (layer : ResNetLayerObj) : option Z :=
  b ← last (layer_members layer) ≫= as_resnet_block;
  Some (expanded_channels b).

(** [encoder.blocks[-1].blocks[-1].expanded_channels]. *)
Definition encoder_out_channels (self : ResNetEncoderObj) : option Z :=
  last (encoder_blocks self) ≫= layer_out_channels.

(** ** A framework to run examples on

    A tensor is its number of channels, its spatial shape and one
    number for its content.  The operations check what the laws of
    [Framework] speak of: the channels, that no extent of a result is
    zero or less, and that the residual of an addition broadcasts. *)

Record ZTensor : Type := {
  zt_channels : Z;
  zt_shape : Z * Z * Z;
  zt_data : Z }.

Definition positive (shape : Z * Z * Z) : bool :=
  (0 <? shape.1.1)%Z && (0 <? shape.1.2)%Z && (0 <? shape.2)%Z.

Definition fits (a b : Z) : bool := (a =? b)%Z || (a =? 1)%Z.

Definition Z_new_parameter (shape : list Z) : Result unit :=
  if forallb (fun n => (- 2 ^ 63 <=? n)%Z && (n <? 2 ^ 63)%Z) shape then
    if existsb (fun n => (n <? 0)%Z) shape then Raise RuntimeError else Ok ()
  else Raise TypeError.

Definition Z_conv3d (c : Conv3dObj) (v : ZTensor) : Result ZTensor :=
  if (zt_channels v =? conv_in_channels c)%Z && positive (stride c)
     && positive (conv_out_shape c (zt_shape v))
  then Ok {| zt_channels := conv_out_channels c;
             zt_shape := conv_out_shape c (zt_shape v);
             zt_data := (zt_data v * conv_out_channels c + 1)%Z |}
  else Raise RuntimeError.

Definition Z_batch_norm (n : Z) (v : ZTensor) : Result ZTensor :=
  if (zt_channels v =? n)%Z
  then Ok {| zt_channels := n; zt_shape := zt_shape v; zt_data := (zt_data v - n)%Z |}
  else Raise RuntimeError.

Definition Z_max_pool3d (k s pad : Z) (v : ZTensor) : Result ZTensor :=
  if (0 <? s)%Z && positive (pool_out_shape k s pad (zt_shape v))
  then Ok {| zt_channels := zt_channels v;
             zt_shape := pool_out_shape k s pad (zt_shape v);
             zt_data := (zt_data v + k)%Z |}
  else Raise RuntimeError.

Definition Z_pointwise (f : Z -> Z) (v : ZTensor) : ZTensor :=
  {| zt_channels := zt_channels v; zt_shape := zt_shape v; zt_data := f (zt_data v) |}.

Definition Z_add (v w : ZTensor) : ZTensor :=
  Z_pointwise (fun d => (d + zt_data w)%Z) v.

Definition Z_addable (v w : ZTensor) : bool :=
  fits (zt_channels w) (zt_channels v)
  && fits (zt_shape w).1.1 (zt_shape v).1.1
  && fits (zt_shape w).1.2 (zt_shape v).1.2
  && fits (zt_shape w).2 (zt_shape v).2.

Definition Z_framework : Framework.
Proof.
  refine
    {| new_parameter := Z_new_parameter;
       Tensor := ZTensor;
       tensor_channels := zt_channels;
       tensor_shape := zt_shape;
       conv3d := fun _ => Z_conv3d;
       batch_norm := fun _ => Z_batch_norm;
       relu := Z_pointwise (Z.max 0);
       leaky_relu := fun _ => Z_pointwise (fun d => Z.max d (d / 100));
       selu := Z_pointwise (Z.mul 2);
       max_pool3d := Z_max_pool3d;
       add := Z_add;
       addable := Z_addable |}.
  - intros shape H. unfold Z_new_parameter.
    destruct (forallb _ shape) eqn:E; [|reflexivity]. exfalso.
    rewrite forallb_forall in E. apply List.Exists_exists in H as (n & Hin & Hn).
    apply Hn. specialize (E n Hin). unfold int64. lia.
  - intros shape Hall H. unfold Z_new_parameter.
    destruct (forallb _ shape) eqn:E.
    + destruct (existsb _ shape) eqn:E'; [reflexivity|]. exfalso.
      apply List.Exists_exists in H as (n & Hin & Hn).
      assert (existsb (fun n => (n <? 0)%Z) shape = true) as E''
        by (apply existsb_exists; exists n; split; [assumption | lia]).
      congruence.
    + exfalso. apply not_true_iff_false in E. apply E, forallb_forall.
      intros n Hin. rewrite List.Forall_forall in Hall. specialize (Hall n Hin).
      unfold int64 in Hall. lia.
  - intros _ c v w. unfold Z_conv3d.
    destruct (_ && _) eqn:E; [|discriminate]. intros [= <-]. cbn.
    split; [lia | split; reflexivity].
  - intros _ n v w. unfold Z_batch_norm.
    destruct (_ =? _)%Z eqn:E; [|discriminate]. intros [= <-]. cbn.
    split; [lia | split; reflexivity].
  - intros k s pad v w. unfold Z_max_pool3d.
    destruct (_ && _) eqn:E; [|discriminate]. intros [= <-]. cbn.
    split; reflexivity.
  - intros v. split; reflexivity.
  - intros slope v. split; reflexivity.
  - intros v. split; reflexivity.
  - intros v. unfold Z_addable, fits. rewrite !Z.eqb_refl. reflexivity.
  - intros v w. unfold Z_addable, fits, broadcasts. cbn. intros H.
    split; [reflexivity | split; [reflexivity|]]. lia.
Defined.

(** The residual blocks the file can build: an instance of
    [ResidualBlock], of [ResNetResidualBlock], or of one of the two
    classes passed as [block]. *)
Section Constructed.

Context {fw : Framework}.

Inductive constructed : Module -> Prop :=
| constructed_ResidualBlock in_channels out_channels activation self :
    ResidualBlock_init in_channels out_channels activation = Ok self ->
    constructed (ResidualBlock self)
| constructed_ResNetResidualBlock cls in_channels out_channels expansion downsampling
    conv activation self :
    ResNetResidualBlock_init cls in_channels out_channels expansion downsampling conv
      activation = Ok self ->
    constructed (ResNetResidualBlock self)
| constructed_block block in_channels out_channels activation downsampling m :
    call_block block in_channels out_channels activation downsampling = Ok m ->
    constructed m.

End Constructed.

(** A block to run examples on: [ResNetBasicBlock(1, 2, downsampling=2)]. *)
Definition example_block : Module :=
  match call_block (fw := Z_framework) BasicBlock 1 2 "ReLU" 2 with
  | Ok m => m
  | Raise _ => Identity
  end.

(** ** Channel counts and spatial shapes

    What the framework's shape rules make of a module tree.  A
    convolution takes tensors of [in_channels] channels and a batch
    normalisation tensors of [num_features] channels; the in-place
    addition [x += residual] wants a residual with the channels of [x]
    (or with one channel, which is broadcast).  Anything else is a
    [RuntimeError] of the framework.  Activations, pooling and the
    identity keep the channels. *)

Definition residual_channels (channels : Module -> Z -> Result Z)
    (should_apply_shortcut : bool) (self : ResidualBlockObj Module) (c : Z) : Result Z :=
  residual ← (if should_apply_shortcut then
                match shortcut self with
                | Some s => channels s c
                | None => Raise TypeError
                end
              else Ok c);
  x ← channels (blocks self) c;
  x ← (if (residual =? x)%Z || (residual =? 1)%Z then Ok x else Raise RuntimeError);
  channels (activate self) x.

(** The channels of [m(x)] for an [x] of [c] channels. *)
Fixpoint channels (m : Module) (c : Z) {struct m} : Result Z :=
  match m with
  | Conv3d cv =>
      if (c =? conv_in_channels cv)%Z then Ok (conv_out_channels cv) else Raise RuntimeError
  | BatchNorm3d n => if (c =? n)%Z then Ok c else Raise RuntimeError
  | ReLU _ | LeakyReLU _ _ | SELU _ | Identity | MaxPool3d _ _ _ => Ok c
  | Sequential ms =>
      (fix each (ms : list Module) (c : Z) {struct ms} : Result Z :=
         match ms with
         | [] => Ok c
         | m :: ms' => c ← channels m c; each ms' c
         end) ms c
  | ResidualBlock self =>
      residual_channels channels (ResidualBlock_should_apply_shortcut self) self c
  | ResNetResidualBlock self =>
      residual_channels channels (should_apply_shortcut self) (super self) c
  end.

Fixpoint Sequential_channels (ms : list Module) (c : Z) : Result Z :=
  match ms with
  | [] => Ok c
  | m :: ms' => c ← channels m c; Sequential_channels ms' c
  end.

(** The channels after the layers [bs], one after the other. *)
Fixpoint layers_channels (bs : list ResNetLayerObj) (c : Z) : Result Z :=
  match bs with
  | [] => Ok c
  | block :: bs' => c ← channels (layer_blocks block) c; layers_channels bs' c
  end.

(** The channels of [encoder(x)] for an [x] of [c] channels. *)
Definition ResNetEncoder_channels (self : ResNetEncoderObj) (c : Z) : Result Z :=
  c ← channels (gate self) c;
  layers_channels (encoder_blocks self) c.

(** The spatial shape [m(x)] has by the framework's formulas, for an
    [x] of spatial shape [shape], when the framework accepts [x]; it
    does not tell whether it does.  The in-place addition of a
    residual block keeps the shape of its left operand, the result of
    [blocks], so [activate] is given a tensor of that shape, if the
    addition is accepted. *)
Fixpoint out_shape (m : Module) (shape : Z * Z * Z) {struct m} : Z * Z * Z :=
  match m with
  | Conv3d cv => conv_out_shape cv shape
  | MaxPool3d k s p => pool_out_shape k s p shape
  | BatchNorm3d _ | ReLU _ | LeakyReLU _ _ | SELU _ | Identity => shape
  | Sequential ms =>
      (fix each (ms : list Module) (shape : Z * Z * Z) {struct ms} : Z * Z * Z :=
         match ms with
         | [] => shape
         | m :: ms' => each ms' (out_shape m shape)
         end) ms shape
  | ResidualBlock self => out_shape (activate self) (out_shape (blocks self) shape)
  | ResNetResidualBlock self =>
      out_shape (activate (super self)) (out_shape (blocks (super self)) shape)
  end.

Fixpoint Sequential_out_shape (ms : list Module) (shape : Z * Z * Z) : Z * Z * Z :=
  match ms with
  | [] => shape
  | m :: ms' => Sequential_out_shape ms' (out_shape m shape)
  end.

(** The spatial shape of the residual of a residual block: that of
    [shortcut(x)] when the shortcut is applied, that of [x] otherwise. *)
Definition residual_shape (m : Module) (shape : Z * Z * Z) : Z * Z * Z :=
  match as_residual_block m with
  | Some (true, self) =>
      match shortcut self with
      | Some s => out_shape s shape
      | None => shape
      end
  | _ => shape
  end.

(** The spatial shape of [encoder(x)]. *)
Definition ResNetEncoder_out_shape (self : ResNetEncoderObj) (shape : Z * Z * Z)
    : Z * Z * Z :=
  fold_left (fun shape block => out_shape (layer_blocks block) shape)
    (encoder_blocks self) (out_shape (gate self) shape).

(** The extent left by the convolutions and the pooling of stride 2 of
    this file: half of [l], rounded up. *)
Definition half_extent (l : Z) : Z := ((l - 1) / 2 + 1)%Z.

Definition on_each (f : Z -> Z) (shape : Z * Z * Z) : Z * Z * Z :=
  (f shape.1.1, f shape.1.2, f shape.2).

(** * Properties *)

(** ** The forward pass on the store computes the value *)

Section Soundness.
Context {fw : Framework}.

Lemma Fwd_bind_Ok {A B} (c : Fwd A) (k : A -> Fwd B) h a h' :
  c h = Ok (a, h') -> (c ≫= k) h = k a h'.
Proof. intros E. unfold mbind, Fwd_bind. now rewrite E. Qed.

Lemma Fwd_bind_Raise {A B} (c : Fwd A) (k : A -> Fwd B) h err :
  c h = Raise err -> (c ≫= k) h = Raise err.
Proof. intros E. unfold mbind, Fwd_bind. now rewrite E. Qed.

Lemma result_at_cases e x v h r h' :
  result_at e x v h r h' -> r = x \/ length h <= r.
Proof. destruct e; simpl; intuition. Qed.

Lemma computes_Ok e c x f h v w :
  computes e c x f -> h !! x = Some v -> f v = Ok w ->
  exists r h', c h = Ok (r, h') /\ h' !! r = Some w /\
               frame x h h' /\ result_at e x v h r h'.
Proof. intros H Hx E. specialize (H h v Hx). now rewrite E in H. Qed.

Lemma computes_Raise e c x f h v err :
  computes e c x f -> h !! x = Some v -> f v = Raise err -> c h = Raise err.
Proof. intros H Hx E. specialize (H h v Hx). now rewrite E in H. Qed.

(** The primitive operations. *)
Lemma out_of_place_computes f x : computes Fresh (out_of_place f x) x f.
Proof.
  intros h v Hx. unfold out_of_place. rewrite Hx.
  destruct (f v) as [w|err]; [|reflexivity].
  exists (length h), (h ++ [w]).
  pose proof (lookup_lt_Some _ _ _ Hx) as Hlt.
  split; [reflexivity|].
  split; [now apply list_lookup_middle|].
  split; [split|split].
  - rewrite length_app. lia.
  - intros l Hl _. now apply lookup_app_l.
  - lia.
  - rewrite lookup_app_l; auto.
Qed.

Lemma in_place_computes f x :
  computes InPlace (in_place f x) x (fun v => Ok (f v)).
Proof.
  intros h v Hx. exists x, (<[x := f v]> h).
  unfold in_place. rewrite Hx.
  pose proof (lookup_lt_Some _ _ _ Hx) as Hlt.
  split; [reflexivity|].
  split; [now apply list_lookup_insert_eq|].
  split; [split|now left].
  - rewrite length_insert. lia.
  - intros l Hl Hne. apply list_lookup_insert_ne. congruence.
Qed.

Lemma pointwise_computes inplace f x :
  computes (pointwise_effect inplace) (pointwise inplace f x) x (fun v => Ok (f v)).
Proof.
  destruct inplace; [apply in_place_computes | apply out_of_place_computes].
Qed.

Lemma Identity_computes x : computes Alias (mret x) x Ok.
Proof.
  intros h v Hx. exists x, h.
  split; [reflexivity|]. split; [assumption|].
  split; [split; [lia | reflexivity] | split; [reflexivity | assumption]].
Qed.

(** One computation after the other. *)
Lemma bind_computes e1 e2 c1 c2 x f1 f2 :
  computes e1 c1 x f1 ->
  (forall r, computes e2 (c2 r) r f2) ->
  computes (and_then e1 e2) (c1 ≫= c2) x (fun v => f1 v ≫= f2).
Proof.
  intros H1 H2 h v Hx. specialize (H1 h v Hx).
  destruct (f1 v) as [w1|err]; cbn [mbind Result_bind];
    [|now apply Fwd_bind_Raise].
  destruct H1 as (r1 & h1 & E1 & L1 & [Hlen1 Hfr1] & R1).
  rewrite (Fwd_bind_Ok _ _ _ _ _ E1).
  specialize (H2 r1 h1 w1 L1).
  destruct (f2 w1) as [w2|err]; [|assumption].
  destruct H2 as (r2 & h2 & E2 & L2 & [Hlen2 Hfr2] & R2).
  exists r2, h2.
  pose proof (lookup_lt_Some _ _ _ Hx) as Hlt.
  pose proof (result_at_cases _ _ _ _ _ _ R1) as C1.
  pose proof (result_at_cases _ _ _ _ _ _ R2) as C2.
  split; [assumption|].
  split; [assumption|].
  split.
  - split; [lia|]. intros l Hl Hne.
    rewrite Hfr2; [now apply Hfr1 | lia | lia].
  - destruct e1; simpl in *.
    + destruct R1 as [Hr1 Hx1]. split; [lia|].
      rewrite Hfr2; [assumption | lia | lia].
    + destruct R1 as [-> Hx1]. destruct e2; simpl in *.
      * destruct R2 as [? Hx2]. split; [lia|]. congruence.
      * destruct R2 as [? Hx2]. split; congruence.
      * lia.
    + lia.
Qed.

Lemma iadd_Ok x residual h v w :
  h !! x = Some v -> h !! residual = Some w ->
  iadd x residual h =
    if addable v w then Ok (x, <[x := add v w]> h) else Raise RuntimeError.
Proof. intros Hx Hr. unfold iadd. now rewrite Hx, Hr. Qed.

(** The body of [ResidualBlock.forward]: when neither the shortcut nor
    the main path overwrites [x], the residual is still there when it
    is added, also when it is [x] itself; and what the framework
    rejects on the way is rejected in the same order. *)
Lemma residual_computes (call : Path -> Module -> loc -> Fwd loc)
    (val : Path -> Module -> Tensor -> Result Tensor) p apply self x eb ea :
  (forall y, computes eb (call (Name "blocks" :: p) (blocks self) y) y
               (val (Name "blocks" :: p) (blocks self))) ->
  keeps_argument eb = true ->
  (forall y, computes ea (call (Name "activate" :: p) (activate self) y) y
               (val (Name "activate" :: p) (activate self))) ->
  (apply = true ->
   exists s es, shortcut self = Some s /\ keeps_argument es = true /\
     computes es (call (Name "shortcut" :: p) s x) x (val (Name "shortcut" :: p) s)) ->
  computes (block_effect eb) (ResidualBlock_forward call p apply self x) x
    (residual_composition val p apply self).
Proof.
  intros Hb Kb Ha Hs h v Hx.
  pose proof (lookup_lt_Some _ _ _ Hx) as Hlt.
  unfold residual_composition, ResidualBlock_forward.
  (* the residual *)
  assert (match (if apply then match shortcut self with
                               | Some s => val (Name "shortcut" :: p) s v
                               | None => Raise TypeError
                               end else Ok v) with
          | Ok res =>
              exists rr h1,
                (if apply then match shortcut self with
                               | Some s => call (Name "shortcut" :: p) s x
                               | None => raise TypeError
                               end else mret x) h = Ok (rr, h1) /\
                h1 !! rr = Some res /\ h1 !! x = Some v /\ length h <= length h1 /\
                (forall l, l < length h -> h1 !! l = h !! l) /\
                (rr = x \/ length h <= rr)
          | Raise err =>
              (if apply then match shortcut self with
                             | Some s => call (Name "shortcut" :: p) s x
                             | None => raise TypeError
                             end else mret x) h = Raise err
          end) as Hres.
  { destruct apply.
    - destruct (Hs eq_refl) as (s & es & Es & Ks & Cs). rewrite Es.
      specialize (Cs h v Hx).
      destruct (val (Name "shortcut" :: p) s v) as [w|err]; [|assumption].
      destruct Cs as (r & h' & E & L & [Hlen Hfr] & R).
      exists r, h'.
      assert (h' !! x = Some v /\ (r = x \/ length h <= r)) as [Hx' Hc].
      { destruct es; simpl in *; try discriminate; intuition. }
      repeat (split; [assumption|]). split; [|assumption].
      intros l Hl. destruct (decide (l = x)) as [->|Hne]; [congruence | now apply Hfr].
    - exists x, h. repeat (split; [done|]). now left. }
  destruct (if apply then _ else Ok v) as [res|err]; cbn [mbind Result_bind];
    [|now apply Fwd_bind_Raise].
  destruct Hres as (rr & h1 & E1 & L1 & X1 & Len1 & Fr1 & C1).
  rewrite (Fwd_bind_Ok _ _ _ _ _ E1).
  (* the main path *)
  specialize (Hb x h1 v X1).
  destruct (val (Name "blocks" :: p) (blocks self) v) as [wb|err];
    cbn [mbind Result_bind]; [|now apply Fwd_bind_Raise].
  destruct Hb as (y & h2 & E2 & L2 & [Len2 Fr2] & R2).
  rewrite (Fwd_bind_Ok _ _ _ _ _ E2).
  assert (h2 !! x = Some v /\ (y = x \/ length h1 <= y)) as [X2 C2].
  { destruct eb; simpl in *; try discriminate; intuition. }
  assert (h2 !! rr = Some res) as L2r.
  { destruct (decide (rr = x)) as [->|Hne]; [congruence|].
    rewrite Fr2; [assumption | now apply lookup_lt_Some in L1 | assumption]. }
  (* the addition, then the activation *)
  pose proof (iadd_Ok y rr h2 wb res L2 L2r) as E3.
  unfold add_value. destruct (addable wb res); cbn [mbind Result_bind];
    [|now apply Fwd_bind_Raise].
  rewrite (Fwd_bind_Ok _ _ _ _ _ E3).
  pose proof (lookup_lt_Some _ _ _ L2) as Hy.
  assert (<[y := add wb res]> h2 !! y = Some (add wb res)) as L3
    by now apply list_lookup_insert_eq.
  specialize (Ha y _ _ L3).
  destruct (val (Name "activate" :: p) (activate self) (add wb res)) as [w|err];
    [|now apply Fwd_bind_Raise].
  destruct Ha as (r & h4 & E4 & L4 & [Len4 Fr4] & R4).
  rewrite length_insert in Len4, Fr4.
  pose proof (result_at_cases _ _ _ _ _ _ R4) as C4. rewrite length_insert in C4.
  exists r, h4.
  split; [now rewrite (Fwd_bind_Ok _ _ _ _ _ E4)|].
  split; [assumption|].
  split.
  - split; [lia|]. intros l Hl Hne.
    rewrite Fr4; [| lia | lia].
    rewrite list_lookup_insert_ne by lia.
    rewrite Fr2; [now apply Fr1 | lia | assumption].
  - destruct eb; simpl in *; try discriminate.
    + destruct R2 as [Hy2 _]. split; [lia|].
      rewrite Fr4; [| lia | lia].
      rewrite list_lookup_insert_ne by lia. assumption.
    + lia.
Qed.

(** The container cases of the recursive definitions. *)
Lemma forward_Sequential p ms x h :
  forward p (Sequential ms) x h = Sequential_forward p 0 ms x h.
Proof.
  simpl. generalize 0%nat. revert x h.
  induction ms as [|m ms IH]; intros x h i; [reflexivity|].
  simpl. unfold mbind, Fwd_bind.
  destruct (forward (Idx i :: p) m x h) as [[y h']|e]; [apply IH | reflexivity].
Qed.

Lemma value_Sequential p ms v :
  value p (Sequential ms) v = Sequential_value p 0 ms v.
Proof.
  simpl. generalize 0%nat. revert v.
  induction ms as [|m ms IH]; intros v i; [reflexivity|].
  simpl. destruct (value (Idx i :: p) m v) as [w|e]; [apply IH | reflexivity].
Qed.

Lemma effect_Sequential ms : effect (Sequential ms) = Sequential_effect ms.
Proof.
  simpl. induction ms as [|m ms IH]; [reflexivity|]. simpl. now rewrite IH.
Qed.

Lemma residual_safe_Sequential ms :
  residual_safe (Sequential ms) = forallb residual_safe ms.
Proof.
  simpl. induction ms as [|m ms IH]; [reflexivity|]. simpl. now rewrite IH.
Qed.

Lemma computes_ext e c c' x f f' :
  (forall h, c h = c' h) -> (forall v, f v = f' v) ->
  computes e c x f -> computes e c' x f'.
Proof.
  intros Hc Hf H h v Hx. specialize (H h v Hx). rewrite <- Hc, <- Hf. exact H.
Qed.

Lemma Sequential_computes p ms :
  Forall (fun m => forall p x, residual_safe m = true ->
                     computes (effect m) (forward p m x) x (value p m)) ms ->
  forallb residual_safe ms = true ->
  forall i x, computes (Sequential_effect ms) (Sequential_forward p i ms x) x
                (Sequential_value p i ms).
Proof.
  induction 1 as [|m ms Hm _ IH]; intros Hs i x; simpl.
  - apply Identity_computes.
  - simpl in Hs. apply andb_true_iff in Hs as [Hs1 Hs2].
    apply bind_computes; [now apply Hm | intros r; now apply IH].
Qed.

(** On a tree whose residual blocks keep their residuals, the forward
    pass on the store does what the value of the module says: it
    returns a tensor that holds the value at the value of the
    argument, touching no tensor but the argument and the ones it
    makes, or it raises what the value raises. *)
Lemma forward_computes m :
  forall p x, residual_safe m = true ->
    computes (effect m) (forward p m x) x (value p m).
Proof.
  induction m using Module_ind; intros p x Hs.
  - apply out_of_place_computes.
  - apply out_of_place_computes.
  - apply pointwise_computes.
  - apply pointwise_computes.
  - apply pointwise_computes.
  - apply Identity_computes.
  - apply out_of_place_computes.
  - rewrite residual_safe_Sequential in Hs.
    eapply computes_ext;
      [intros h; symmetry; apply forward_Sequential
      |intros v; symmetry; apply value_Sequential |].
    rewrite effect_Sequential. now apply Sequential_computes.
  - simpl in Hs. unfold block_residual_safe in Hs.
    repeat (apply andb_true_iff in Hs as [Hs ?]).
    simpl. apply residual_computes with (ea := effect (activate self)); auto.
    intros Happly. rewrite Happly in *.
    destruct (shortcut self) as [s|]; [|discriminate].
    match goal with H : _ && _ = true |- _ => apply andb_true_iff in H as [? ?] end.
    exists s, (effect s). simpl in *. auto.
  - simpl in Hs. unfold block_residual_safe in Hs.
    repeat (apply andb_true_iff in Hs as [Hs ?]).
    simpl. apply residual_computes with (ea := effect (activate (super self))); auto.
    intros Happly. rewrite Happly in *.
    destruct (shortcut (super self)) as [s|]; [|discriminate].
    match goal with H : _ && _ = true |- _ => apply andb_true_iff in H as [? ?] end.
    exists s, (effect s). simpl in *. auto.
Qed.

End Soundness.
(** ** The constructors *)

Local Open Scope string_scope.

(** [activation_func] on every string. *)
Lemma activation_func_cases a :
  match activation_func a with
  | Ok m =>
      (a = "ReLU" /\ m = ReLU true) \/
      (a = "leaky_ReLU" /\ m = LeakyReLU (QArith_base.Qmake 1 100) true) \/
      (a = "SeLU" /\ m = SELU true) \/
      (a = "none" /\ m = Identity)
  | Raise e => e = KeyError /\ ~ In a activation_names
  end.
Proof.
  unfold activation_func, activation_names, activations.
  cbn [getitem map fst In].
  destruct (String.eqb_spec "ReLU" a) as [<-|N1]; [auto|].
  destruct (String.eqb_spec "leaky_ReLU" a) as [<-|N2]; [auto|].
  destruct (String.eqb_spec "SeLU" a) as [<-|N3]; [auto 6|].
  destruct (String.eqb_spec "none" a) as [<-|N4]; [auto 6|].
  split; [reflexivity | intuition].
Qed.

Lemma activation_func_Ok a m :
  activation_func a = Ok m ->
  residual_safe m = true /\ (effect m = InPlace \/ effect m = Alias).
Proof.
  intros E. pose proof (activation_func_cases a) as H. rewrite E in H.
  destruct H as [[_ ->]|[[_ ->]|[[_ ->]|[_ ->]]]]; simpl; auto.
Qed.

Lemma activation_func_KeyError a :
  ~ In a activation_names -> activation_func a = Raise KeyError.
Proof.
  intros N. pose proof (activation_func_cases a) as H.
  destruct (activation_func a) as [m|e].
  - exfalso. apply N. unfold activation_names; simpl.
    destruct H as [[-> _]|[[-> _]|[[-> _]|[-> _]]]]; auto.
  - now destruct H as [-> _].
Qed.

Lemma activation_func_Raise a e : activation_func a = Raise e -> e = KeyError.
Proof.
  intros E. pose proof (activation_func_cases a) as H. rewrite E in H. apply H.
Qed.

Lemma activation_func_known act :
  In act activation_names -> exists a, activation_func act = Ok a.
Proof.
  intros Hin. pose proof (activation_func_cases act) as H.
  destruct (activation_func act) as [a|e]; [now exists a|].
  now destruct H as [_ Hn].
Qed.

Lemma activation_func_Ok_known act a :
  activation_func act = Ok a -> In act activation_names.
Proof.
  intros E. pose proof (activation_func_cases act) as H. rewrite E in H.
  unfold activation_names, activations. cbn [map fst In].
  destruct H as [[-> _]|[[-> _]|[[-> _]|[-> _]]]]; auto.
Qed.

Local Open Scope Z_scope.

Lemma bind_Ok {A B} (c : Result A) (k : A -> Result B) b :
  c ≫= k = Ok b -> exists a, c = Ok a /\ k a = Ok b.
Proof. destruct c as [a|e]; [eauto | discriminate]. Qed.

Lemma comprehension_Forall2 {A B} (f : A -> Result B) xs ys :
  comprehension f xs = Ok ys -> Forall2 (fun x y => f x = Ok y) xs ys.
Proof.
  revert ys. induction xs as [|x xs IH]; intros ys E.
  - injection E as <-. constructor.
  - cbn [comprehension] in E. apply bind_Ok in E as (y & Ey & E).
    apply bind_Ok in E as (ys' & Eys & E). injection E as <-.
    constructor; auto.
Qed.

Lemma comprehension_const {A B} (c : Result B) (xs : list A) ys :
  comprehension (fun _ => c) xs = Ok ys ->
  length ys = length xs /\ Forall (fun y => c = Ok y) ys.
Proof.
  intros E. apply comprehension_Forall2 in E.
  induction E as [|x y xs ys Hy _ [IH1 IH2]]; [split; [reflexivity | constructor]|].
  split; [cbn [length]; now rewrite IH1 | now constructor].
Qed.

Lemma comprehension_replicate {A B} (c : Result B) (xs : list A) (b : B) :
  c = Ok b -> comprehension (fun _ => c) xs = Ok (replicate (length xs) b).
Proof.
  intros ->. induction xs as [|x xs IH]; [reflexivity|].
  simpl. rewrite IH. reflexivity.
Qed.

Lemma range_length n : length (range n) = Z.to_nat n.
Proof. unfold range. apply length_seq. Qed.

Lemma last_cons_replicate {A} (x y : A) k :
  last (x :: replicate k y) = Some (match k with O => x | S _ => y end).
Proof.
  destruct k as [|k]; [reflexivity|].
  change (x :: replicate (S k) y) with (x :: y :: replicate k y).
  rewrite last_cons_cons. induction k as [|k IH]; [reflexivity|].
  change (y :: replicate (S k) y) with (y :: y :: replicate k y).
  now rewrite last_cons_cons.
Qed.

Lemma forallb_replicate {A} (f : A -> bool) k x :
  f x = true -> forallb f (replicate k x) = true.
Proof. intros Hx. induction k as [|k IH]; simpl; [reflexivity | now rewrite Hx]. Qed.

Lemma Forall_const_replicate {A} (P : A -> Prop) (ys : list A) (b : A) :
  (forall y, P y -> y = b) -> Forall P ys -> ys = replicate (length ys) b.
Proof.
  intros Hb H. induction H as [|y ys Hy _ IH]; [reflexivity|].
  cbn [length replicate]. now rewrite <- IH, (Hb y Hy).
Qed.

Section Built.

Context {fw : Framework}.

(** What the constructor of a convolution returns, when it returns. *)
Lemma nn_Conv3d_inv i o kw c :
  nn_Conv3d i o kw = Ok c ->
  exists k,
    kw_kernel_size kw = Some k /\
    c = {| conv_class := cls_Conv3d;
           conv_in_channels := i; conv_out_channels := o;
           kernel_size := _triple k;
           stride := _triple (default (S_int 1) (kw_stride kw));
           padding := _triple (default (S_int 0) (kw_padding kw));
           dilation := _triple (default (S_int 1) (kw_dilation kw));
           bias := default true (kw_bias kw);
           padding_mode := default "zeros"%string (kw_padding_mode kw);
           padding_at_init := _triple (default (S_int 0) (kw_padding kw)) |} /\
    existsb (String.eqb (default "zeros"%string (kw_padding_mode kw))) valid_padding_modes
      = true /\
    new_parameter [o; i; (_triple k).1.1; (_triple k).1.2; (_triple k).2] = Ok () /\
    (if default true (kw_bias kw) then new_parameter [o] else Ok ()) = Ok ().
Proof.
  unfold nn_Conv3d. intros E.
  destruct (kw_kernel_size kw) as [k|]; [|discriminate E].
  exists k. split; [reflexivity|].
  cbn [padding_mode kernel_size bias] in E.
  destruct (existsb _ valid_padding_modes); [|discriminate E].
  cbn [mbind Result_bind] in E.
  destruct (new_parameter [o; i; _; _; _]) as [[]|]; [|discriminate E].
  cbn [mbind Result_bind] in E.
  destruct (if default true (kw_bias kw) then _ else _) as [[]|]; [|discriminate E].
  cbn [mbind Result_bind] in E. injection E as <-. auto.
Qed.

Lemma Conv3dAuto_inv i o kw c :
  Conv3dAuto i o kw = Ok c ->
  exists k,
    kw_kernel_size kw = Some k /\
    c = {| conv_class := cls_Conv3dAuto;
           conv_in_channels := i; conv_out_channels := o;
           kernel_size := _triple k;
           stride := _triple (default (S_int 1) (kw_stride kw));
           padding := ((_triple k).1.1 / 2, (_triple k).1.2 / 2, (_triple k).2 / 2);
           dilation := _triple (default (S_int 1) (kw_dilation kw));
           bias := default true (kw_bias kw);
           padding_mode := default "zeros"%string (kw_padding_mode kw);
           padding_at_init := _triple (default (S_int 0) (kw_padding kw)) |}.
Proof.
  unfold Conv3dAuto. intros E. apply bind_Ok in E as (self & E0 & E).
  apply nn_Conv3d_inv in E0 as (k & Hk & -> & _). injection E as <-.
  exists k. split; [assumption | reflexivity].
Qed.

Lemma nn_BatchNorm3d_inv n m : nn_BatchNorm3d n = Ok m -> m = BatchNorm3d n.
Proof.
  unfold nn_BatchNorm3d. intros E. apply bind_Ok in E as (? & _ & E). congruence.
Qed.

Lemma conv_bn_inv i o cv kw m :
  conv_bn i o cv kw = Ok m ->
  exists c, call_conv cv i o kw = Ok c /\ m = Sequential [Conv3d c; BatchNorm3d o].
Proof.
  unfold conv_bn. intros E. apply bind_Ok in E as (c & Ec & E).
  apply bind_Ok in E as (bn & Ebn & E). apply nn_BatchNorm3d_inv in Ebn as ->.
  injection E as <-. eauto.
Qed.

(** A convolution built through [conv3x3]. *)
Lemma conv3x3_inv i o kw c :
  call_conv conv3x3 i o kw = Ok c ->
  c = {| conv_class := cls_Conv3dAuto;
         conv_in_channels := i; conv_out_channels := o;
         kernel_size := _triple (default (S_int 3) (kw_kernel_size kw));
         stride := _triple (default (S_int 1) (kw_stride kw));
         padding := ((_triple (default (S_int 3) (kw_kernel_size kw))).1.1 / 2,
                     (_triple (default (S_int 3) (kw_kernel_size kw))).1.2 / 2,
                     (_triple (default (S_int 3) (kw_kernel_size kw))).2 / 2);
         dilation := _triple (default (S_int 1) (kw_dilation kw));
         bias := default false (kw_bias kw);
         padding_mode := default "zeros"%string (kw_padding_mode kw);
         padding_at_init := _triple (default (S_int 0) (kw_padding kw)) |}.
Proof.
  unfold call_conv. cbn [partial_func conv3x3]. intros E.
  apply Conv3dAuto_inv in E as (k & Hk & ->).
  destruct kw as [[ks|] st pd dl [b|] pm]; cbn in Hk; injection Hk as <-;
    destruct st, pd, dl, pm; reflexivity.
Qed.

(** The objects the block constructors return. *)
Lemma ResNetResidualBlock_init_inv cls i o e ds cv act self :
  ResNetResidualBlock_init cls i o e ds cv act = Ok self ->
  exists a,
    activation_func act = Ok a /\
    self =
      {| block_class := cls;
         super :=
           {| in_channels := i; out_channels := o; activation := act;
              blocks := Identity; activate := a;
              shortcut :=
                if negb (i =? o * e) then
                  Some (Sequential
                          [Conv3d {| conv_class := cls_Conv3d;
                                     conv_in_channels := i; conv_out_channels := o * e;
                                     kernel_size := (1, 1, 1); stride := (ds, ds, ds);
                                     padding := (0, 0, 0); dilation := (1, 1, 1);
                                     bias := false; padding_mode := "zeros";
                                     padding_at_init := (0, 0, 0) |};
                           BatchNorm3d (o * e)])
                else None |};
         expansion := e; downsampling := ds; conv := cv |}.
Proof.
  unfold ResNetResidualBlock_init, ResidualBlock_init. intros E.
  apply bind_Ok in E as (base & Eb & E). apply bind_Ok in Eb as (a & Ha & Eb).
  injection Eb as <-. exists a. split; [assumption|].
  apply bind_Ok in E as (sc & Esc & E). injection E as <-.
  unfold should_apply_shortcut, expanded_channels in Esc.
  cbn [super Attr.in_channels Attr.out_channels Attr.expansion Attr.downsampling] in Esc.
  unfold set_shortcut. cbn [super block_class Attr.expansion Attr.downsampling conv
    Attr.in_channels Attr.out_channels activation blocks activate].
  destruct (negb (i =? o * e)).
  - apply bind_Ok in Esc as (c & Ec & Esc). apply bind_Ok in Esc as (bn & Ebn & Esc).
    apply nn_BatchNorm3d_inv in Ebn as ->.
    apply nn_Conv3d_inv in Ec as (k & Hk & -> & _). cbn in Hk. injection Hk as <-.
    injection Esc as <-. reflexivity.
  - injection Esc as <-. reflexivity.
Qed.

Lemma ResNetBasicBlock_inv i o act ds self :
  ResNetBasicBlock i o act ds = Ok self ->
  exists a,
    activation_func act = Ok a /\
    self =
      {| block_class := cls_ResNetBasicBlock;
         super :=
           {| in_channels := i; out_channels := o; activation := act;
              blocks :=
                Sequential
                  [Sequential
                     [Conv3d {| conv_class := cls_Conv3dAuto;
                                conv_in_channels := i; conv_out_channels := o;
                                kernel_size := (3, 3, 3); stride := (ds, ds, ds);
                                padding := (1, 1, 1); dilation := (1, 1, 1);
                                bias := false; padding_mode := "zeros";
                                padding_at_init := (0, 0, 0) |};
                      BatchNorm3d o];
                   a;
                   Sequential
                     [Conv3d {| conv_class := cls_Conv3dAuto;
                                conv_in_channels := o; conv_out_channels := o * 1;
                                kernel_size := (3, 3, 3); stride := (1, 1, 1);
                                padding := (1, 1, 1); dilation := (1, 1, 1);
                                bias := false; padding_mode := "zeros";
                                padding_at_init := (0, 0, 0) |};
                      BatchNorm3d (o * 1)]];
              activate := a;
              shortcut :=
                if negb (i =? o * 1) then
                  Some (Sequential
                          [Conv3d {| conv_class := cls_Conv3d;
                                     conv_in_channels := i; conv_out_channels := o * 1;
                                     kernel_size := (1, 1, 1); stride := (ds, ds, ds);
                                     padding := (0, 0, 0); dilation := (1, 1, 1);
                                     bias := false; padding_mode := "zeros";
                                     padding_at_init := (0, 0, 0) |};
                           BatchNorm3d (o * 1)])
                else None |};
         expansion := 1; downsampling := ds; conv := conv3x3 |}.
Proof.
  unfold ResNetBasicBlock. intros E.
  apply bind_Ok in E as (self0 & E0 & E).
  apply ResNetResidualBlock_init_inv in E0 as (a & Ha & ->).
  exists a. split; [assumption|].
  cbn [super Attr.in_channels Attr.out_channels Attr.downsampling conv activation] in E.
  unfold expanded_channels in E. cbn [super Attr.out_channels Attr.expansion] in E.
  apply bind_Ok in E as (c1 & E1 & E). apply conv_bn_inv in E1 as (cv1 & Ec1 & ->).
  apply conv3x3_inv in Ec1 as ->.
  rewrite Ha in E. cbn [mbind Result_bind] in E.
  apply bind_Ok in E as (c2 & E2 & E). apply conv_bn_inv in E2 as (cv2 & Ec2 & ->).
  apply conv3x3_inv in Ec2 as ->.
  injection E as <-. reflexivity.
Qed.

Lemma ResNetBottleNeckBlock_inv i o act ds self :
  ResNetBottleNeckBlock i o act ds = Ok self ->
  exists a,
    activation_func act = Ok a /\
    self =
      {| block_class := cls_ResNetBottleNeckBlock;
         super :=
           {| in_channels := i; out_channels := o; activation := act;
              blocks :=
                Sequential
                  [Sequential
                     [Conv3d {| conv_class := cls_Conv3dAuto;
                                conv_in_channels := i; conv_out_channels := o;
                                kernel_size := (1, 1, 1); stride := (1, 1, 1);
                                padding := (0, 0, 0); dilation := (1, 1, 1);
                                bias := false; padding_mode := "zeros";
                                padding_at_init := (0, 0, 0) |};
                      BatchNorm3d o];
                   a;
                   Sequential
                     [Conv3d {| conv_class := cls_Conv3dAuto;
                                conv_in_channels := o; conv_out_channels := o;
                                kernel_size := (3, 3, 3); stride := (ds, ds, ds);
                                padding := (1, 1, 1); dilation := (1, 1, 1);
                                bias := false; padding_mode := "zeros";
                                padding_at_init := (0, 0, 0) |};
                      BatchNorm3d o];
                   a;
                   Sequential
                     [Conv3d {| conv_class := cls_Conv3dAuto;
                                conv_in_channels := o; conv_out_channels := o * 4;
                                kernel_size := (1, 1, 1); stride := (1, 1, 1);
                                padding := (0, 0, 0); dilation := (1, 1, 1);
                                bias := false; padding_mode := "zeros";
                                padding_at_init := (0, 0, 0) |};
                      BatchNorm3d (o * 4)]];
              activate := a;
              shortcut :=
                if negb (i =? o * 4) then
                  Some (Sequential
                          [Conv3d {| conv_class := cls_Conv3d;
                                     conv_in_channels := i; conv_out_channels := o * 4;
                                     kernel_size := (1, 1, 1); stride := (ds, ds, ds);
                                     padding := (0, 0, 0); dilation := (1, 1, 1);
                                     bias := false; padding_mode := "zeros";
                                     padding_at_init := (0, 0, 0) |};
                           BatchNorm3d (o * 4)])
                else None |};
         expansion := 4; downsampling := ds; conv := conv3x3 |}.
Proof.
  unfold ResNetBottleNeckBlock. intros E.
  apply bind_Ok in E as (self0 & E0 & E).
  apply ResNetResidualBlock_init_inv in E0 as (a & Ha & ->).
  exists a. split; [assumption|].
  cbn [super Attr.in_channels Attr.out_channels Attr.downsampling conv activation] in E.
  unfold expanded_channels in E. cbn [super Attr.out_channels Attr.expansion] in E.
  apply bind_Ok in E as (c1 & E1 & E). apply conv_bn_inv in E1 as (cv1 & Ec1 & ->).
  apply conv3x3_inv in Ec1 as ->.
  rewrite Ha in E. cbn [mbind Result_bind] in E.
  apply bind_Ok in E as (c2 & E2 & E). apply conv_bn_inv in E2 as (cv2 & Ec2 & ->).
  apply conv3x3_inv in Ec2 as ->.
  apply bind_Ok in E as (c3 & E3 & E). apply conv_bn_inv in E3 as (cv3 & Ec3 & ->).
  apply conv3x3_inv in Ec3 as ->.
  injection E as <-. reflexivity.
Qed.

(** What every block built through [block(...)] looks like. *)
Lemma call_block_inv block i o act ds m :
  call_block block i o act ds = Ok m ->
  exists a self,
    activation_func act = Ok a /\
    m = ResNetResidualBlock self /\
    in_channels (super self) = i /\
    out_channels (super self) = o /\
    expansion self = class_expansion block /\
    downsampling self = ds /\
    shortcut (super self) =
      (if negb (i =? o * class_expansion block) then
         Some (Sequential
                 [Conv3d {| conv_class := cls_Conv3d;
                            conv_in_channels := i;
                            conv_out_channels := o * class_expansion block;
                            kernel_size := (1, 1, 1); stride := (ds, ds, ds);
                            padding := (0, 0, 0); dilation := (1, 1, 1);
                            bias := false; padding_mode := "zeros";
                            padding_at_init := (0, 0, 0) |};
                  BatchNorm3d (o * class_expansion block)])
       else None) /\
    activate (super self) = a /\
    residual_safe (ResNetResidualBlock self) = true.
Proof.
  intros E. destruct block; unfold call_block in E;
    apply bind_Ok in E as (self & E0 & E); injection E as <-.
  - apply ResNetBasicBlock_inv in E0 as (a & Ha & ->).
    destruct (activation_func_Ok _ _ Ha) as [Sa _].
    exists a. eexists. split; [assumption|]. split; [reflexivity|].
    repeat (split; [reflexivity|]).
    simpl. unfold block_residual_safe, should_apply_shortcut, expanded_channels. simpl.
    rewrite Sa. destruct (i =? o * 1); reflexivity.
  - apply ResNetBottleNeckBlock_inv in E0 as (a & Ha & ->).
    destruct (activation_func_Ok _ _ Ha) as [Sa _].
    exists a. eexists. split; [assumption|]. split; [reflexivity|].
    repeat (split; [reflexivity|]).
    simpl. unfold block_residual_safe, should_apply_shortcut, expanded_channels. simpl.
    rewrite Sa. destruct (i =? o * 4); reflexivity.
Qed.

(** What every layer built by [ResNetLayer] looks like: the first
    block, then [n - 1] times the same block. *)
Lemma ResNetLayer_inv i o block n act layer :
  ResNetLayer i o block n act = Ok layer ->
  exists first rest,
    call_block block i o act (if negb (i =? o) then 2 else 1) = Ok first /\
    Forall (fun m => call_block block (o * class_expansion block) o act 1 = Ok m) rest /\
    length rest = Z.to_nat (n - 1) /\
    layer = {| layer_blocks := Sequential (first :: rest) |}.
Proof.
  unfold ResNetLayer. intros E.
  apply bind_Ok in E as (first & E1 & E). apply bind_Ok in E as (rest & E2 & E).
  injection E as <-. apply comprehension_const in E2 as [Hlen Hall].
  rewrite range_length in Hlen. exists first, rest. auto.
Qed.

Lemma ResNetLayer_replicate i o block n act layer :
  ResNetLayer i o block n act = Ok layer ->
  exists first,
    call_block block i o act (if negb (i =? o) then 2 else 1) = Ok first /\
    (layer_members layer = [first] /\ n <= 1 \/
     exists other,
       call_block block (o * class_expansion block) o act 1 = Ok other /\
       layer_members layer = first :: replicate (Z.to_nat (n - 1)) other /\ 1 < n).
Proof.
  intros E. apply ResNetLayer_inv in E as (first & rest & E1 & Hall & Hlen & ->).
  exists first. split; [assumption|]. unfold layer_members. cbn [layer_blocks].
  destruct rest as [|other rest'] eqn:Hrest.
  - left. split; [reflexivity|]. cbn [length] in Hlen. lia.
  - right. exists other. pose proof (List.Forall_inv Hall) as Eo.
    split; [assumption|]. split; [|cbn [length] in Hlen; lia].
    rewrite <- Hlen, <- Hrest. f_equal.
    apply Forall_const_replicate with (P := fun m =>
      call_block block (o * class_expansion block) o act 1 = Ok m);
      [intros y Hy; congruence | now rewrite Hrest].
Qed.

(** What every layer built by [ResNetLayer] takes and gives. *)
Lemma ResNetLayer_facts i o block n act layer :
  ResNetLayer i o block n act = Ok layer ->
  length (layer_members layer) = S (Z.to_nat (n - 1)) /\
  layer_in_channels layer = Some i /\
  layer_out_channels layer = Some (o * class_expansion block) /\
  residual_safe (layer_blocks layer) = true.
Proof.
  intros E. pose proof E as E'.
  apply ResNetLayer_inv in E' as (first0 & rest & _ & _ & Hlen & Hlayer).
  destruct (ResNetLayer_replicate _ _ _ _ _ _ E) as (first & E1 & Hm).
  apply call_block_inv in E1 as (a & self & Ha & -> & Hi & Ho & He & _ & _ & _ & Hs).
  assert (layer_blocks layer = Sequential (layer_members layer)) as Hb
    by (rewrite Hlayer; reflexivity).
  unfold layer_in_channels, layer_out_channels. rewrite Hb.
  destruct Hm as [[-> Hn]|(other & E2 & -> & Hn)].
  - split; [cbn [length]; lia|]. split; [simpl; now rewrite Hi|].
    split; [unfold expanded_channels; simpl; congruence|].
    rewrite residual_safe_Sequential. cbn [forallb]. now rewrite Hs.
  - apply call_block_inv in E2
      as (a2 & other' & _ & -> & Hi2 & Ho2 & He2 & _ & _ & _ & Hs2).
    split; [cbn [length]; now rewrite length_replicate|].
    split; [simpl; now rewrite Hi|].
    split.
    + rewrite last_cons_replicate. unfold expanded_channels.
      destruct (Z.to_nat (n - 1)) eqn:Hk; [lia|]. simpl. congruence.
    + rewrite residual_safe_Sequential. cbn [forallb]. rewrite Hs.
      now apply forallb_replicate.
Qed.

Section Encoder_layers.

Variables (block : Block) (act : string).

(** The comprehension over [zip(in_out_block_sizes, depths[1:])], index
    by index. *)
Lemma later_layers_each sizes : forall prev depths rest,
  comprehension
    (fun '((in_channels, out_channels), n) =>
       ResNetLayer (in_channels * class_expansion block) out_channels block n act)
    (zip (zip (prev :: sizes) sizes) depths) = Ok rest ->
  length rest = Nat.min (length sizes) (length depths) /\
  forall k layer, rest !! k = Some layer ->
    exists i o n,
      (prev :: sizes) !! k = Some i /\ sizes !! k = Some o /\ depths !! k = Some n /\
      ResNetLayer (i * class_expansion block) o block n act = Ok layer.
Proof.
  induction sizes as [|o sizes IH]; intros prev depths rest E.
  - injection E as <-. split; [reflexivity|]. intros k layer Hk. discriminate.
  - destruct depths as [|n depths].
    + injection E as <-. split; [reflexivity|]. intros k layer Hk. discriminate.
    + change (zip (zip (prev :: o :: sizes) (o :: sizes)) (n :: depths))
        with ((prev, o, n) :: zip (zip (o :: sizes) sizes) depths) in E.
      cbn [comprehension] in E.
      destruct (ResNetLayer (prev * class_expansion block) o block n act)
        as [layer0|e] eqn:E0; [|discriminate E].
      cbn [mbind Result_bind] in E.
      destruct (comprehension _ (zip (zip (o :: sizes) sizes) depths))
        as [rest'|e] eqn:Er; [|discriminate E].
      injection E as <-.
      destruct (IH o depths rest' Er) as [Hlen Hrest].
      split; [cbn [length]; lia|].
      intros [|k] layer Hk.
      * injection Hk as <-. exists prev, o, n. auto.
      * apply Hrest in Hk as (i' & o' & n' & H1 & H2 & H3 & H4).
        exists i', o', n'. auto.
Qed.

(** The layers after the first one: layer [k] of them takes the
    channels that the one before it gives. *)
Lemma later_layers_facts sizes prev depths rest :
  comprehension
    (fun '((in_channels, out_channels), n) =>
       ResNetLayer (in_channels * class_expansion block) out_channels block n act)
    (zip (zip (prev :: sizes) sizes) depths) = Ok rest ->
  length rest = Nat.min (length sizes) (length depths) /\
  forall k layer, rest !! k = Some layer ->
    exists i o,
      (prev :: sizes) !! k = Some i /\ sizes !! k = Some o /\
      layer_in_channels layer = Some (i * class_expansion block) /\
      layer_out_channels layer = Some (o * class_expansion block) /\
      residual_safe (layer_blocks layer) = true.
Proof.
  intros E. destruct (later_layers_each sizes prev depths rest E) as [Hlen Hrest].
  split; [assumption|]. intros k layer Hk.
  apply Hrest in Hk as (i & o & n & Hi & Ho & _ & El).
  apply ResNetLayer_facts in El as (_ & Hin & Hout & Hs).
  exists i, o. auto.
Qed.

End Encoder_layers.

(** What every encoder built by [ResNetEncoder] looks like. *)
Lemma ResNetEncoder_inv ic sizes depths act block enc :
  ResNetEncoder ic sizes depths act block = Ok enc ->
  exists s0 sizes' d0 depths' a first rest,
    sizes = s0 :: sizes' /\ depths = d0 :: depths' /\
    activation_func act = Ok a /\
    ResNetLayer s0 s0 block d0 act = Ok first /\
    comprehension
      (fun '((in_channels, out_channels), n) =>
         ResNetLayer (in_channels * class_expansion block) out_channels block n act)
      (zip (zip (s0 :: sizes') sizes') depths') = Ok rest /\
    enc = {| blocks_sizes := s0 :: sizes';
             gate :=
               Sequential
                 [Conv3d {| conv_class := cls_Conv3d;
                            conv_in_channels := ic; conv_out_channels := s0;
                            kernel_size := (7, 7, 7); stride := (2, 2, 2);
                            padding := (3, 3, 3); dilation := (1, 1, 1);
                            bias := false; padding_mode := "zeros";
                            padding_at_init := (3, 3, 3) |};
                  BatchNorm3d s0;
                  a;
                  MaxPool3d 3 2 1];
             in_out_block_sizes := zip (s0 :: sizes') sizes';
             encoder_blocks := first :: rest |}.
Proof.
  unfold ResNetEncoder. intros E.
  destruct sizes as [|s0 sizes']; [discriminate E|].
  cbn [index lookup list_lookup mbind Result_bind] in E.
  apply bind_Ok in E as (c & Ec & E).
  apply nn_Conv3d_inv in Ec as (k & Hk & -> & _). cbn in Hk. injection Hk as <-.
  apply bind_Ok in E as (bn & Ebn & E). apply nn_BatchNorm3d_inv in Ebn as ->.
  apply bind_Ok in E as (a & Ha & E).
  destruct depths as [|d0 depths']; [discriminate E|].
  cbn [index lookup list_lookup mbind Result_bind tail] in E.
  apply bind_Ok in E as (first & E1 & E). apply bind_Ok in E as (rest & E2 & E).
  injection E as <-.
  exists s0, sizes', d0, depths', a, first, rest. auto 10.
Qed.

End Built.

(** The layers of a built encoder, index by index: layer [k] is
    [ResNetLayer(i, blocks_sizes[k], n=depths[k])], where [i] is
    [blocks_sizes[0]] for the first layer and
    [blocks_sizes[k-1] * block.expansion] for the others. *)
Lemma ResNetEncoder_layers {fw : Framework} ic sizes depths act block enc :
  ResNetEncoder ic sizes depths act block = Ok enc ->
  length (encoder_blocks enc) = Nat.min (length sizes) (length depths) /\
  forall k layer, encoder_blocks enc !! k = Some layer ->
    exists i o n,
      sizes !! k = Some o /\ depths !! k = Some n /\
      match k with
      | O => i = o
      | S k' => exists o', sizes !! k' = Some o' /\ i = o' * class_expansion block
      end /\
      ResNetLayer i o block n act = Ok layer.
Proof.
  intros E.
  destruct (ResNetEncoder_inv _ _ _ _ _ _ E)
    as (s0 & sizes' & d0 & depths' & a & first & rest & -> & -> & Ha & E1 & E2 & ->).
  cbn [encoder_blocks].
  destruct (later_layers_each block act sizes' s0 depths' rest E2) as [Hlen Hrest].
  split; [cbn [length]; lia|].
  intros [|k] layer Hk.
  - injection Hk as <-. exists s0, s0, d0. auto.
  - apply Hrest in Hk as (i & o & n & H1 & H2 & H3 & H4).
    exists (i * class_expansion block), o, n. split; [exact H2|]. split; [exact H3|].
    split; [|exact H4]. exists i. auto.
Qed.

Lemma Forall_as_map {A B} (f : B -> A) (Q : B -> Prop) (xs : list A) :
  Forall (fun x => exists b, x = f b /\ Q b) xs ->
  exists bs, xs = map f bs /\ Forall Q bs.
Proof.
  induction 1 as [|x xs (b & -> & Hb) _ (bs & -> & Hbs)].
  - exists []. split; [reflexivity | constructor].
  - exists (b :: bs). split; [reflexivity | now constructor].
Qed.

(** C5.  [ResNetBasicBlock] has [expansion = 1], and its main path is
    two convolution/batch-normalisation stages with one activation
    between them: a bias-free 3x3x3 convolution from [in_channels] to
    [out_channels] whose stride is the block's [downsampling], the
    activation, and a bias-free 3x3x3 convolution of stride 1 from
    [out_channels] to [expanded_channels], which is [out_channels].
    This is so of every block the constructor returns; it returns none
    where the framework rejects a parameter shape or the activation
    name is unknown. *)
Theorem ResNetBasicBlock_main_path {fw : Framework} (i o : Z) (act : string) (ds : Z)
    (self : ResNetResidualBlockObj Module) :
  ResNetBasicBlock i o act ds = Ok self ->
  class_expansion BasicBlock = 1 /\
  expansion self = 1 /\
  downsampling self = ds /\
  expanded_channels self = o /\
  exists a,
    activation_func act = Ok a /\
    blocks (super self) =
      Sequential
        [Sequential
           [Conv3d {| conv_class := cls_Conv3dAuto;
                      conv_in_channels := i; conv_out_channels := o;
                      kernel_size := (3, 3, 3); stride := (ds, ds, ds);
                      padding := (1, 1, 1); dilation := (1, 1, 1);
                      bias := false; padding_mode := "zeros";
                      padding_at_init := (0, 0, 0) |};
            BatchNorm3d o];
         a;
         Sequential
           [Conv3d {| conv_class := cls_Conv3dAuto;
                      conv_in_channels := o; conv_out_channels := o;
                      kernel_size := (3, 3, 3); stride := (1, 1, 1);
                      padding := (1, 1, 1); dilation := (1, 1, 1);
                      bias := false; padding_mode := "zeros";
                      padding_at_init := (0, 0, 0) |};
            BatchNorm3d o]].
Proof.
  intros E. apply ResNetBasicBlock_inv in E as (a & Ha & ->).
  split; [reflexivity|]. split; [reflexivity|]. split; [reflexivity|].
  unfold expanded_channels. cbn [expansion super out_channels blocks].
  rewrite Z.mul_1_r. split; [reflexivity|]. exists a. auto.
Qed.

Lemma ResNetBasicBlock_main_path_witness :
  exists self,
    ResNetBasicBlock (fw := Z_framework) 64 128 "ReLU" 2 = Ok self /\
    expanded_channels self = 128 /\ downsampling self = 2.
Proof.
  assert (exists self, ResNetBasicBlock (fw := Z_framework) 64 128 "ReLU" 2 = Ok self)
    as [self E] by (eexists; vm_compute; reflexivity).
  exists self. split; [exact E|].
  destruct (ResNetBasicBlock_main_path 64 128 "ReLU" 2 self E)
    as (_ & _ & Hd & He & _).
  split; assumption.
Defined.

(** C6.  [ResNetBottleNeckBlock] has [expansion = 4], and its main
    path is three convolution/batch-normalisation stages with an
    activation after the first and after the second: a convolution of
    kernel size 1 from [in_channels] to [out_channels], one of kernel
    size 3 from [out_channels] to [out_channels] whose stride is the
    block's [downsampling], and one of kernel size 1 from
    [out_channels] to [expanded_channels = 4 * out_channels]; the first
    and the last have stride 1.  This is so of every block the
    constructor returns. *)
Theorem ResNetBottleNeckBlock_main_path {fw : Framework} (i o : Z) (act : string)
    (ds : Z) (self : ResNetResidualBlockObj Module) :
  ResNetBottleNeckBlock i o act ds = Ok self ->
  class_expansion BottleNeckBlock = 4 /\
  expansion self = 4 /\
  downsampling self = ds /\
  expanded_channels self = 4 * o /\
  exists a,
    activation_func act = Ok a /\
    blocks (super self) =
      Sequential
        [Sequential
           [Conv3d {| conv_class := cls_Conv3dAuto;
                      conv_in_channels := i; conv_out_channels := o;
                      kernel_size := (1, 1, 1); stride := (1, 1, 1);
                      padding := (0, 0, 0); dilation := (1, 1, 1);
                      bias := false; padding_mode := "zeros";
                      padding_at_init := (0, 0, 0) |};
            BatchNorm3d o];
         a;
         Sequential
           [Conv3d {| conv_class := cls_Conv3dAuto;
                      conv_in_channels := o; conv_out_channels := o;
                      kernel_size := (3, 3, 3); stride := (ds, ds, ds);
                      padding := (1, 1, 1); dilation := (1, 1, 1);
                      bias := false; padding_mode := "zeros";
                      padding_at_init := (0, 0, 0) |};
            BatchNorm3d o];
         a;
         Sequential
           [Conv3d {| conv_class := cls_Conv3dAuto;
                      conv_in_channels := o; conv_out_channels := 4 * o;
                      kernel_size := (1, 1, 1); stride := (1, 1, 1);
                      padding := (0, 0, 0); dilation := (1, 1, 1);
                      bias := false; padding_mode := "zeros";
                      padding_at_init := (0, 0, 0) |};
            BatchNorm3d (4 * o)]].
Proof.
  intros E. apply ResNetBottleNeckBlock_inv in E as (a & Ha & ->).
  split; [reflexivity|]. split; [reflexivity|]. split; [reflexivity|].
  unfold expanded_channels. cbn [expansion super out_channels blocks].
  rewrite (Z.mul_comm o 4). split; [reflexivity|]. exists a. auto.
Qed.

Lemma ResNetBottleNeckBlock_main_path_witness :
  exists self,
    ResNetBottleNeckBlock (fw := Z_framework) 64 64 "SeLU" 1 = Ok self /\
    expanded_channels self = 256.
Proof.
  assert (exists self, ResNetBottleNeckBlock (fw := Z_framework) 64 64 "SeLU" 1 = Ok self)
    as [self E] by (eexists; vm_compute; reflexivity).
  exists self. split; [exact E|].
  destruct (ResNetBottleNeckBlock_main_path 64 64 "SeLU" 1 self E)
    as (_ & _ & _ & He & _).
  exact He.
Defined.

(** C3.  For [n >= 1], [ResNetLayer] builds exactly [n] blocks in
    sequence: the first one is given [in_channels] and
    [downsampling = 2] if [in_channels != out_channels] and [1]
    otherwise; every later one is given [downsampling = 1] and
    [out_channels * block.expansion] input channels.  This is so of
    every layer the constructor returns. *)
Theorem ResNetLayer_blocks {fw : Framework} (i o : Z) (block : Block) (n : Z)
    (act : string) (layer : ResNetLayerObj) :
  1 <= n ->
  ResNetLayer i o block n act = Ok layer ->
  exists first rest,
    layer_blocks layer =
      Sequential (ResNetResidualBlock first :: map ResNetResidualBlock rest) /\
    Z.of_nat (length (first :: rest)) = n /\
    call_block block i o act (if negb (i =? o) then 2 else 1)
      = Ok (ResNetResidualBlock first) /\
    in_channels (super first) = i /\
    out_channels (super first) = o /\
    downsampling first = (if negb (i =? o) then 2 else 1) /\
    Forall (fun b => call_block block (o * class_expansion block) o act 1
                       = Ok (ResNetResidualBlock b) /\
                     downsampling b = 1 /\
                     in_channels (super b) = o * class_expansion block /\
                     out_channels (super b) = o) rest.
Proof.
  intros Hn E.
  apply ResNetLayer_inv in E as (first0 & rest0 & E1 & Hall & Hlen & ->).
  pose proof E1 as E1'.
  apply call_block_inv in E1' as (a & first & _ & -> & Hi & Ho & _ & Hd & _).
  destruct (Forall_as_map ResNetResidualBlock
              (fun b => call_block block (o * class_expansion block) o act 1
                          = Ok (ResNetResidualBlock b) /\
                        downsampling b = 1 /\
                        in_channels (super b) = o * class_expansion block /\
                        out_channels (super b) = o) rest0) as (rest & -> & Hrest).
  { eapply List.Forall_impl; [|exact Hall]. intros m Em. pose proof Em as Em'.
    apply call_block_inv in Em' as (a' & b & _ & -> & Hi' & Ho' & _ & Hd' & _).
    exists b. auto. }
  exists first, rest. rewrite length_map in Hlen.
  split; [reflexivity|]. split; [cbn [length]; lia|]. auto.
Qed.

Lemma ResNetLayer_blocks_witness :
  1 <= 3 /\
  exists layer first rest,
    ResNetLayer (fw := Z_framework) 64 128 BasicBlock 3 "ReLU" = Ok layer /\
    layer_blocks layer =
      Sequential (ResNetResidualBlock first :: map ResNetResidualBlock rest) /\
    length rest = 2%nat /\ downsampling first = 2.
Proof.
  split; [lia|].
  assert (exists layer, ResNetLayer (fw := Z_framework) 64 128 BasicBlock 3 "ReLU"
                        = Ok layer)
    as [layer E] by (eexists; vm_compute; reflexivity).
  destruct (ResNetLayer_blocks 64 128 BasicBlock 3 "ReLU" layer ltac:(lia) E)
    as (first & rest & Hb & Hlen & _ & _ & _ & Hd & _).
  exists layer, first, rest. split; [exact E|]. split; [exact Hb|].
  split; [|exact Hd]. cbn [length] in Hlen. lia.
Defined.

(** C4.  The gate of a [ResNetEncoder] is, in this order: a 3-D
    convolution from [in_channels] to [blocks_sizes[0]] channels with
    kernel size 7, stride 2, padding 3 and no bias; a 3-D batch
    normalisation over [blocks_sizes[0]] channels; the selected
    activation; a 3-D max pooling with kernel size 3, stride 2 and
    padding 1.  This is so of every encoder the constructor returns. *)
Theorem ResNetEncoder_gate {fw : Framework} (ic : Z) (sizes depths : list Z)
    (act : string) (block : Block) (enc : ResNetEncoderObj) :
  ResNetEncoder ic sizes depths act block = Ok enc ->
  exists s0 a,
    sizes !! 0%nat = Some s0 /\
    activation_func act = Ok a /\
    gate enc =
      Sequential
        [Conv3d {| conv_class := cls_Conv3d;
                   conv_in_channels := ic; conv_out_channels := s0;
                   kernel_size := (7, 7, 7); stride := (2, 2, 2);
                   padding := (3, 3, 3); dilation := (1, 1, 1);
                   bias := false; padding_mode := "zeros";
                   padding_at_init := (3, 3, 3) |};
         BatchNorm3d s0;
         a;
         MaxPool3d 3 2 1].
Proof.
  intros E.
  destruct (ResNetEncoder_inv _ _ _ _ _ _ E)
    as (s0 & sizes' & d0 & depths' & a & first & rest & -> & -> & Ha & _ & _ & ->).
  exists s0, a. auto.
Qed.

Lemma ResNetEncoder_gate_witness :
  exists enc c,
    ResNetEncoder (fw := Z_framework) 1 [64; 128] [2; 2] "leaky_ReLU" BasicBlock = Ok enc /\
    gate enc = Sequential [Conv3d c; BatchNorm3d 64;
                           LeakyReLU (QArith_base.Qmake 1 100) true;
                           MaxPool3d 3 2 1].
Proof.
  assert (exists enc, ResNetEncoder (fw := Z_framework) 1 [64; 128] [2; 2] "leaky_ReLU"
                        BasicBlock = Ok enc)
    as [enc E] by (eexists; vm_compute; reflexivity).
  destruct (ResNetEncoder_gate 1 [64; 128] [2; 2] "leaky_ReLU" BasicBlock enc E)
    as (s0 & a & Hs & Ha & G).
  injection Hs as <-. injection Ha as <-.
  exists enc. eexists. split; [exact E | exact G].
Defined.

(** A construction that calls [activation_func] first fails as it does. *)
Lemma ResidualBlock_init_KeyError i o act :
  activation_func act = Raise KeyError -> ResidualBlock_init i o act = Raise KeyError.
Proof. intros E. unfold ResidualBlock_init. now rewrite E. Qed.

Lemma ResNetResidualBlock_init_KeyError {fw : Framework} cls i o e ds cv act :
  activation_func act = Raise KeyError ->
  ResNetResidualBlock_init cls i o e ds cv act = Raise KeyError.
Proof.
  intros E. unfold ResNetResidualBlock_init.
  now rewrite (ResidualBlock_init_KeyError i o act E).
Qed.

Lemma call_block_KeyError {fw : Framework} block i o act ds :
  activation_func act = Raise KeyError -> call_block block i o act ds = Raise KeyError.
Proof.
  intros E. destruct block; unfold call_block, ResNetBasicBlock, ResNetBottleNeckBlock;
    now rewrite (ResNetResidualBlock_init_KeyError _ _ _ _ _ _ _ E).
Qed.

(** C9.  [activation_func] returns a module for the four names "ReLU",
    "leaky_ReLU", "SeLU" and "none" (the identity for "none") and
    raises [KeyError] for every other string; with such a string the
    construction of every block, of a layer and of an encoder fails. *)
Theorem activation_func_names {fw : Framework} (act : string) :
  ~ In act ["ReLU"; "leaky_ReLU"; "SeLU"; "none"]%string ->
  activation_func "ReLU" = Ok (ReLU true) /\
  activation_func "leaky_ReLU" = Ok (LeakyReLU (QArith_base.Qmake 1 100) true) /\
  activation_func "SeLU" = Ok (SELU true) /\
  activation_func "none" = Ok Identity /\
  activation_func act = Raise KeyError /\
  (forall i o, ResidualBlock_init i o act = Raise KeyError) /\
  (forall cls i o e ds cv, ResNetResidualBlock_init cls i o e ds cv act = Raise KeyError) /\
  (forall i o ds, ResNetBasicBlock i o act ds = Raise KeyError) /\
  (forall i o ds, ResNetBottleNeckBlock i o act ds = Raise KeyError) /\
  (forall i o block n, ResNetLayer i o block n act = Raise KeyError) /\
  (forall ic sizes depths block,
     succeeds (ResNetEncoder ic sizes depths act block) = false).
Proof.
  intros Hn. pose proof (activation_func_KeyError act Hn) as E.
  repeat (split; [reflexivity|]).
  split; [exact E|].
  split; [intros; now apply ResidualBlock_init_KeyError|].
  split; [intros; now apply ResNetResidualBlock_init_KeyError|].
  split; [intros; unfold ResNetBasicBlock;
          now rewrite (ResNetResidualBlock_init_KeyError _ _ _ _ _ _ _ E)|].
  split; [intros; unfold ResNetBottleNeckBlock;
          now rewrite (ResNetResidualBlock_init_KeyError _ _ _ _ _ _ _ E)|].
  split; [intros; unfold ResNetLayer; rewrite !(call_block_KeyError _ _ _ _ _ E); reflexivity|].
  intros ic sizes depths block.
  destruct (ResNetEncoder ic sizes depths act block) as [enc|e] eqn:Eenc; [|reflexivity].
  destruct (ResNetEncoder_inv _ _ _ _ _ _ Eenc)
    as (s0 & sizes' & d0 & depths' & a & first & rest & _ & _ & Ha & _).
  congruence.
Qed.

Lemma activation_func_names_witness :
  ~ In "tanh"%string ["ReLU"; "leaky_ReLU"; "SeLU"; "none"]%string /\
  activation_func "tanh" = Raise KeyError /\
  ResNetBasicBlock (fw := Z_framework) 64 64 "tanh" 1 = Raise KeyError.
Proof.
  assert (~ In "tanh"%string ["ReLU"; "leaky_ReLU"; "SeLU"; "none"]%string) as Hn.
  { cbn [In]. intros [H|[H|[H|[H|[]]]]]; discriminate H. }
  split; [exact Hn|].
  destruct (activation_func_names (fw := Z_framework) "tanh" Hn)
    as (_ & _ & _ & _ & E & _ & _ & B & _).
  split; [exact E | apply B].
Defined.

Lemma odd_half (k : Z) : Z.odd k = true -> 2 * (k / 2) = k - 1.
Proof.
  intros Hk. pose proof (Z.div_mod k 2 ltac:(lia)) as H.
  rewrite Zmod_odd, Hk in H. lia.
Qed.

Lemma conv_out_extent_same (l k : Z) :
  Z.odd k = true -> conv_out_extent l k 1 (k / 2) 1 = l.
Proof.
  intros Hk. unfold conv_out_extent. rewrite (odd_half k Hk), Z.div_1_r. lia.
Qed.

(** The padding given to the constructor plays no part in whether it
    returns. *)
Lemma Conv3dAuto_with_padding {fw : Framework} i o kw pad c :
  Conv3dAuto i o kw = Ok c ->
  exists c', Conv3dAuto i o (with_padding kw pad) = Ok c' /\
             kernel_size c' = kernel_size c /\ padding c' = padding c.
Proof.
  unfold Conv3dAuto. intros E. apply bind_Ok in E as (self & E0 & E).
  apply nn_Conv3d_inv in E0 as (k & Hk & -> & Hm & Hw & Hb). injection E as <-.
  unfold nn_Conv3d.
  cbn [with_padding kw_kernel_size kw_stride kw_padding kw_dilation kw_bias
       kw_padding_mode padding_mode kernel_size bias].
  rewrite Hk, Hm. cbn [mbind Result_bind]. rewrite Hw. cbn [mbind Result_bind].
  rewrite Hb. cbn [mbind Result_bind]. eexists. split; [reflexivity|].
  split; reflexivity.
Qed.

(** C8, as the code has it.  Right after construction the padding of a
    [Conv3dAuto] is [kernel_size[d] // 2] in each spatial dimension
    [d], whatever [padding] the constructor was given; hence for odd
    kernel sizes, stride 1, dilation 1 and the padding mode "zeros"
    the convolution keeps the spatial extent of every input it
    accepts. *)
Theorem Conv3dAuto_padding {fw : Framework} (i o : Z) (kw : ConvKwargs) (c : Conv3dObj) :
  Conv3dAuto i o kw = Ok c ->
  (exists k, kw_kernel_size kw = Some k /\ kernel_size c = _triple k) /\
  padding c = ((kernel_size c).1.1 / 2, (kernel_size c).1.2 / 2, (kernel_size c).2 / 2) /\
  (forall pad, exists c',
     Conv3dAuto i o (with_padding kw pad) = Ok c' /\ padding c' = padding c) /\
  (Z.odd (kernel_size c).1.1 = true -> Z.odd (kernel_size c).1.2 = true ->
   Z.odd (kernel_size c).2 = true ->
   stride c = (1, 1, 1) -> dilation c = (1, 1, 1) -> padding_mode c = "zeros" ->
   forall p v w, conv3d p c v = Ok w -> tensor_shape w = tensor_shape v).
Proof.
  intros E. pose proof E as E'. apply Conv3dAuto_inv in E' as (k & Hk & Hc).
  split; [exists k; split; [assumption | now rewrite Hc]|].
  split; [now rewrite Hc|].
  split.
  { intros pad. destruct (Conv3dAuto_with_padding i o kw pad c E) as (c' & E1 & _ & Hp).
    now exists c'. }
  intros O1 O2 O3 Hs Hd Hm p v w Hv.
  apply conv3d_shape in Hv as (_ & _ & ->).
  assert (padding c = ((kernel_size c).1.1 / 2, (kernel_size c).1.2 / 2,
                       (kernel_size c).2 / 2)) as Hp by now rewrite Hc.
  unfold conv_out_shape, applied_padding. rewrite Hm, Hs, Hd, Hp.
  cbn [String.eqb Ascii.eqb Bool.eqb fst snd].
  rewrite !conv_out_extent_same by assumption.
  now destruct (tensor_shape v) as [[? ?] ?].
Qed.

Lemma Conv3dAuto_padding_witness :
  exists c,
    Conv3dAuto (fw := Z_framework) 64 128 (partial_keywords conv3x3) = Ok c /\
    padding c = (1, 1, 1) /\
    forall v w, conv3d (Framework := Z_framework) [] c v = Ok w ->
                tensor_shape w = tensor_shape v.
Proof.
  assert (exists c, Conv3dAuto (fw := Z_framework) 64 128 (partial_keywords conv3x3) = Ok c)
    as [c E] by (eexists; vm_compute; reflexivity).
  exists c.
  destruct (Conv3dAuto_padding 64 128 (partial_keywords conv3x3) c E)
    as (_ & Hp & _ & Hshape).
  split; [exact E|].
  injection E as <-.
  split; [exact Hp|]. intros v w. apply Hshape; reflexivity.
Defined.

(** C8 as stated fails: with [dilation=2] a [Conv3dAuto] of kernel size
    3 and stride 1 has padding 1 and turns an extent of 5 into 3. *)
Lemma Conv3dAuto_dilated_shrinks :
  exists c,
    Conv3dAuto (fw := Z_framework) 1 1
      {| kw_kernel_size := Some (S_int 3); kw_stride := None;
         kw_padding := None; kw_dilation := Some (S_int 2);
         kw_bias := None; kw_padding_mode := None |} = Ok c /\
    kernel_size c = (3, 3, 3) /\
    stride c = (1, 1, 1) /\
    padding c = (1, 1, 1) /\
    conv_out_shape c (5, 5, 5) = (3, 3, 3) /\
    conv_out_shape c (5, 5, 5) <> (5, 5, 5) /\
    exists v w,
      conv3d (Framework := Z_framework) [] c v = Ok w /\
      tensor_shape v = (5, 5, 5) /\ tensor_shape w = (3, 3, 3).
Proof.
  eexists. split; [vm_compute; reflexivity|]. repeat (split; [reflexivity|]).
  split; [discriminate|].
  exists {| zt_channels := 1; zt_shape := (5, 5, 5); zt_data := 0 |}. eexists.
  split; [vm_compute; reflexivity|]. split; reflexivity.
Qed.

Lemma lookup_replicate_counts (k : nat) (n : Z) :
  [3; 4; 6; 3] !! k = Some n -> [2; 2; 2; 2] !! k = Some 2 /\ 1 < n.
Proof.
  destruct k as [|[|[|[|k]]]]; cbn; intros [= <-]; split; (reflexivity || lia).
Qed.

(** C2.  [resnet18] and [resnet34] call [ResNetEncoder] with the same
    arguments but for [depths]: [resnet18] passes [[2, 2, 2, 2]],
    [resnet34] passes [[3, 4, 6, 3]]; [in_channels] and [block] (which
    defaults to [ResNetBasicBlock]) go to the constructor unchanged.
    So the encoders the two build from the same arguments have the
    same gate and sizes and as many layers, and layer [k] of both is
    made of the same first block and copies of the same other block:
    one of them in [resnet18], [[3, 4, 6, 3][k] - 1] in [resnet34]. *)
Theorem resnet18_resnet34_depths {fw : Framework} (ic : Z) (block : option Block)
    (kw : EncoderKwargs) :
  resnet18 ic block kw =
    ResNetEncoder ic (default [64; 128; 256; 512] (kw_blocks_sizes kw)) [2; 2; 2; 2]
      (default "ReLU"%string (kw_activation kw)) (default BasicBlock block) /\
  resnet34 ic block kw =
    ResNetEncoder ic (default [64; 128; 256; 512] (kw_blocks_sizes kw)) [3; 4; 6; 3]
      (default "ReLU"%string (kw_activation kw)) (default BasicBlock block) /\
  resnet18 ic None kw = resnet18 ic (Some BasicBlock) kw /\
  resnet34 ic None kw = resnet34 ic (Some BasicBlock) kw /\
  forall e18 e34,
    resnet18 ic block kw = Ok e18 ->
    resnet34 ic block kw = Ok e34 ->
    gate e18 = gate e34 /\
    blocks_sizes e18 = blocks_sizes e34 /\
    in_out_block_sizes e18 = in_out_block_sizes e34 /\
    length (encoder_blocks e18) = length (encoder_blocks e34) /\
    forall k l18 l34,
      encoder_blocks e18 !! k = Some l18 ->
      encoder_blocks e34 !! k = Some l34 ->
      exists first other n,
        [3; 4; 6; 3]%nat !! k = Some n /\
        layer_members l18 = [first; other] /\
        layer_members l34 = first :: replicate (n - 1) other.
Proof.
  repeat (split; [reflexivity|]).
  unfold resnet18, resnet34, call_ResNetEncoder.
  set (sizes := default [64; 128; 256; 512] (kw_blocks_sizes kw)).
  set (act := default "ReLU"%string (kw_activation kw)).
  set (b := default BasicBlock block).
  intros e18 e34 E18 E34.
  pose proof (ResNetEncoder_layers _ _ _ _ _ _ E18) as [Hlen18 Hl18].
  pose proof (ResNetEncoder_layers _ _ _ _ _ _ E34) as [Hlen34 Hl34].
  destruct (ResNetEncoder_inv _ _ _ _ _ _ E18)
    as (s0 & sizes' & d0 & depths' & a & first & rest & Hs & _ & Ha & _ & _ & ->).
  destruct (ResNetEncoder_inv _ _ _ _ _ _ E34)
    as (s0' & sizes'' & d0' & depths'' & a' & first' & rest' & Hs' & _ & Ha' & _ & _ & ->).
  rewrite Hs in Hs'. injection Hs' as <- <-. rewrite Ha in Ha'. injection Ha' as <-.
  cbn [gate blocks_sizes in_out_block_sizes].
  repeat (split; [reflexivity|]).
  split; [cbn [length] in *; lia|].
  intros k l18 l34 H18 H34.
  apply Hl18 in H18 as (i & o & n18 & Ho & Hn18 & Hi & El18).
  apply Hl34 in H34 as (i' & o' & n34 & Ho' & Hn34 & Hi' & El34).
  rewrite Ho in Ho'. injection Ho' as <-.
  assert (i' = i) as ->.
  { destruct k as [|k]; [congruence|].
    destruct Hi as (x & Hx & ->), Hi' as (x' & Hx' & ->). congruence. }
  destruct (lookup_replicate_counts k n34 Hn34) as [Hn18' Hn].
  rewrite Hn18 in Hn18'. injection Hn18' as ->.
  destruct (ResNetLayer_replicate _ _ _ _ _ _ El18) as (f18 & Ef18 & H18).
  destruct (ResNetLayer_replicate _ _ _ _ _ _ El34) as (f34 & Ef34 & H34).
  rewrite Ef18 in Ef34. injection Ef34 as <-.
  destruct H18 as [[_ ?]|(other & Eo & M18 & _)]; [lia|].
  destruct H34 as [[_ ?]|(other' & Eo' & M34 & _)]; [lia|].
  rewrite Eo in Eo'. injection Eo' as <-.
  exists f18, other, (Z.to_nat n34).
  split.
  { clear -Hn34. destruct k as [|[|[|[|k]]]]; cbn in Hn34; try discriminate Hn34;
      injection Hn34 as <-; reflexivity. }
  split; [exact M18|].
  rewrite M34. do 2 f_equal. lia.
Qed.

Lemma resnet18_resnet34_depths_witness :
  exists e18 e34,
    resnet18 (fw := Z_framework) 1 None
      {| kw_blocks_sizes := None; kw_activation := None |} = Ok e18 /\
    resnet34 (fw := Z_framework) 1 None
      {| kw_blocks_sizes := None; kw_activation := None |} = Ok e34 /\
    gate e18 = gate e34 /\
    map (fun layer => length (layer_members layer)) (encoder_blocks e18)
      = [2; 2; 2; 2]%nat /\
    map (fun layer => length (layer_members layer)) (encoder_blocks e34)
      = [3; 4; 6; 3]%nat.
Proof.
  assert (exists e18, resnet18 (fw := Z_framework) 1 None
            {| kw_blocks_sizes := None; kw_activation := None |} = Ok e18)
    as [e18 E18] by (eexists; vm_compute; reflexivity).
  assert (exists e34, resnet34 (fw := Z_framework) 1 None
            {| kw_blocks_sizes := None; kw_activation := None |} = Ok e34)
    as [e34 E34] by (eexists; vm_compute; reflexivity).
  exists e18, e34. split; [exact E18|]. split; [exact E34|].
  destruct (resnet18_resnet34_depths (fw := Z_framework) 1 None
              {| kw_blocks_sizes := None; kw_activation := None |})
    as (_ & _ & _ & _ & H).
  destruct (H e18 e34 E18 E34) as (Hg & _).
  split; [exact Hg|].
  vm_compute in E18. injection E18 as <-.
  vm_compute in E34. injection E34 as <-.
  split; reflexivity.
Defined.

Lemma ResNetResidualBlock_init_shortcut {fw : Framework} cls i o e ds cv act self :
  ResNetResidualBlock_init cls i o e ds cv act = Ok self ->
  in_channels (super self) = i /\ expanded_channels self = o * e /\
  (shortcut (super self) = None <-> in_channels (super self) = expanded_channels self).
Proof.
  intros E. apply ResNetResidualBlock_init_inv in E as (a & Ha & ->).
  unfold expanded_channels. cbn [super in_channels out_channels expansion shortcut].
  split; [reflexivity|]. split; [reflexivity|].
  destruct (Z.eqb_spec i (o * e)); cbn [negb]; split; intros H; congruence.
Qed.

Lemma call_block_shortcut {fw : Framework} block i o act ds self :
  call_block block i o act ds = Ok (ResNetResidualBlock self) ->
  shortcut (super self) = None <-> in_channels (super self) = expanded_channels self.
Proof.
  intros E. apply call_block_inv in E
    as (a & self' & Ha & [= <-] & Hi & Ho & He & _ & Hsc & _).
  unfold expanded_channels. rewrite Hsc, Hi, Ho, He.
  destruct (Z.eqb_spec i (o * class_expansion block)); cbn [negb];
    split; intros H; congruence.
Qed.

Lemma forward_without_shortcut {fw : Framework} p self sc x h :
  in_channels (super self) = expanded_channels self ->
  forward p (ResNetResidualBlock (set_shortcut self sc)) x h =
  forward p (ResNetResidualBlock self) x h.
Proof.
  intros Heq. cbn [forward].
  assert (should_apply_shortcut (set_shortcut self sc) = false) as ->.
  { unfold should_apply_shortcut, expanded_channels in *. cbn. rewrite Heq.
    now rewrite Z.eqb_refl. }
  assert (should_apply_shortcut self = false) as ->.
  { unfold should_apply_shortcut. rewrite Heq. now rewrite Z.eqb_refl. }
  reflexivity.
Qed.

(** C10.  Channel counts chain through the encoder, for both kinds of
    block: with [blocks_sizes] and [depths] of equal length, every
    layer of [ResNetEncoder.blocks] takes as many channels as the layer
    before it gives (that layer's [out_channels] times
    [block.expansion]), and the last layer gives
    [blocks_sizes[-1] * block.expansion] channels.  The [shortcut] of a
    [ResNetResidualBlock] is [None] exactly when [in_channels] equals
    [expanded_channels], and then [forward] does not call it.  This is
    so of every encoder and block the constructors return. *)
Theorem channels_chain {fw : Framework} (ic : Z) (sizes depths : list Z) (act : string)
    (block : Block) (enc : ResNetEncoderObj) :
  length sizes = length depths ->
  ResNetEncoder ic sizes depths act block = Ok enc ->
  (length (encoder_blocks enc) = length sizes /\
   (forall k before layer,
      encoder_blocks enc !! k = Some before ->
      encoder_blocks enc !! S k = Some layer ->
      exists o, sizes !! k = Some o /\
                layer_out_channels before = Some (o * class_expansion block) /\
                layer_in_channels layer = Some (o * class_expansion block)) /\
   (exists o, last sizes = Some o /\
              encoder_out_channels enc = Some (o * class_expansion block))) /\
  (forall cls i o e ds cv act' self,
     ResNetResidualBlock_init cls i o e ds cv act' = Ok self ->
     shortcut (super self) = None <-> in_channels (super self) = expanded_channels self) /\
  (forall i o ds self,
     call_block block i o act ds = Ok (ResNetResidualBlock self) ->
     shortcut (super self) = None <-> in_channels (super self) = expanded_channels self) /\
  (forall p self sc x h,
     in_channels (super self) = expanded_channels self ->
     forward p (ResNetResidualBlock (set_shortcut self sc)) x h =
     forward p (ResNetResidualBlock self) x h).
Proof.
  intros Hlen E.
  split; [|split; [|split]].
  - destruct (ResNetEncoder_inv _ _ _ _ _ _ E)
      as (s0 & sizes' & d0 & depths' & a & first & rest & -> & -> & Ha & E1 & E2 & ->).
    rename sizes' into sizes. rename depths' into depths.
    injection Hlen as Hlen.
    destruct (ResNetLayer_facts _ _ _ _ _ _ E1) as (_ & Hin1 & Hout1 & _).
    destruct (later_layers_facts block act sizes s0 depths rest E2) as (Hlr & Hrest).
    cbn [encoder_blocks].
    split; [cbn [length]; lia|]. split.
    + intros [|k] before layer Hb Hl.
      * injection Hb as <-. cbn in Hl.
        apply Hrest in Hl as (i' & o' & Hi' & _ & Hin & _).
        injection Hi' as <-. exists s0. auto.
      * cbn in Hb, Hl.
        apply Hrest in Hb as (_ & o' & _ & Ho' & _ & Hout & _).
        apply Hrest in Hl as (i' & _ & Hi' & _ & Hin & _).
        change ((s0 :: sizes) !! S k) with (sizes !! k) in Hi'.
        rewrite Ho' in Hi'. injection Hi' as <-.
        exists o'. auto.
    + unfold encoder_out_channels. cbn [encoder_blocks].
      destruct rest as [|layer rest].
      * destruct sizes as [|? ?]; [|cbn [length] in Hlr, Hlen; lia].
        exists s0. split; [reflexivity | exact Hout1].
      * rewrite !last_lookup. cbn [length Nat.pred].
        destruct (lookup_lt_is_Some_2 (layer :: rest) (length rest)
                    ltac:(cbn [length]; lia)) as [lastl Hlast].
        change ((first :: layer :: rest) !! S (length rest))
          with ((layer :: rest) !! length rest).
        rewrite Hlast.
        apply Hrest in Hlast as (_ & o' & _ & Ho' & _ & Hout & _).
        exists o'. split; [|exact Hout].
        assert (length sizes = S (length rest)) as -> by (cbn [length] in Hlr; lia).
        exact Ho'.
  - intros cls i o e ds cv act' self E'.
    now destruct (ResNetResidualBlock_init_shortcut _ _ _ _ _ _ _ _ E') as (_ & _ & H).
  - intros i o ds self E'. exact (call_block_shortcut _ _ _ _ _ _ E').
  - intros p self sc x h Heq. now apply forward_without_shortcut.
Qed.

Lemma channels_chain_witness :
  length [64; 128; 256; 512] = length [3; 4; 6; 3] /\
  exists enc,
    ResNetEncoder (fw := Z_framework) 1 [64; 128; 256; 512] [3; 4; 6; 3] "ReLU"
      BottleNeckBlock = Ok enc /\
    encoder_out_channels enc = Some 2048.
Proof.
  split; [reflexivity|].
  assert (exists enc, ResNetEncoder (fw := Z_framework) 1 [64; 128; 256; 512]
                        [3; 4; 6; 3] "ReLU" BottleNeckBlock = Ok enc)
    as [enc E] by (eexists; vm_compute; reflexivity).
  destruct (channels_chain 1 [64; 128; 256; 512] [3; 4; 6; 3] "ReLU" BottleNeckBlock
              enc eq_refl E)
    as ((_ & _ & o & Ho & Hout) & _).
  exists enc. split; [exact E|]. injection Ho as <-. exact Hout.
Defined.

(** ** Built modules keep their residuals *)

Lemma ResidualBlock_init_residual_safe i o act self :
  ResidualBlock_init i o act = Ok self -> residual_safe (ResidualBlock self) = true.
Proof.
  unfold ResidualBlock_init. intros E.
  destruct (activation_func act) as [a|e] eqn:Ha; [|discriminate E].
  injection E as <-. destruct (activation_func_Ok _ _ Ha) as [Sa _].
  cbn. unfold block_residual_safe. cbn. rewrite Sa.
  now destruct (ResidualBlock_should_apply_shortcut _).
Qed.

Section Residuals.

Context {fw : Framework}.

Lemma ResNetResidualBlock_init_residual_safe cls i o e ds cv act self :
  ResNetResidualBlock_init cls i o e ds cv act = Ok self ->
  residual_safe (ResNetResidualBlock self) = true.
Proof.
  intros E. apply ResNetResidualBlock_init_inv in E as (a & Ha & ->).
  destruct (activation_func_Ok _ _ Ha) as [Sa _].
  cbn. unfold block_residual_safe, should_apply_shortcut, expanded_channels. cbn.
  rewrite Sa. now destruct (i =? o * e).
Qed.

Lemma call_block_residual_safe block i o act ds m :
  call_block block i o act ds = Ok m -> residual_safe m = true.
Proof.
  intros E. now apply call_block_inv in E as (a & self & _ & -> & _ & _ & _ & _ & _ & _ & Hs).
Qed.

Lemma call_block_is_block block i o act ds m :
  call_block block i o act ds = Ok m -> exists self, m = ResNetResidualBlock self.
Proof.
  intros E. apply call_block_inv in E as (a & self & _ & -> & _). now exists self.
Qed.

Lemma constructed_residual_safe m :
  constructed m ->
  residual_safe m = true /\ exists apply self, as_residual_block m = Some (apply, self).
Proof.
  intros [i o act self E|cls i o e ds cv act self E|block i o act ds m' E].
  - split; [exact (ResidualBlock_init_residual_safe _ _ _ _ E) | cbn; eauto].
  - split; [exact (ResNetResidualBlock_init_residual_safe _ _ _ _ _ _ _ _ E) | cbn; eauto].
  - split; [exact (call_block_residual_safe _ _ _ _ _ _ E)|].
    destruct (call_block_is_block _ _ _ _ _ _ E) as [self ->]. cbn; eauto.
Qed.

Lemma ResNetEncoder_residual_safe ic sizes depths act block enc :
  ResNetEncoder ic sizes depths act block = Ok enc -> encoder_residual_safe enc = true.
Proof.
  intros E.
  destruct (ResNetEncoder_inv _ _ _ _ _ _ E)
    as (s0 & sizes' & d0 & depths' & a & first & rest & -> & -> & Ha & E1 & E2 & ->).
  destruct (ResNetLayer_facts _ _ _ _ _ _ E1) as (_ & _ & _ & S1).
  destruct (later_layers_facts block act sizes' s0 depths' rest E2) as (_ & Hrest).
  destruct (activation_func_Ok _ _ Ha) as [Sa _].
  unfold encoder_residual_safe. cbn [gate encoder_blocks forallb].
  rewrite residual_safe_Sequential. cbn [forallb residual_safe]. rewrite Sa, S1.
  cbn [andb]. apply forallb_forall. intros layer Hin.
  apply list_elem_of_In, list_elem_of_lookup in Hin as [k Hk].
  now apply Hrest in Hk as (_ & _ & _ & _ & _ & _ & Hs).
Qed.

End Residuals.

(** ** The forward passes *)

Section Forward_passes.

Context {fw : Framework}.

Lemma Fwd_bind_ret (c : Fwd loc) h : (c ≫= mret) h = c h.
Proof. unfold mbind, Fwd_bind. now destruct (c h) as [[r h']|e]. Qed.

(** Every effect is at most [InPlace]. *)
Lemma computes_InPlace e c x f : computes e c x f -> computes InPlace c x f.
Proof.
  intros H h v Hx. specialize (H h v Hx). destruct (f v) as [w|err]; [|assumption].
  destruct H as (r & h' & E & L & Fr & R). exists r, h'.
  repeat (split; [assumption|]). eapply result_at_cases. exact R.
Qed.

Lemma for_blocks_computes p bs :
  forallb (fun block => residual_safe (layer_blocks block)) bs = true ->
  forall i x,
    computes InPlace (for_blocks p i bs x) x
      (in_sequence (imap (fun j block => ResNetLayer_value (Idx (i + j) :: p) block) bs)).
Proof.
  induction bs as [|b bs IH]; intros Hs i x.
  - apply (computes_InPlace Alias). apply Identity_computes.
  - cbn [forallb] in Hs. apply andb_true_iff in Hs as [Hb Hs].
    apply (computes_InPlace (and_then (effect (layer_blocks b)) InPlace)).
    cbn [for_blocks imap in_sequence].
    eapply computes_ext; [reflexivity | |].
    2:{ apply bind_computes with
          (f1 := ResNetLayer_value (Idx (i + 0) :: p) b)
          (f2 := in_sequence (imap (fun j block =>
                    ResNetLayer_value (Idx (S i + j) :: p) block) bs))
          (e2 := InPlace).
        - rewrite Nat.add_0_r.
          eapply computes_ext; [intros h; symmetry; apply Fwd_bind_ret | reflexivity |].
          now apply forward_computes.
        - intros r. now apply IH. }
    intros v. cbn beta. destruct (ResNetLayer_value _ b v) as [w|err]; [|reflexivity].
    cbn [mbind Result_bind]. f_equal. apply imap_ext. intros j y _. unfold compose.
    now rewrite Nat.add_succ_r.
Qed.

Lemma ResNetEncoder_forward_bind p enc x h :
  ResNetEncoder_forward p enc x h =
    (forward (Name "gate" :: p) (gate enc) x
       ≫= for_blocks (Name "blocks" :: p) 0 (encoder_blocks enc)) h.
Proof.
  unfold ResNetEncoder_forward, mbind, Fwd_bind.
  destruct (forward (Name "gate" :: p) (gate enc) x h) as [[y h1]|e]; [|reflexivity].
  apply Fwd_bind_ret.
Qed.

(** The forward pass of an encoder whose residual blocks keep their
    residuals does what its parts do one after the other. *)
Lemma ResNetEncoder_forward_computes p enc x :
  encoder_residual_safe enc = true ->
  computes (and_then (effect (gate enc)) InPlace) (ResNetEncoder_forward p enc x) x
    (in_sequence (ResNetEncoder_parts p enc)).
Proof.
  intros Hs. unfold encoder_residual_safe in Hs. apply andb_true_iff in Hs as [Hg Hb].
  eapply computes_ext;
    [intros h; symmetry; apply ResNetEncoder_forward_bind | reflexivity |].
  apply bind_computes; [now apply forward_computes|].
  intros r. exact (for_blocks_computes (Name "blocks" :: p) _ Hb 0%nat r).
Qed.

Lemma value_residual_block p m apply self v :
  as_residual_block m = Some (apply, self) ->
  value p m v = residual_composition value p apply self v.
Proof. destruct m; intros E; try discriminate E; now injection E as <- <-. Qed.

Lemma forward_residual_block p m apply self x :
  as_residual_block m = Some (apply, self) ->
  forward p m x = ResidualBlock_forward forward p apply self x.
Proof. destruct m; intros E; try discriminate E; now injection E as <- <-. Qed.

(** The residual composition, taken apart. *)
Lemma residual_composition_Ok val p apply self v out :
  residual_composition val p apply self v = Ok out ->
  exists residual main,
    (if apply then
       exists s, shortcut self = Some s /\ val (Name "shortcut" :: p) s v = Ok residual
     else residual = v) /\
    val (Name "blocks" :: p) (blocks self) v = Ok main /\
    addable main residual = true /\
    val (Name "activate" :: p) (activate self) (add main residual) = Ok out.
Proof.
  unfold residual_composition. intros V.
  apply bind_Ok in V as (residual & Vr & V). apply bind_Ok in V as (main & Vb & V).
  apply bind_Ok in V as (sum & Vs & V). unfold add_value in Vs.
  destruct (addable main residual) eqn:Ha; [|discriminate Vs]. injection Vs as <-.
  exists residual, main. split; [|auto].
  destruct apply; [|congruence].
  destruct (shortcut self) as [s|]; [|discriminate Vr]. eauto.
Qed.

End Forward_passes.

(** C1.  [ResidualBlock.forward] computes the residual composition: the
    residual is [shortcut(x)] when the block's [should_apply_shortcut]
    holds and [x] itself otherwise, the main blocks are applied to [x],
    the residual is added to their result, the activation is applied to
    the sum, and that is the value returned.  It is so on the store,
    where the sum and the activations are in place, for every residual
    block the file constructs and every argument: where [forward]
    returns, the tensor it returns holds that value; where it raises,
    it is the exception of the first step of the composition that the
    framework rejects. *)
Theorem ResidualBlock_forward_spec {fw : Framework} (m : Module) (p : Path) (x : loc)
    (h : Store) (v : Tensor) :
  constructed m ->
  h !! x = Some v ->
  exists apply self,
    as_residual_block m = Some (apply, self) /\
    forward p m x = ResidualBlock_forward forward p apply self x /\
    match forward p m x h with
    | Ok (r, h') =>
        exists residual main out,
          (if apply then
             exists s, shortcut self = Some s /\
                       value (Name "shortcut" :: p) s v = Ok residual
           else residual = v) /\
          value (Name "blocks" :: p) (blocks self) v = Ok main /\
          addable main residual = true /\
          value (Name "activate" :: p) (activate self) (add main residual) = Ok out /\
          h' !! r = Some out
    | Raise e => residual_composition value p apply self v = Raise e
    end.
Proof.
  intros Hc Hx.
  destruct (constructed_residual_safe m Hc) as (Hs & apply & self & Hm).
  exists apply, self. split; [exact Hm|].
  split; [now apply forward_residual_block|].
  pose proof (forward_computes m p x Hs h v Hx) as H.
  rewrite (value_residual_block p m apply self v Hm) in H.
  destruct (residual_composition value p apply self v) as [out|err] eqn:V.
  - destruct H as (r & h' & -> & L & _).
    apply residual_composition_Ok in V as (residual & main & Hr & Vb & Ha & Va).
    exists residual, main, out. auto.
  - now rewrite H.
Qed.

Lemma ResidualBlock_forward_spec_witness :
  constructed (fw := Z_framework) example_block /\
  [{| zt_channels := 1; zt_shape := (8, 8, 8); zt_data := 5 |}] !! 0%nat
    = Some {| zt_channels := 1; zt_shape := (8, 8, 8); zt_data := 5 |} /\
  exists r h' out,
    forward (fw := Z_framework) [] example_block 0%nat
      [{| zt_channels := 1; zt_shape := (8, 8, 8); zt_data := 5 |}] = Ok (r, h') /\
    h' !! r = Some out /\
    zt_channels out = 2 /\ zt_shape out = (4, 4, 4).
Proof.
  assert (constructed (fw := Z_framework) example_block) as Hc
    by (apply (constructed_block BasicBlock 1 2 "ReLU" 2); reflexivity).
  split; [exact Hc|]. split; [reflexivity|].
  destruct (ResidualBlock_forward_spec (fw := Z_framework) example_block [] 0%nat
              [{| zt_channels := 1; zt_shape := (8, 8, 8); zt_data := 5 |}]
              {| zt_channels := 1; zt_shape := (8, 8, 8); zt_data := 5 |} Hc eq_refl)
    as (apply & self & _ & _ & H).
  destruct (forward (fw := Z_framework) [] example_block 0%nat _) as [[r h']|e] eqn:E.
  - destruct H as (residual & main & out & _ & _ & _ & _ & L).
    exists r, h', out. split; [reflexivity|]. split; [exact L|].
    vm_compute in E. injection E as <- <-.
    vm_compute in L. injection L as <-. split; reflexivity.
  - vm_compute in E. discriminate E.
Defined.

(** C7.  [ResNetEncoder.forward] is the sequential composition of its
    parts: it returns the result of the gate on [x], passed through the
    layers of [self.blocks] in list order, and nothing else; where a
    part raises, it raises the same and the parts after it are not
    reached. *)
Theorem ResNetEncoder_forward_spec {fw : Framework} (ic : Z) (sizes depths : list Z)
    (act : string) (block : Block) (enc : ResNetEncoderObj) (p : Path) (x : loc)
    (h : Store) (v : Tensor) :
  ResNetEncoder ic sizes depths act block = Ok enc ->
  h !! x = Some v ->
  ResNetEncoder_forward p enc x h =
    (forward (Name "gate" :: p) (gate enc) x
       ≫= for_blocks (Name "blocks" :: p) 0 (encoder_blocks enc)) h /\
  match in_sequence (ResNetEncoder_parts p enc) v with
  | Ok w => exists r h', ResNetEncoder_forward p enc x h = Ok (r, h') /\ h' !! r = Some w
  | Raise e => ResNetEncoder_forward p enc x h = Raise e
  end.
Proof.
  intros E Hx. split; [apply ResNetEncoder_forward_bind|].
  pose proof (ResNetEncoder_residual_safe _ _ _ _ _ _ E) as Hs.
  pose proof (ResNetEncoder_forward_computes p enc x Hs h v Hx) as H.
  destruct (in_sequence (ResNetEncoder_parts p enc) v) as [w|err]; [|exact H].
  destruct H as (r & h' & E' & L & _). eauto.
Qed.

Lemma ResNetEncoder_forward_spec_witness :
  exists enc,
    ResNetEncoder (fw := Z_framework) 1 [2; 4] [1; 2] "ReLU" BasicBlock = Ok enc /\
    [{| zt_channels := 1; zt_shape := (16, 16, 16); zt_data := 7 |}] !! 0%nat
      = Some {| zt_channels := 1; zt_shape := (16, 16, 16); zt_data := 7 |} /\
    exists r h' w,
      ResNetEncoder_forward (fw := Z_framework) [] enc 0%nat
        [{| zt_channels := 1; zt_shape := (16, 16, 16); zt_data := 7 |}] = Ok (r, h') /\
      h' !! r = Some w /\ zt_channels w = 4 /\ zt_shape w = (2, 2, 2).
Proof.
  assert (exists enc, ResNetEncoder (fw := Z_framework) 1 [2; 4] [1; 2] "ReLU" BasicBlock
                      = Ok enc)
    as [enc E] by (eexists; vm_compute; reflexivity).
  exists enc. split; [exact E|]. split; [reflexivity|].
  destruct (ResNetEncoder_forward_spec (fw := Z_framework) 1 [2; 4] [1; 2] "ReLU"
              BasicBlock enc [] 0%nat
              [{| zt_channels := 1; zt_shape := (16, 16, 16); zt_data := 7 |}]
              {| zt_channels := 1; zt_shape := (16, 16, 16); zt_data := 7 |} E eq_refl)
    as (_ & H).
  vm_compute in E. injection E as <-.
  vm_compute in H. destruct H as (r & h' & E' & L).
  eexists r, h', _. split; [exact E'|]. split; [exact L|]. split; reflexivity.
Defined.

(** * Further properties of the constructors *)

(** X2.  A built encoder has [min(len(blocks_sizes), len(depths))]
    layers, because [zip] stops at the shorter list, and layer [k] has
    [max(depths[k], 1)] blocks; sizes or depths beyond the shorter list
    are ignored. *)
Theorem ResNetEncoder_layer_count {fw : Framework} (ic : Z) (sizes depths : list Z)
    (act : string) (block : Block) (enc : ResNetEncoderObj) :
  ResNetEncoder ic sizes depths act block = Ok enc ->
  length (encoder_blocks enc) = Nat.min (length sizes) (length depths) /\
  forall k layer, encoder_blocks enc !! k = Some layer ->
    exists n, depths !! k = Some n /\
              length (layer_members layer) = Z.to_nat (Z.max n 1).
Proof.
  intros E. destruct (ResNetEncoder_layers _ _ _ _ _ _ E) as [Hlen Hl].
  split; [exact Hlen|]. intros k layer Hk.
  destruct (Hl k layer Hk) as (i & o & n & _ & Hn & _ & El).
  exists n. split; [exact Hn|].
  destruct (ResNetLayer_facts _ _ _ _ _ _ El) as (Hlen' & _). lia.
Qed.

Lemma ResNetEncoder_layer_count_witness :
  exists enc,
    ResNetEncoder (fw := Z_framework) 1 [8; 16; 32] [2; 0; 5; 7; 9] "none"
      BottleNeckBlock = Ok enc /\
    length (encoder_blocks enc) = 3%nat /\
    map (fun layer => length (layer_members layer)) (encoder_blocks enc) = [2; 1; 5]%nat.
Proof.
  eexists. split; [vm_compute; reflexivity|].
  match goal with
  | |- length (encoder_blocks ?enc) = _ /\ _ =>
      destruct (ResNetEncoder_layer_count (fw := Z_framework) 1 [8; 16; 32]
                  [2; 0; 5; 7; 9] "none" BottleNeckBlock enc
                  ltac:(vm_compute; reflexivity)) as [Hlen _]
  end.
  split; [exact Hlen | reflexivity].
Defined.

(** X4.  When [in_channels] differs from [expanded_channels], the shortcut
    of a built block is a bias-free 1x1x1 convolution without padding,
    of stride [downsampling], from [in_channels] to
    [expanded_channels], followed by a batch normalisation over
    [expanded_channels]; [activate] is the module of the activation
    name. *)
Theorem block_shortcut_structure {fw : Framework} (block : Block) (i o : Z)
    (act : string) (ds : Z) (self : ResNetResidualBlockObj Module) :
  call_block block i o act ds = Ok (ResNetResidualBlock self) ->
  in_channels (super self) <> expanded_channels self ->
  shortcut (super self) =
    Some (Sequential
            [Conv3d {| conv_class := cls_Conv3d;
                       conv_in_channels := in_channels (super self);
                       conv_out_channels := expanded_channels self;
                       kernel_size := (1, 1, 1);
                       stride := (downsampling self, downsampling self, downsampling self);
                       padding := (0, 0, 0); dilation := (1, 1, 1);
                       bias := false; padding_mode := "zeros";
                       padding_at_init := (0, 0, 0) |};
             BatchNorm3d (expanded_channels self)]) /\
  downsampling self = ds /\
  activation_func act = Ok (activate (super self)).
Proof.
  intros E Hne. apply call_block_inv in E
    as (a & self' & Ha & [= <-] & Hi & Ho & He & Hd & Hsc & Hact & _).
  unfold expanded_channels in *. rewrite Hsc, Hi, Ho, He, Hd, Hact in *.
  destruct (Z.eqb_spec i (o * class_expansion block)) as [Heq|_]; [congruence|].
  cbn [negb]. auto.
Qed.

Lemma block_shortcut_structure_witness :
  exists self,
    call_block (fw := Z_framework) BottleNeckBlock 64 64 "ReLU" 1
      = Ok (ResNetResidualBlock self) /\
    in_channels (super self) <> expanded_channels self /\
    exists c, shortcut (super self) = Some (Sequential [Conv3d c; BatchNorm3d 256]) /\
              conv_in_channels c = 64 /\ conv_out_channels c = 256 /\
              stride c = (1, 1, 1).
Proof.
  eexists. split; [vm_compute; reflexivity|].
  split; [vm_compute; discriminate|].
  match goal with
  | |- exists c, shortcut (super ?self) = _ /\ _ =>
      destruct (block_shortcut_structure (fw := Z_framework) BottleNeckBlock 64 64
                  "ReLU" 1 self
                  ltac:(vm_compute; reflexivity) ltac:(vm_compute; discriminate))
        as (Hsc & _ & _)
  end.
  eexists. split; [exact Hsc|]. repeat split.
Defined.

(** X19.  A built encoder keeps [blocks_sizes] as given, and
    [in_out_block_sizes] holds the [len(blocks_sizes) - 1] pairs of
    consecutive sizes. *)
Theorem encoder_in_out_block_sizes {fw : Framework} (ic : Z) (sizes depths : list Z)
    (act : string) (block : Block) (enc : ResNetEncoderObj) :
  ResNetEncoder ic sizes depths act block = Ok enc ->
  blocks_sizes enc = sizes /\
  length (in_out_block_sizes enc) = Nat.pred (length sizes) /\
  forall k a b,
    in_out_block_sizes enc !! k = Some (a, b) <->
    sizes !! k = Some a /\ sizes !! S k = Some b.
Proof.
  intros E.
  destruct (ResNetEncoder_inv _ _ _ _ _ _ E)
    as (s0 & sizes' & d0 & depths' & a & first & rest & -> & -> & Ha & _ & _ & ->).
  cbn [blocks_sizes in_out_block_sizes].
  split; [reflexivity|]. split.
  - rewrite length_zip_with. cbn [length]. lia.
  - intros k x y. change ((s0 :: sizes') !! S k) with (sizes' !! k).
    rewrite lookup_zip_with_Some. split.
    + intros (x' & y' & [= <- <-] & Hx & Hy). auto.
    + intros [Hx Hy]. exists x, y. auto.
Qed.

Lemma encoder_in_out_block_sizes_witness :
  exists enc,
    ResNetEncoder (fw := Z_framework) 1 [64; 128; 256; 512] [2; 2; 2; 2] "ReLU"
      BasicBlock = Ok enc /\
    in_out_block_sizes enc = [(64, 128); (128, 256); (256, 512)].
Proof.
  eexists. split; [vm_compute; reflexivity|].
  match goal with
  | |- in_out_block_sizes ?enc = _ =>
      destruct (encoder_in_out_block_sizes (fw := Z_framework) 1 [64; 128; 256; 512]
                  [2; 2; 2; 2] "ReLU" BasicBlock enc ltac:(vm_compute; reflexivity))
        as (_ & _ & _)
  end.
  reflexivity.
Defined.

(** * Channel counts *)

Lemma channels_Sequential ms c :
  channels (Sequential ms) c = Sequential_channels ms c.
Proof.
  cbn [channels]. revert c. induction ms as [|m ms IH]; intros c; [reflexivity|].
  cbn [Sequential_channels]. destruct (channels m c) as [c'|e]; [apply IH | reflexivity].
Qed.

Lemma activation_channels act a c :
  activation_func act = Ok a -> channels a c = Ok c.
Proof.
  intros E. pose proof (activation_func_cases act) as H. rewrite E in H.
  destruct H as [[_ ->]|[[_ ->]|[[_ ->]|[_ ->]]]]; reflexivity.
Qed.

Ltac channels_step Hact :=
  repeat first
    [ rewrite Z.eqb_refl
    | rewrite (activation_channels _ _ _ Hact)
    | progress cbn [channels residual_channels mbind Result_bind orb negb
                    conv_in_channels conv_out_channels super blocks activate shortcut
                    in_channels out_channels expansion] ].

Section Channels.

Context {fw : Framework}.

(** A built block takes [in_channels] channels, nothing else, and gives
    [out_channels * expansion]. *)
Lemma call_block_channels (block : Block) (i o : Z) (act : string) (ds : Z) (m : Module)
    (c : Z) :
  call_block block i o act ds = Ok m ->
  channels m c =
    if c =? i then Ok (o * class_expansion block) else Raise RuntimeError.
Proof.
  intros E. destruct block; unfold call_block in E;
    apply bind_Ok in E as (self & E0 & E); injection E as <-.
  - apply ResNetBasicBlock_inv in E0 as (a & Ha & ->).
    cbn [channels class_expansion]. unfold should_apply_shortcut, expanded_channels.
    cbn [super in_channels out_channels expansion].
    destruct (Z.eqb_spec c i) as [->|Hne].
    + destruct (i =? o * 1) eqn:Hio; channels_step Ha; [|reflexivity].
      apply Z.eqb_eq in Hio. rewrite <- Hio. channels_step Ha.
      rewrite Hio at 1. channels_step Ha. now rewrite <- Hio.
    + apply Z.eqb_neq in Hne.
      destruct (i =? o * 1); channels_step Ha; rewrite Hne; reflexivity.
  - apply ResNetBottleNeckBlock_inv in E0 as (a & Ha & ->).
    cbn [channels class_expansion]. unfold should_apply_shortcut, expanded_channels.
    cbn [super in_channels out_channels expansion].
    destruct (Z.eqb_spec c i) as [->|Hne].
    + destruct (i =? o * 4) eqn:Hio; channels_step Ha; [|reflexivity].
      apply Z.eqb_eq in Hio. rewrite <- Hio. channels_step Ha. reflexivity.
    + apply Z.eqb_neq in Hne.
      destruct (i =? o * 4); channels_step Ha; rewrite Hne; reflexivity.
Qed.

Lemma blocks_channels block o act ms :
  Forall (fun m => call_block block (o * class_expansion block) o act 1 = Ok m) ms ->
  Sequential_channels ms (o * class_expansion block) = Ok (o * class_expansion block).
Proof.
  induction 1 as [|m ms E _ IH]; [reflexivity|].
  cbn [Sequential_channels].
  rewrite (call_block_channels _ _ _ _ _ _ _ E), Z.eqb_refl. exact IH.
Qed.

Lemma ResNetLayer_channels (i o : Z) (block : Block) (n : Z) (act : string)
    (layer : ResNetLayerObj) (c : Z) :
  ResNetLayer i o block n act = Ok layer ->
  channels (layer_blocks layer) c =
    if c =? i then Ok (o * class_expansion block) else Raise RuntimeError.
Proof.
  intros E. apply ResNetLayer_inv in E as (first & rest & E1 & Hall & _ & ->).
  cbn [layer_blocks].
  rewrite channels_Sequential. cbn [Sequential_channels].
  rewrite (call_block_channels _ _ _ _ _ _ c E1).
  destruct (c =? i); [|reflexivity]. cbn [mbind Result_bind].
  exact (blocks_channels _ _ _ _ Hall).
Qed.

Section Encoder_channels.

Variables (block : Block) (act : string).

Lemma later_layers_channels sizes : forall prev depths rest,
  comprehension
    (fun '((in_channels, out_channels), n) =>
       ResNetLayer (in_channels * class_expansion block) out_channels block n act)
    (zip (zip (prev :: sizes) sizes) depths) = Ok rest ->
  exists out,
    layers_channels rest (prev * class_expansion block) = Ok out /\
    from_option layer_out_channels (Some (prev * class_expansion block)) (last rest)
    = Some out.
Proof.
  induction sizes as [|o sizes IH]; intros prev depths rest E.
  - injection E as <-. now exists (prev * class_expansion block).
  - destruct depths as [|n depths].
    + injection E as <-. now exists (prev * class_expansion block).
    + change (zip (zip (prev :: o :: sizes) (o :: sizes)) (n :: depths))
        with ((prev, o, n) :: zip (zip (o :: sizes) sizes) depths) in E.
      cbn [comprehension] in E.
      destruct (ResNetLayer (prev * class_expansion block) o block n act)
        as [layer0|e] eqn:E0; [|discriminate E].
      cbn [mbind Result_bind] in E.
      destruct (comprehension _ (zip (zip (o :: sizes) sizes) depths))
        as [rest'|e] eqn:Er; [|discriminate E].
      injection E as <-.
      destruct (IH o depths rest' Er) as (out & Hc & Hl).
      exists out. cbn [layers_channels].
      rewrite (ResNetLayer_channels _ _ _ _ _ _ (prev * class_expansion block) E0), Z.eqb_refl.
      split; [exact Hc|].
      destruct rest' as [|layer1 rest'].
      * cbn in Hl |- *. rewrite <- Hl.
        now destruct (ResNetLayer_facts _ _ _ _ _ _ E0) as (_ & _ & Hout & _).
      * rewrite last_cons_cons.
        destruct (last (layer1 :: rest')) as [l|] eqn:Hlast; [exact Hl|].
        apply last_None in Hlast. discriminate Hlast.
Qed.

End Encoder_channels.

Lemma ResNetEncoder_channels_spec ic sizes depths act block enc :
  ResNetEncoder ic sizes depths act block = Ok enc ->
  exists out,
    encoder_out_channels enc = Some out /\
    forall c, ResNetEncoder_channels enc c =
                if c =? ic then Ok out else Raise RuntimeError.
Proof.
  intros E.
  destruct (ResNetEncoder_inv _ _ _ _ _ _ E)
    as (s0 & sizes' & d0 & depths' & a & first & rest & -> & -> & Ha & E1 & E2 & ->).
  destruct (later_layers_channels block act sizes' s0 depths' rest E2) as (out & Hc & Hl).
  exists out. unfold encoder_out_channels, ResNetEncoder_channels.
  cbn [encoder_blocks gate]. split.
  - destruct rest as [|layer1 rest].
    + cbn in Hl |- *. rewrite <- Hl.
      now destruct (ResNetLayer_facts _ _ _ _ _ _ E1) as (_ & _ & Hout & _).
    + rewrite last_cons_cons. cbn [from_option] in Hl.
      destruct (last (layer1 :: rest)) as [l|] eqn:Hlast; [exact Hl|].
      apply last_None in Hlast. discriminate Hlast.
  - intros c. rewrite channels_Sequential. cbn [Sequential_channels channels
      conv_in_channels conv_out_channels].
    destruct (c =? ic); [|reflexivity]. cbn [mbind Result_bind].
    rewrite Z.eqb_refl. cbn [mbind Result_bind].
    rewrite (activation_channels _ _ _ Ha). cbn [mbind Result_bind layers_channels].
    rewrite (ResNetLayer_channels _ _ _ _ _ _ s0 E1), Z.eqb_refl. exact Hc.
Qed.

End Channels.

(** X9.  A built encoder, whatever the sizes and depths, takes tensors of
    [in_channels] channels and gives
    [encoder.blocks[-1].blocks[-1].expanded_channels] channels: the
    channels fit at every convolution, batch normalisation and residual
    addition inside; on any other number of channels the framework
    raises. *)
Theorem encoder_channels {fw : Framework} (ic : Z) (sizes depths : list Z) (act : string)
    (block : Block) (enc : ResNetEncoderObj) :
  ResNetEncoder ic sizes depths act block = Ok enc ->
  exists out,
    encoder_out_channels enc = Some out /\
    forall c, ResNetEncoder_channels enc c =
                if c =? ic then Ok out else Raise RuntimeError.
Proof. apply ResNetEncoder_channels_spec. Qed.

Lemma encoder_channels_witness :
  exists enc,
    ResNetEncoder (fw := Z_framework) 1 [64; 128; 256; 512] [3; 4; 6; 3] "ReLU"
      BottleNeckBlock = Ok enc /\
    ResNetEncoder_channels enc 1 = Ok 2048 /\
    ResNetEncoder_channels enc 3 = Raise RuntimeError.
Proof.
  eexists. split; [vm_compute; reflexivity|].
  match goal with
  | |- ResNetEncoder_channels ?enc _ = _ /\ _ =>
      destruct (encoder_channels (fw := Z_framework) 1 [64; 128; 256; 512] [3; 4; 6; 3]
                  "ReLU" BottleNeckBlock enc ltac:(vm_compute; reflexivity))
        as (out & Hout & Hc)
  end.
  vm_compute in Hout. injection Hout as <-.
  split; [exact (Hc 1) | exact (Hc 3)].
Defined.

(** * Spatial shapes *)

Lemma out_shape_Sequential ms shape :
  out_shape (Sequential ms) shape = Sequential_out_shape ms shape.
Proof.
  cbn [out_shape]. revert shape. induction ms as [|m ms IH]; intros shape; [reflexivity|].
  cbn [Sequential_out_shape]. apply IH.
Qed.

Lemma activation_out_shape act a shape :
  activation_func act = Ok a -> out_shape a shape = shape.
Proof.
  intros E. pose proof (activation_func_cases act) as H. rewrite E in H.
  destruct H as [[_ ->]|[[_ ->]|[[_ ->]|[_ ->]]]]; reflexivity.
Qed.

Lemma applied_padding_zeros c : padding_mode c = "zeros" -> applied_padding c = padding c.
Proof. unfold applied_padding. now intros ->. Qed.

Lemma conv_out_extent_3_1 l : conv_out_extent l 3 1 1 1 = l.
Proof. unfold conv_out_extent. rewrite Z.div_1_r. lia. Qed.

Lemma conv_out_extent_1_1 l : conv_out_extent l 1 1 0 1 = l.
Proof. unfold conv_out_extent. rewrite Z.div_1_r. lia. Qed.

Lemma conv_out_extent_3_s l s : conv_out_extent l 3 s 1 1 = (l - 1) / s + 1.
Proof. unfold conv_out_extent. do 2 f_equal. lia. Qed.

Lemma conv_out_extent_1_s l s : conv_out_extent l 1 s 0 1 = (l - 1) / s + 1.
Proof. unfold conv_out_extent. do 2 f_equal. lia. Qed.

Lemma conv_out_extent_7_2 l : conv_out_extent l 7 2 3 1 = half_extent l.
Proof. unfold conv_out_extent, half_extent. do 2 f_equal. lia. Qed.

Lemma on_each_id shape : on_each (fun l => (l - 1) / 1 + 1) shape = shape.
Proof.
  destruct shape as [[l1 l2] l3]. unfold on_each. cbn [fst snd].
  rewrite !Z.div_1_r. f_equal; [f_equal|]; lia.
Qed.

Ltac conv_shapes :=
  unfold conv_out_shape, pool_out_shape, on_each;
  rewrite ?applied_padding_zeros by reflexivity;
  cbn [kernel_size stride padding dilation fst snd].

Section Shapes.

Context {fw : Framework}.

(** The main path of a built block: only the stride [downsampling]
    changes the extents. *)
Lemma block_out_shape block i o act ds m shape :
  call_block block i o act ds = Ok m ->
  out_shape m shape = on_each (fun l => (l - 1) / ds + 1) shape.
Proof.
  intros E. destruct shape as [[l1 l2] l3].
  destruct block; unfold call_block in E;
    apply bind_Ok in E as (self & E0 & E); injection E as <-.
  - apply ResNetBasicBlock_inv in E0 as (a & Ha & ->).
    cbn [out_shape super blocks activate]. rewrite !(activation_out_shape _ _ _ Ha).
    conv_shapes. now rewrite !conv_out_extent_3_1, !conv_out_extent_3_s.
  - apply ResNetBottleNeckBlock_inv in E0 as (a & Ha & ->).
    cbn [out_shape super blocks activate]. rewrite !(activation_out_shape _ _ _ Ha).
    conv_shapes. now rewrite !conv_out_extent_1_1, !conv_out_extent_3_s.
Qed.

Lemma block_residual_shape block i o act ds m shape :
  call_block block i o act ds = Ok m ->
  residual_shape m shape =
    if negb (i =? o * class_expansion block)
    then on_each (fun l => (l - 1) / ds + 1) shape
    else shape.
Proof.
  intros E. destruct shape as [[l1 l2] l3].
  apply call_block_inv in E as (a & self & Ha & -> & Hi & Ho & He & Hd & Hsc & _).
  unfold residual_shape. cbn [as_residual_block].
  unfold should_apply_shortcut, expanded_channels. rewrite Hi, Ho, He, Hsc.
  destruct (negb (i =? o * class_expansion block)); [|reflexivity].
  cbn [out_shape]. conv_shapes. now rewrite !conv_out_extent_1_s.
Qed.

Lemma call_block_shapes_agree (block : Block) (i o : Z) (act : string) (ds : Z)
    (m : Module) (shape : Z * Z * Z) :
  call_block block i o act ds = Ok m ->
  i <> o * class_expansion block \/ ds = 1 ->
  residual_shape m shape = out_shape m shape.
Proof.
  intros E H. rewrite (block_out_shape _ _ _ _ _ _ shape E),
    (block_residual_shape _ _ _ _ _ _ shape E).
  destruct (Z.eqb_spec i (o * class_expansion block)) as [Heq|Hne]; [|reflexivity].
  destruct H as [H| ->]; [congruence|]. cbn [negb]. now rewrite on_each_id.
Qed.

Lemma blocks_out_shape block i o act ms shape :
  Forall (fun m => call_block block i o act 1 = Ok m) ms ->
  Sequential_out_shape ms shape = shape.
Proof.
  induction 1 as [|m ms E _ IH]; [reflexivity|].
  cbn [Sequential_out_shape].
  now rewrite (block_out_shape _ _ _ _ _ _ shape E), on_each_id.
Qed.

Lemma layer_out_shape i o block n act layer shape :
  ResNetLayer i o block n act = Ok layer ->
  out_shape (layer_blocks layer) shape =
    if negb (i =? o) then on_each half_extent shape else shape.
Proof.
  intros E. apply ResNetLayer_inv in E as (first & rest & E1 & Hall & _ & ->).
  cbn [layer_blocks].
  rewrite out_shape_Sequential. cbn [Sequential_out_shape].
  rewrite (blocks_out_shape _ _ _ _ _ _ Hall).
  rewrite (block_out_shape _ _ _ _ _ _ shape E1).
  destruct (negb (i =? o)); [reflexivity | apply on_each_id].
Qed.

Lemma layer_shapes_agree i o block n act layer :
  ResNetLayer i o block n act = Ok layer ->
  (i = o * class_expansion block -> i = o) ->
  Forall (fun m => forall shape, residual_shape m shape = out_shape m shape)
    (layer_members layer).
Proof.
  intros E H. apply ResNetLayer_inv in E as (first & rest & E1 & Hall & _ & ->).
  unfold layer_members. cbn [layer_blocks].
  apply List.Forall_cons.
  - intros shape. apply (call_block_shapes_agree _ _ _ _ _ _ shape E1).
    destruct (Z.eqb_spec i o) as [Heq|Hne]; [now right|].
    left. intros Heq. apply Hne, H, Heq.
  - eapply List.Forall_impl; [|exact Hall]. intros m E2 shape.
    apply (call_block_shapes_agree _ _ _ _ _ _ shape E2). now right.
Qed.

End Shapes.

(** X11.  In an encoder of basic blocks, and in one of bottleneck blocks
    whose consecutive [blocks_sizes] differ, the residual and the main
    path of every block have the same spatial shape. *)
Theorem encoder_shapes_agree {fw : Framework} (ic : Z) (sizes depths : list Z)
    (act : string) (block : Block) (enc : ResNetEncoderObj) :
  ResNetEncoder ic sizes depths act block = Ok enc ->
  block = BasicBlock \/
  (forall k a b, sizes !! k = Some a -> sizes !! S k = Some b -> a <> b) ->
  Forall (fun layer =>
            Forall (fun m => forall shape, residual_shape m shape = out_shape m shape)
              (layer_members layer))
    (encoder_blocks enc).
Proof.
  intros E H. destruct (ResNetEncoder_layers _ _ _ _ _ _ E) as [_ Hl].
  apply Forall_lookup. intros k layer Hk.
  destruct (Hl k layer Hk) as (i & o & n & Ho & _ & Hi & El).
  apply (layer_shapes_agree _ _ _ _ _ _ El). intros Heq.
  destruct k as [|k]; [exact Hi|]. destruct Hi as (o' & Ho' & ->).
  destruct H as [-> | H].
  - cbn [class_expansion] in *. lia.
  - exfalso. apply (H k o' o Ho' Ho). destruct block; cbn [class_expansion] in Heq; lia.
Qed.

Lemma encoder_shapes_agree_witness :
  exists enc,
    ResNetEncoder (fw := Z_framework) 1 [64; 64; 128] [2; 2; 2] "ReLU" BasicBlock
      = Ok enc /\
    Forall (fun layer =>
              Forall (fun m => residual_shape m (8, 8, 8) = out_shape m (8, 8, 8))
                (layer_members layer))
      (encoder_blocks enc).
Proof.
  eexists. split; [vm_compute; reflexivity|].
  match goal with
  | |- Forall _ (encoder_blocks ?enc) =>
      pose proof (encoder_shapes_agree (fw := Z_framework) 1 [64; 64; 128] [2; 2; 2]
                    "ReLU" BasicBlock enc
                    ltac:(vm_compute; reflexivity) (or_introl eq_refl)) as H
  end.
  eapply Forall_impl; [exact H|]. intros layer Hlayer.
  eapply Forall_impl; [exact Hlayer|]. intros m Hm. apply Hm.
Defined.

(** X12.  With bottleneck blocks and two equal consecutive
    [blocks_sizes], the first block of the later layer downsamples by 2
    but has no shortcut: its main path halves the extents while the
    residual keeps those of the input, so the two differ for extents of
    2 or more. *)
Theorem bottleneck_equal_sizes {fw : Framework} (ic : Z) (sizes depths : list Z)
    (act : string) (enc : ResNetEncoderObj) (k : nat) (c : Z) (layer : ResNetLayerObj) :
  ResNetEncoder ic sizes depths act BottleNeckBlock = Ok enc ->
  sizes !! k = Some c ->
  sizes !! S k = Some c ->
  c <> 0 ->
  encoder_blocks enc !! S k = Some layer ->
  exists self rest,
    layer_members layer = ResNetResidualBlock self :: rest /\
    shortcut (super self) = None /\
    downsampling self = 2 /\
    forall shape,
      residual_shape (ResNetResidualBlock self) shape = shape /\
      out_shape (ResNetResidualBlock self) shape = on_each half_extent shape /\
      (2 <= shape.1.1 ->
       out_shape (ResNetResidualBlock self) shape
       <> residual_shape (ResNetResidualBlock self) shape).
Proof.
  intros E Hk HSk Hc Hl.
  destruct (ResNetEncoder_layers _ _ _ _ _ _ E) as [_ Hlayers].
  destruct (Hlayers (S k) layer Hl) as (i & o & n & Ho & _ & (o' & Ho' & ->) & El).
  rewrite HSk in Ho. injection Ho as <-. rewrite Hk in Ho'. injection Ho' as <-.
  cbn [class_expansion] in El.
  apply ResNetLayer_inv in El as (first0 & rest & E1 & _ & _ & ->).
  assert ((c * 4 =? c) = false) as Hne by (apply Z.eqb_neq; lia).
  rewrite Hne in E1. cbn [negb] in E1. pose proof E1 as E1'.
  apply call_block_inv in E1' as (a & first & Ha & -> & _ & _ & _ & Hd & Hsc & _).
  cbn [class_expansion] in Hsc. rewrite Z.eqb_refl in Hsc. cbn [negb] in Hsc.
  exists first, rest.
  split; [reflexivity|]. split; [exact Hsc|]. split; [exact Hd|].
  intros shape.
  pose proof (block_residual_shape _ _ _ _ _ _ shape E1) as Hr.
  cbn [class_expansion] in Hr. rewrite Z.eqb_refl in Hr. cbn [negb] in Hr.
  pose proof (block_out_shape _ _ _ _ _ _ shape E1) as Hout.
  split; [exact Hr|]. split; [exact Hout|].
  intros Hbig. rewrite Hr, Hout. destruct shape as [[l1 l2] l3].
  unfold on_each. cbn [fst snd] in *. intros Heq. injection Heq as H1 _ _.
  pose proof (Z.div_mod (l1 - 1) 2 ltac:(lia)).
  pose proof (Z.mod_pos_bound (l1 - 1) 2 ltac:(lia)). lia.
Qed.

Lemma bottleneck_equal_sizes_witness :
  exists enc layer self rest,
    ResNetEncoder (fw := Z_framework) 1 [64; 64] [1; 1] "ReLU" BottleNeckBlock = Ok enc /\
    encoder_blocks enc !! 1%nat = Some layer /\
    layer_members layer = ResNetResidualBlock self :: rest /\
    shortcut (super self) = None /\
    out_shape (ResNetResidualBlock self) (8, 8, 8) = (4, 4, 4) /\
    residual_shape (ResNetResidualBlock self) (8, 8, 8) = (8, 8, 8).
Proof.
  eexists. eexists.
  match goal with
  | |- exists self rest, ResNetEncoder _ _ _ _ _ = Ok ?enc /\ _ !! _ = Some ?layer /\ _ =>
      assert (ResNetEncoder (fw := Z_framework) 1 [64; 64] [1; 1] "ReLU"
                BottleNeckBlock = Ok enc) as E
        by (vm_compute; reflexivity);
      assert (encoder_blocks enc !! 1%nat = Some layer) as Hl by reflexivity;
      destruct (bottleneck_equal_sizes (fw := Z_framework) 1 [64; 64] [1; 1] "ReLU" enc
                  0 64 layer E eq_refl eq_refl ltac:(discriminate) Hl)
        as (self & rest & Hm & Hsc & _ & Hshape)
  end.
  exists self, rest. split; [exact E|]. split; [exact Hl|].
  split; [exact Hm|]. split; [exact Hsc|].
  destruct (Hshape (8, 8, 8)) as (Hr & Ho & _).
  split; [rewrite Ho; reflexivity | exact Hr].
Defined.

(** * Blocks, layers and encoders as their users see them *)

Lemma call_block_attributes {fw : Framework} block i o act ds self :
  call_block block i o act ds = Ok (ResNetResidualBlock self) ->
  in_channels (super self) = i /\ out_channels (super self) = o /\
  expansion self = class_expansion block /\ downsampling self = ds /\
  (shortcut (super self) = None <-> i = o * class_expansion block).
Proof.
  intros E. apply call_block_inv in E
    as (a & self' & Ha & [= <-] & Hi & Ho & He & Hd & Hsc & _).
  repeat (split; [assumption|]). rewrite Hsc.
  destruct (Z.eqb_spec i (o * class_expansion block)); cbn [negb];
    split; intros H; congruence.
Qed.

(** X7.  A built block takes tensors of [in_channels] channels and gives
    [expanded_channels] channels: every convolution and batch
    normalisation inside gets the channels it was built for and the
    residual has the channels of the main path; on any other number of
    channels the framework raises. *)
Theorem block_channels {fw : Framework} (block : Block) (i o : Z) (act : string) (ds : Z)
    (self : ResNetResidualBlockObj Module) (c : Z) :
  call_block block i o act ds = Ok (ResNetResidualBlock self) ->
  channels (ResNetResidualBlock self) c =
    if c =? in_channels (super self) then Ok (expanded_channels self)
    else Raise RuntimeError.
Proof.
  intros E. destruct (call_block_attributes _ _ _ _ _ _ E) as (Hi & Ho & He & _).
  unfold expanded_channels. rewrite Hi, Ho, He.
  exact (call_block_channels _ _ _ _ _ _ c E).
Qed.

Lemma block_channels_witness :
  exists self,
    call_block (fw := Z_framework) BasicBlock 64 128 "ReLU" 2
      = Ok (ResNetResidualBlock self) /\
    channels (ResNetResidualBlock self) 64 = Ok 128 /\
    channels (ResNetResidualBlock self) 3 = Raise RuntimeError.
Proof.
  eexists. split; [vm_compute; reflexivity|].
  split;
    match goal with
    | |- channels (ResNetResidualBlock ?self) ?c = _ =>
        exact (block_channels (fw := Z_framework) BasicBlock 64 128 "ReLU" 2 self c
                 ltac:(vm_compute; reflexivity))
    end.
Defined.

(** X8.  A built layer takes the [in_channels] of its first block and
    gives the [expanded_channels] of its last block, through all its
    blocks; on any other number of channels the framework raises. *)
Theorem layer_channels {fw : Framework} (i o : Z) (block : Block) (n : Z) (act : string)
    (layer : ResNetLayerObj) :
  ResNetLayer i o block n act = Ok layer ->
  exists c_in c_out,
    layer_in_channels layer = Some c_in /\
    layer_out_channels layer = Some c_out /\
    forall c, channels (layer_blocks layer) c =
                if c =? c_in then Ok c_out else Raise RuntimeError.
Proof.
  intros E. destruct (ResNetLayer_facts _ _ _ _ _ _ E) as (_ & Hin & Hout & _).
  exists i, (o * class_expansion block). split; [exact Hin|]. split; [exact Hout|].
  intros c. exact (ResNetLayer_channels _ _ _ _ _ _ c E).
Qed.

Lemma layer_channels_witness :
  exists layer,
    ResNetLayer (fw := Z_framework) 256 128 BottleNeckBlock 4 "SeLU" = Ok layer /\
    layer_out_channels layer = Some 512 /\
    channels (layer_blocks layer) 256 = Ok 512 /\
    channels (layer_blocks layer) 128 = Raise RuntimeError.
Proof.
  eexists. split; [vm_compute; reflexivity|].
  match goal with
  | |- layer_out_channels ?layer = _ /\ _ =>
      destruct (layer_channels (fw := Z_framework) 256 128 BottleNeckBlock 4 "SeLU" layer
                  ltac:(vm_compute; reflexivity)) as (c_in & c_out & Hin & Hout & Hc)
  end.
  vm_compute in Hin. injection Hin as <-.
  vm_compute in Hout. injection Hout as <-.
  split; [reflexivity|]. split; [exact (Hc 256) | exact (Hc 128)].
Defined.

(** X10.  In a built block that has a shortcut, or that does not
    downsample, the residual and the result of the main path have the
    same spatial shape. *)
Theorem block_shapes_agree {fw : Framework} (block : Block) (i o : Z) (act : string)
    (ds : Z) (self : ResNetResidualBlockObj Module) (shape : Z * Z * Z) :
  call_block block i o act ds = Ok (ResNetResidualBlock self) ->
  shortcut (super self) <> None \/ downsampling self = 1 ->
  residual_shape (ResNetResidualBlock self) shape
  = out_shape (ResNetResidualBlock self) shape.
Proof.
  intros E H. destruct (call_block_attributes _ _ _ _ _ _ E) as (_ & _ & _ & Hd & Hsc).
  apply (call_block_shapes_agree _ _ _ _ _ _ shape E).
  destruct H as [H|H]; [left | right; congruence].
  intros Heq. apply H, Hsc, Heq.
Qed.

Lemma block_shapes_agree_witness :
  exists self,
    call_block (fw := Z_framework) BasicBlock 64 128 "ReLU" 2
      = Ok (ResNetResidualBlock self) /\
    (shortcut (super self) <> None \/ downsampling self = 1) /\
    residual_shape (ResNetResidualBlock self) (9, 16, 16) = (5, 8, 8) /\
    out_shape (ResNetResidualBlock self) (9, 16, 16) = (5, 8, 8).
Proof.
  eexists. split; [vm_compute; reflexivity|].
  match goal with
  | |- (shortcut (super ?self) <> None \/ _) /\ _ =>
      assert (shortcut (super self) <> None \/ downsampling self = 1) as H
        by (left; discriminate);
      pose proof (block_shapes_agree (fw := Z_framework) BasicBlock 64 128 "ReLU" 2 self
                    (9, 16, 16) ltac:(vm_compute; reflexivity) H) as Hs
  end.
  split; [exact H|].
  split; [|rewrite <- Hs]; vm_compute; reflexivity.
Defined.

(** * The shapes of the tensors a forward pass returns

    [channels] and [out_shape] follow the framework's rules on the
    module tree; by the laws of the framework they are right about
    every tensor a module returns. *)

Section Value_shapes.

Context {fw : Framework}.

Lemma Sequential_value_shape p ms :
  Forall (fun m => forall p v w, value p m v = Ok w ->
            channels m (tensor_channels v) = Ok (tensor_channels w) /\
            tensor_shape w = out_shape m (tensor_shape v)) ms ->
  forall i v w, Sequential_value p i ms v = Ok w ->
    Sequential_channels ms (tensor_channels v) = Ok (tensor_channels w) /\
    tensor_shape w = Sequential_out_shape ms (tensor_shape v).
Proof.
  induction 1 as [|m ms Hm _ IH]; intros i v w V.
  - injection V as <-. split; reflexivity.
  - cbn [Sequential_value] in V. apply bind_Ok in V as (u & Vu & V).
    destruct (Hm _ _ _ Vu) as [Hc Hs]. destruct (IH _ _ _ V) as [Hc' Hs'].
    cbn [Sequential_channels Sequential_out_shape]. rewrite Hc. cbn [mbind Result_bind].
    rewrite <- Hs. auto.
Qed.

Lemma value_shape m : forall p v w,
  value p m v = Ok w ->
  channels m (tensor_channels v) = Ok (tensor_channels w) /\
  tensor_shape w = out_shape m (tensor_shape v).
Proof.
  assert (forall (P : Module -> Prop) apply self p v w,
            P = (fun m => forall p v w, value p m v = Ok w ->
                   channels m (tensor_channels v) = Ok (tensor_channels w) /\
                   tensor_shape w = out_shape m (tensor_shape v)) ->
            P (blocks self) -> P (activate self) -> on_option P (shortcut self) ->
            residual_composition value p apply self v = Ok w ->
            residual_channels channels apply self (tensor_channels v)
              = Ok (tensor_channels w) /\
            tensor_shape w
              = out_shape (activate self) (out_shape (blocks self) (tensor_shape v)))
    as Hres.
  { intros P apply self p v w -> Hb Ha Hs V.
    apply residual_composition_Ok in V as (residual & main & Hr & Vb & Hadd & Va).
    destruct (Hb _ _ _ Vb) as [Cb Sb]. destruct (Ha _ _ _ Va) as [Ca Sa].
    destruct (add_shape _ _ Hadd) as (Cadd & Sadd & Cres & _).
    rewrite Cadd in Ca. rewrite Sadd, Sb in Sa. split; [|exact Sa].
    unfold residual_channels.
    assert ((if apply then match shortcut self with
                           | Some s => channels s (tensor_channels v)
                           | None => Raise TypeError
                           end else Ok (tensor_channels v))
            = Ok (tensor_channels residual)) as ->.
    { destruct apply; [|now subst]. destruct Hr as (s & Es & Vs).
      rewrite Es in Hs |- *. now destruct (Hs _ _ _ Vs). }
    cbn [mbind Result_bind]. rewrite Cb. cbn [mbind Result_bind].
    assert ((tensor_channels residual =? tensor_channels main)
            || (tensor_channels residual =? 1) = true) as ->.
    { apply orb_true_iff. destruct Cres as [H|H]; [left | right]; now apply Z.eqb_eq. }
    exact Ca. }
  induction m using Module_ind; intros p v w V.
  - apply conv3d_shape in V as (Hin & Hout & Hs). cbn [channels out_shape].
    rewrite Hin, Z.eqb_refl, Hout. auto.
  - apply batch_norm_shape in V as (Hin & Hout & Hs). cbn [channels out_shape].
    rewrite Hin, Z.eqb_refl, Hout. auto.
  - injection V as <-. cbn [channels out_shape]. destruct (relu_shape v) as [-> ->]. auto.
  - injection V as <-. cbn [channels out_shape].
    destruct (leaky_relu_shape slope v) as [-> ->]. auto.
  - injection V as <-. cbn [channels out_shape]. destruct (selu_shape v) as [-> ->]. auto.
  - injection V as <-. auto.
  - apply max_pool3d_shape in V as (Hc & Hs). cbn [channels out_shape].
    rewrite Hc. auto.
  - rewrite value_Sequential in V. rewrite channels_Sequential, out_shape_Sequential.
    now apply (Sequential_value_shape p ms) with (i := 0%nat).
  - cbn [value] in V. cbn [channels out_shape].
    eapply Hres; [reflexivity | | | | exact V]; assumption.
  - cbn [value] in V. cbn [channels out_shape].
    eapply Hres; [reflexivity | | | | exact V]; assumption.
Qed.

(** What [forward] returns on a tree that keeps its residuals is the
    value, so it has the channels and the shape of the rules. *)
Lemma forward_Ok_value m p x h v r h' :
  residual_safe m = true ->
  h !! x = Some v ->
  forward p m x h = Ok (r, h') ->
  exists w, value p m v = Ok w /\ h' !! r = Some w.
Proof.
  intros Hs Hx E. pose proof (forward_computes m p x Hs h v Hx) as H.
  destruct (value p m v) as [w|err]; [|congruence].
  destruct H as (r0 & h0 & E0 & L & _). rewrite E in E0. injection E0 as <- <-.
  now exists w.
Qed.

Lemma layers_value_shape p bs : forall i v w,
  in_sequence (imap (fun j block => ResNetLayer_value (Idx (i + j) :: p) block) bs) v
    = Ok w ->
  layers_channels bs (tensor_channels v) = Ok (tensor_channels w) /\
  tensor_shape w
    = fold_left (fun shape block => out_shape (layer_blocks block) shape) bs
        (tensor_shape v).
Proof.
  induction bs as [|b bs IH]; intros i v w V.
  - injection V as <-. split; reflexivity.
  - cbn [imap in_sequence] in V. apply bind_Ok in V as (u & Vu & V).
    unfold ResNetLayer_value in Vu. apply value_shape in Vu as [Hc Hs].
    cbn [layers_channels fold_left]. rewrite Hc. cbn [mbind Result_bind].
    rewrite <- Hs. apply (IH (S i)).
    rewrite <- V. f_equal. apply imap_ext. intros j y _. unfold compose.
    now rewrite Nat.add_succ_r.
Qed.

Lemma encoder_value_shape p enc v w :
  in_sequence (ResNetEncoder_parts p enc) v = Ok w ->
  ResNetEncoder_channels enc (tensor_channels v) = Ok (tensor_channels w) /\
  tensor_shape w = ResNetEncoder_out_shape enc (tensor_shape v).
Proof.
  unfold ResNetEncoder_parts. cbn [in_sequence]. intros V.
  apply bind_Ok in V as (u & Vu & V). apply value_shape in Vu as [Hc Hs].
  unfold ResNetEncoder_channels, ResNetEncoder_out_shape. rewrite Hc.
  cbn [mbind Result_bind]. rewrite <- Hs.
  now apply (layers_value_shape (Name "blocks" :: p) (encoder_blocks enc) 0%nat).
Qed.

Lemma ResNetEncoder_forward_Ok_value ic sizes depths act block enc p x h v r h' :
  ResNetEncoder ic sizes depths act block = Ok enc ->
  h !! x = Some v ->
  ResNetEncoder_forward p enc x h = Ok (r, h') ->
  exists w, in_sequence (ResNetEncoder_parts p enc) v = Ok w /\ h' !! r = Some w.
Proof.
  intros E Hx Ef.
  pose proof (ResNetEncoder_residual_safe _ _ _ _ _ _ E) as Hs.
  pose proof (ResNetEncoder_forward_computes p enc x Hs h v Hx) as H.
  destruct (in_sequence (ResNetEncoder_parts p enc) v) as [w|err]; [|congruence].
  destruct H as (r0 & h0 & E0 & L & _). rewrite Ef in E0. injection E0 as <- <-.
  now exists w.
Qed.

End Value_shapes.

(** X1.  Where [ResNetLayer] returns, it has built [max(n, 1)] blocks:
    for [n <= 1], also zero or negative, [range(n - 1)] is empty, the
    layer has the first block only, and no other block constructor is
    called. *)
Theorem ResNetLayer_block_count {fw : Framework} (i o : Z) (block : Block) (n : Z)
    (act : string) (layer : ResNetLayerObj) :
  ResNetLayer i o block n act = Ok layer ->
  length (layer_members layer) = Z.to_nat (Z.max n 1) /\
  (n <= 1 ->
   ResNetLayer i o block n act =
     (m ← call_block block i o act (if negb (i =? o) then 2 else 1);
      Ok {| layer_blocks := Sequential [m] |}) /\
   exists m, layer_members layer = [m]).
Proof.
  intros E. destruct (ResNetLayer_facts _ _ _ _ _ _ E) as (Hlen & _).
  split; [lia|]. intros Hn. split.
  - unfold ResNetLayer, range. replace (Z.to_nat (n - 1)) with 0%nat by lia.
    cbn [seq comprehension].
    now destruct (call_block block i o act (if negb (i =? o) then 2 else 1)).
  - destruct (layer_members layer) as [|m [|m' ms]]; cbn [length] in Hlen.
    + lia.
    + now exists m.
    + lia.
Qed.

Lemma ResNetLayer_block_count_witness :
  exists layer,
    ResNetLayer (fw := Z_framework) 64 128 BasicBlock (-3) "ReLU" = Ok layer /\
    length (layer_members layer) = 1%nat.
Proof.
  assert (exists layer, ResNetLayer (fw := Z_framework) 64 128 BasicBlock (-3) "ReLU"
                        = Ok layer)
    as [layer E] by (eexists; vm_compute; reflexivity).
  exists layer. split; [exact E|].
  destruct (ResNetLayer_block_count 64 128 BasicBlock (-3) "ReLU" layer E) as [Hlen _].
  exact Hlen.
Defined.

(** X3.  The exceptions of [ResNetEncoder], in the order the
    constructor meets them: [IndexError] on an empty [blocks_sizes];
    then what the framework raises for the gate, a [TypeError] when
    [in_channels] or [blocks_sizes[0]] is no 64-bit integer and a
    [RuntimeError] when one of them is negative, whatever the
    activation; then, the gate's parameters accepted, [KeyError] on an
    unknown activation and [IndexError] on an empty [depths].  An
    encoder that is built had none of these. *)
Theorem ResNetEncoder_raises {fw : Framework} (ic : Z) (sizes depths : list Z)
    (act : string) (block : Block) :
  (sizes = [] -> ResNetEncoder ic sizes depths act block = Raise IndexError) /\
  (forall s0, sizes !! 0%nat = Some s0 -> ~ int64 ic \/ ~ int64 s0 ->
     ResNetEncoder ic sizes depths act block = Raise TypeError) /\
  (forall s0, sizes !! 0%nat = Some s0 -> int64 ic -> int64 s0 -> ic < 0 \/ s0 < 0 ->
     ResNetEncoder ic sizes depths act block = Raise RuntimeError) /\
  (forall s0, sizes !! 0%nat = Some s0 ->
     new_parameter [s0; ic; 7; 7; 7] = Ok () -> new_parameter [s0] = Ok () ->
     (~ In act activation_names ->
      ResNetEncoder ic sizes depths act block = Raise KeyError) /\
     (In act activation_names -> depths = [] ->
      ResNetEncoder ic sizes depths act block = Raise IndexError)) /\
  (forall enc, ResNetEncoder ic sizes depths act block = Ok enc ->
     exists s0, sizes !! 0%nat = Some s0 /\ 0 <= ic /\ 0 <= s0 /\
                In act activation_names /\ depths <> []).
Proof.
  assert (forall s0 sizes',
            ResNetEncoder ic (s0 :: sizes') depths act block =
            (_ ← new_parameter [s0; ic; 7; 7; 7];
             _ ← new_parameter [s0];
             a ← activation_func act;
             depth0 ← index depths 0;
             first ← ResNetLayer s0 s0 block depth0 act;
             rest ← comprehension
                      (fun '((in_channels, out_channels), n) =>
                         ResNetLayer (in_channels * class_expansion block) out_channels
                           block n act)
                      (zip (zip (s0 :: sizes') sizes') (tail depths));
             Ok {| blocks_sizes := s0 :: sizes';
                   gate :=
                     Sequential
                       [Conv3d {| conv_class := cls_Conv3d;
                                  conv_in_channels := ic; conv_out_channels := s0;
                                  kernel_size := (7, 7, 7); stride := (2, 2, 2);
                                  padding := (3, 3, 3); dilation := (1, 1, 1);
                                  bias := false; padding_mode := "zeros";
                                  padding_at_init := (3, 3, 3) |};
                        BatchNorm3d s0; a; MaxPool3d 3 2 1];
                   in_out_block_sizes := zip (s0 :: sizes') sizes';
                   encoder_blocks := first :: rest |})) as Heq.
  { intros s0 sizes'. unfold ResNetEncoder, nn_Conv3d, nn_BatchNorm3d.
    cbn [index lookup list_lookup mbind Result_bind kw_kernel_size kw_stride kw_padding
         kw_dilation kw_bias kw_padding_mode default _triple padding_mode kernel_size
         bias fst snd tail].
    change (existsb (String.eqb "zeros") valid_padding_modes) with true.
    cbn [mbind Result_bind].
    destruct (new_parameter [s0; ic; 7; 7; 7]) as [[]|]; [|reflexivity].
    cbn [mbind Result_bind].
    destruct (new_parameter [s0]) as [[]|]; reflexivity. }
  split; [intros ->; reflexivity|].
  split.
  { intros s0 Hs Hint. destruct sizes as [|s sizes']; [discriminate|].
    injection Hs as ->. rewrite Heq.
    rewrite (new_parameter_int64 [s0; ic; 7; 7; 7]); [reflexivity|].
    destruct Hint as [H|H];
      [apply List.Exists_cons_tl, List.Exists_cons_hd | apply List.Exists_cons_hd];
      exact H. }
  split.
  { intros s0 Hs Hic Hs0 Hneg. destruct sizes as [|s sizes']; [discriminate|].
    injection Hs as ->. rewrite Heq.
    rewrite (new_parameter_negative [s0; ic; 7; 7; 7]); [reflexivity | |].
    - repeat apply List.Forall_cons; try assumption; try (unfold int64; lia).
      apply List.Forall_nil.
    - destruct Hneg as [H|H];
        [apply List.Exists_cons_tl, List.Exists_cons_hd | apply List.Exists_cons_hd];
        exact H. }
  split.
  { intros s0 Hs Hw Hb. destruct sizes as [|s sizes']; [discriminate|].
    injection Hs as ->. rewrite Heq, Hw, Hb. cbn [mbind Result_bind]. split.
    - intros Hn. now rewrite (activation_func_KeyError act Hn).
    - intros Hin ->. destruct (activation_func_known act Hin) as [a ->]. reflexivity. }
  intros enc E. destruct sizes as [|s0 sizes']; [discriminate E|].
  exists s0. split; [reflexivity|]. rewrite Heq in E.
  apply bind_Ok in E as ([] & Hw & E). apply bind_Ok in E as ([] & Hb & E).
  apply bind_Ok in E as (a & Ha & E). apply bind_Ok in E as (d0 & Hd & E).
  assert (int64 ic /\ int64 s0) as [Hic Hs0].
  { assert ((int64 ic /\ int64 s0) \/ (~ int64 ic \/ ~ int64 s0)) as [H|H]
      by (unfold int64; lia); [exact H|].
    rewrite (new_parameter_int64 [s0; ic; 7; 7; 7]) in Hw; [discriminate Hw|].
    destruct H as [H|H];
      [apply List.Exists_cons_tl, List.Exists_cons_hd | apply List.Exists_cons_hd];
      exact H. }
  assert (0 <= ic /\ 0 <= s0) as [Hic0 Hs00].
  { assert ((0 <= ic /\ 0 <= s0) \/ (ic < 0 \/ s0 < 0)) as [H|H] by lia; [exact H|].
    rewrite (new_parameter_negative [s0; ic; 7; 7; 7]) in Hw; [discriminate Hw | |].
    - repeat apply List.Forall_cons; try assumption; try (unfold int64; lia).
      apply List.Forall_nil.
    - destruct H as [H|H];
        [apply List.Exists_cons_tl, List.Exists_cons_hd | apply List.Exists_cons_hd];
        exact H. }
  split; [assumption|]. split; [assumption|].
  split; [exact (activation_func_Ok_known act a Ha)|].
  intros ->. discriminate Hd.
Qed.

Lemma ResNetEncoder_raises_witness :
  ResNetEncoder (fw := Z_framework) 3 [] [2; 2] "ReLU" BasicBlock = Raise IndexError /\
  ResNetEncoder (fw := Z_framework) (-1) [64] [2] "relu" BasicBlock = Raise RuntimeError /\
  ResNetEncoder (fw := Z_framework) 3 [2 ^ 63] [2] "relu" BasicBlock = Raise TypeError /\
  ResNetEncoder (fw := Z_framework) 3 [64] [2] "relu" BasicBlock = Raise KeyError /\
  ResNetEncoder (fw := Z_framework) 3 [64] [] "ReLU" BasicBlock = Raise IndexError.
Proof.
  split.
  { exact (proj1 (ResNetEncoder_raises (fw := Z_framework) 3 [] [2; 2] "ReLU" BasicBlock)
             eq_refl). }
  split.
  { destruct (ResNetEncoder_raises (fw := Z_framework) (-1) [64] [2] "relu" BasicBlock)
      as (_ & _ & H & _).
    apply (H 64 eq_refl); unfold int64; lia. }
  split.
  { destruct (ResNetEncoder_raises (fw := Z_framework) 3 [2 ^ 63] [2] "relu" BasicBlock)
      as (_ & H & _).
    apply (H (2 ^ 63) eq_refl). right. unfold int64. lia. }
  split.
  - destruct (ResNetEncoder_raises (fw := Z_framework) 3 [64] [2] "relu" BasicBlock)
      as (_ & _ & _ & H & _).
    apply (H 64 eq_refl eq_refl eq_refl).
    cbn. intros [H'|[H'|[H'|[H'|[]]]]]; discriminate H'.
  - destruct (ResNetEncoder_raises (fw := Z_framework) 3 [64] [] "ReLU" BasicBlock)
      as (_ & _ & _ & H & _).
    apply (H 64 eq_refl eq_refl eq_refl).
    + cbn. auto.
    + reflexivity.
Defined.

(** X5.  Where [conv3x3] returns, it has built a [Conv3dAuto] with
    kernel size 3 and no bias unless the call gives [kernel_size] or
    [bias], which then win, and with padding [kernel_size // 2]
    whatever padding the call gives; a [padding_mode] the framework
    does not know is a [ValueError]. *)
Theorem conv3x3_call {fw : Framework} (i o : Z) (kw : ConvKwargs) :
  (forall c,
     call_conv conv3x3 i o kw = Ok c ->
     conv_class c = cls_Conv3dAuto /\
     conv_in_channels c = i /\
     conv_out_channels c = o /\
     kernel_size c = _triple (default (S_int 3) (kw_kernel_size kw)) /\
     bias c = default false (kw_bias kw) /\
     stride c = _triple (default (S_int 1) (kw_stride kw)) /\
     dilation c = _triple (default (S_int 1) (kw_dilation kw)) /\
     padding_mode c = default "zeros" (kw_padding_mode kw) /\
     padding c = ((kernel_size c).1.1 / 2, (kernel_size c).1.2 / 2,
                  (kernel_size c).2 / 2)) /\
  (forall mode,
     kw_padding_mode kw = Some mode -> ~ In mode valid_padding_modes ->
     call_conv conv3x3 i o kw = Raise ValueError).
Proof.
  split.
  - intros c E. apply conv3x3_inv in E as ->. repeat (split; [reflexivity|]). reflexivity.
  - intros mode Hm Hn.
    assert (existsb (String.eqb mode) valid_padding_modes = false) as Hex.
    { apply not_true_iff_false. intros H. apply existsb_exists in H as (m & Hin & Heq).
      apply String.eqb_eq in Heq as ->. exact (Hn Hin). }
    unfold call_conv, Conv3dAuto, nn_Conv3d. revert Hex.
    generalize valid_padding_modes as modes. intros modes Hex.
    destruct kw as [ks st pd dl b pm]. cbn [kw_padding_mode] in Hm. subst pm.
    destruct ks; cbn; rewrite Hex; reflexivity.
Qed.

Lemma conv3x3_call_witness :
  exists c,
    call_conv (fw := Z_framework) conv3x3 4 8
      {| kw_kernel_size := Some (S_int 5); kw_stride := None; kw_padding := Some (S_int 9);
         kw_dilation := None; kw_bias := None; kw_padding_mode := None |} = Ok c /\
    kernel_size c = (5, 5, 5) /\ padding c = (2, 2, 2) /\ bias c = false.
Proof.
  assert (exists c, call_conv (fw := Z_framework) conv3x3 4 8
            {| kw_kernel_size := Some (S_int 5); kw_stride := None;
               kw_padding := Some (S_int 9); kw_dilation := None; kw_bias := None;
               kw_padding_mode := None |} = Ok c)
    as [c E] by (eexists; vm_compute; reflexivity).
  exists c. split; [exact E|].
  destruct (proj1 (conv3x3_call (fw := Z_framework) 4 8
              {| kw_kernel_size := Some (S_int 5); kw_stride := None;
                 kw_padding := Some (S_int 9); kw_dilation := None; kw_bias := None;
                 kw_padding_mode := None |}) c E)
    as (_ & _ & _ & Hk & Hb & _ & _ & _ & Hp).
  rewrite Hk in Hp. split; [exact Hk|]. split; [exact Hp | exact Hb].
Defined.

(** X6.  With stride 1, dilation 1 and the padding mode "zeros" a
    [Conv3dAuto] keeps an extent of the tensors it accepts when the
    kernel size is odd and makes it one longer when the kernel size is
    even. *)
Theorem Conv3dAuto_extent {fw : Framework} (i o : Z) (kw : ConvKwargs) (c : Conv3dObj)
    (p : Path) (v w : Tensor) :
  Conv3dAuto i o kw = Ok c ->
  stride c = (1, 1, 1) ->
  dilation c = (1, 1, 1) ->
  padding_mode c = "zeros" ->
  conv3d p c v = Ok w ->
  tensor_shape w =
    ((tensor_shape v).1.1 + 1 - (kernel_size c).1.1 mod 2,
     (tensor_shape v).1.2 + 1 - (kernel_size c).1.2 mod 2,
     (tensor_shape v).2 + 1 - (kernel_size c).2 mod 2).
Proof.
  intros E Hs Hd Hm V. apply conv3d_shape in V as (_ & _ & ->).
  apply Conv3dAuto_inv in E as (k & _ & ->).
  cbn [stride dilation padding_mode] in Hs, Hd, Hm.
  unfold conv_out_shape, applied_padding.
  cbn [kernel_size stride padding dilation padding_mode]. rewrite Hs, Hd, Hm.
  cbn [String.eqb Ascii.eqb Bool.eqb fst snd]. unfold conv_out_extent.
  rewrite !Z.div_1_r.
  pose proof (Z.div_mod (_triple k).1.1 2 ltac:(lia)).
  pose proof (Z.div_mod (_triple k).1.2 2 ltac:(lia)).
  pose proof (Z.div_mod (_triple k).2 2 ltac:(lia)).
  f_equal; [f_equal|]; lia.
Qed.

Lemma Conv3dAuto_extent_witness :
  exists c w,
    Conv3dAuto (fw := Z_framework) 1 1
      {| kw_kernel_size := Some (S_tuple 2 3 4); kw_stride := None;
         kw_padding := Some (S_int 7); kw_dilation := None;
         kw_bias := None; kw_padding_mode := None |} = Ok c /\
    stride c = (1, 1, 1) /\ dilation c = (1, 1, 1) /\ padding_mode c = "zeros" /\
    conv3d (Framework := Z_framework) [] c
      {| zt_channels := 1; zt_shape := (10, 10, 10); zt_data := 0 |} = Ok w /\
    zt_shape w = (11, 10, 11).
Proof.
  do 2 eexists. split; [vm_compute; reflexivity|]. split; [reflexivity|].
  split; [reflexivity|]. split; [reflexivity|]. split; [vm_compute; reflexivity|].
  match goal with
  | |- zt_shape ?w = _ =>
      exact (Conv3dAuto_extent (fw := Z_framework) 1 1
               {| kw_kernel_size := Some (S_tuple 2 3 4); kw_stride := None;
                  kw_padding := Some (S_int 7); kw_dilation := None;
                  kw_bias := None; kw_padding_mode := None |} _ []
               {| zt_channels := 1; zt_shape := (10, 10, 10); zt_data := 0 |} w
               ltac:(vm_compute; reflexivity) eq_refl eq_refl eq_refl
               ltac:(vm_compute; reflexivity))
  end.
Defined.

(** X20.  With a padding mode other than "zeros" the framework pads by
    the padding the constructor was given, which [Conv3dAuto] does not
    change; so with no [padding] given, stride 1 and dilation 1 such a
    [Conv3dAuto] shortens every extent by [kernel_size - 1]. *)
Theorem Conv3dAuto_padding_mode {fw : Framework} (i o : Z) (kw : ConvKwargs)
    (c : Conv3dObj) (p : Path) (v w : Tensor) :
  Conv3dAuto i o kw = Ok c ->
  padding_mode c <> "zeros" ->
  kw_padding kw = None ->
  stride c = (1, 1, 1) ->
  dilation c = (1, 1, 1) ->
  conv3d p c v = Ok w ->
  applied_padding c = (0, 0, 0) /\
  tensor_shape w =
    ((tensor_shape v).1.1 - ((kernel_size c).1.1 - 1),
     (tensor_shape v).1.2 - ((kernel_size c).1.2 - 1),
     (tensor_shape v).2 - ((kernel_size c).2 - 1)).
Proof.
  intros E Hm Hp Hs Hd V. apply conv3d_shape in V as (_ & _ & ->).
  apply Conv3dAuto_inv in E as (k & _ & ->).
  cbn [stride dilation padding_mode] in Hs, Hd, Hm.
  apply String.eqb_neq in Hm.
  unfold conv_out_shape, applied_padding.
  cbn [kernel_size stride padding dilation padding_mode padding_at_init].
  rewrite Hs, Hd, Hm, Hp. cbn [default _triple fst snd]. split; [reflexivity|].
  unfold conv_out_extent. rewrite !Z.div_1_r. f_equal; [f_equal|]; lia.
Qed.

Lemma Conv3dAuto_padding_mode_witness :
  exists c w,
    Conv3dAuto (fw := Z_framework) 1 1
      {| kw_kernel_size := Some (S_int 3); kw_stride := None;
         kw_padding := None; kw_dilation := None;
         kw_bias := None; kw_padding_mode := Some "reflect" |} = Ok c /\
    padding c = (1, 1, 1) /\
    conv3d (Framework := Z_framework) [] c
      {| zt_channels := 1; zt_shape := (8, 8, 8); zt_data := 0 |} = Ok w /\
    zt_shape w = (6, 6, 6).
Proof.
  do 2 eexists. split; [vm_compute; reflexivity|]. split; [reflexivity|].
  split; [vm_compute; reflexivity|].
  match goal with
  | |- zt_shape ?w = _ =>
      exact (proj2 (Conv3dAuto_padding_mode (fw := Z_framework) 1 1
               {| kw_kernel_size := Some (S_int 3); kw_stride := None;
                  kw_padding := None; kw_dilation := None;
                  kw_bias := None; kw_padding_mode := Some "reflect" |} _ []
               {| zt_channels := 1; zt_shape := (8, 8, 8); zt_data := 0 |} w
               ltac:(vm_compute; reflexivity) ltac:(discriminate) eq_refl eq_refl eq_refl
               ltac:(vm_compute; reflexivity)))
  end.
Defined.

Lemma half_extent_double n : 0 < n -> half_extent (2 * n) = n.
Proof.
  intros Hn. unfold half_extent.
  pose proof (Z.div_mod (2 * n - 1) 2 ltac:(lia)).
  pose proof (Z.mod_pos_bound (2 * n - 1) 2 ltac:(lia)). lia.
Qed.

Lemma half_extent_less l : 2 <= l -> half_extent l < l.
Proof.
  intros Hl. unfold half_extent.
  pose proof (Z.div_mod (l - 1) 2 ltac:(lia)).
  pose proof (Z.mod_pos_bound (l - 1) 2 ltac:(lia)). lia.
Qed.

Lemma on_each_iter f k shape :
  Nat.iter k (on_each f) shape =
  (Nat.iter k f shape.1.1, Nat.iter k f shape.1.2, Nat.iter k f shape.2).
Proof.
  induction k as [|k IH]; [now destruct shape as [[? ?] ?]|].
  rewrite !Nat.iter_succ, IH. reflexivity.
Qed.

Section Encoder_out_shape.

Context {fw : Framework}.

Variables (block : Block) (act : string).

Lemma later_layers_out_shape sizes : forall prev depths rest shape,
  comprehension
    (fun '((in_channels, out_channels), n) =>
       ResNetLayer (in_channels * class_expansion block) out_channels block n act)
    (zip (zip (prev :: sizes) sizes) depths) = Ok rest ->
  (forall k a b, (prev :: sizes) !! k = Some a -> sizes !! k = Some b ->
                 a * class_expansion block <> b) ->
  fold_left (fun shape layer => out_shape (layer_blocks layer) shape) rest shape
  = Nat.iter (length rest) (on_each half_extent) shape.
Proof.
  induction sizes as [|o sizes IH]; intros prev depths rest shape E H.
  - injection E as <-. reflexivity.
  - destruct depths as [|n depths].
    + injection E as <-. reflexivity.
    + change (zip (zip (prev :: o :: sizes) (o :: sizes)) (n :: depths))
        with ((prev, o, n) :: zip (zip (o :: sizes) sizes) depths) in E.
      cbn [comprehension] in E.
      destruct (ResNetLayer (prev * class_expansion block) o block n act)
        as [layer0|e] eqn:E0; [|discriminate E].
      cbn [mbind Result_bind] in E.
      destruct (comprehension _ (zip (zip (o :: sizes) sizes) depths))
        as [rest'|e] eqn:Er; [|discriminate E].
      injection E as <-. cbn [fold_left length].
      rewrite (layer_out_shape _ _ _ _ _ _ shape E0).
      assert ((prev * class_expansion block =? o) = false) as ->
        by (apply Z.eqb_neq; exact (H 0%nat prev o eq_refl eq_refl)).
      cbn [negb]. rewrite (IH o depths rest' _ Er).
      * now rewrite Nat.iter_succ_r.
      * intros k a b Ha Hb. exact (H (S k) a b Ha Hb).
Qed.

End Encoder_out_shape.

Lemma encoder_out_shape_iter {fw : Framework} (ic : Z) (sizes depths : list Z)
    (act : string) (block : Block) (enc : ResNetEncoderObj) (shape : Z * Z * Z) :
  ResNetEncoder ic sizes depths act block = Ok enc ->
  (forall k a b, sizes !! k = Some a -> sizes !! S k = Some b ->
                 a * class_expansion block <> b) ->
  ResNetEncoder_out_shape enc shape =
    Nat.iter (S (length (encoder_blocks enc))) (on_each half_extent) shape.
Proof.
  intros E H.
  destruct (ResNetEncoder_inv _ _ _ _ _ _ E)
    as (s0 & sizes' & d0 & depths' & a & first & rest & -> & -> & Ha & E1 & E2 & ->).
  unfold ResNetEncoder_out_shape. cbn [encoder_blocks gate fold_left length].
  rewrite (layer_out_shape _ _ _ _ _ _ _ E1), Z.eqb_refl. cbn [negb].
  rewrite (later_layers_out_shape block act sizes' s0 depths' rest _ E2).
  - rewrite out_shape_Sequential. cbn [Sequential_out_shape out_shape].
    rewrite (activation_out_shape _ _ _ Ha).
    rewrite !Nat.iter_succ_r. f_equal.
    destruct shape as [[l1 l2] l3]. conv_shapes.
    rewrite !conv_out_extent_7_2, !conv_out_extent_3_s. reflexivity.
  - exact H.
Qed.

(** The shape of what the forward pass of an encoder returns. *)
Lemma ResNetEncoder_forward_shape {fw : Framework} ic sizes depths act block enc p x h v
    r h' w :
  ResNetEncoder ic sizes depths act block = Ok enc ->
  (forall k a b, sizes !! k = Some a -> sizes !! S k = Some b ->
                 a * class_expansion block <> b) ->
  h !! x = Some v ->
  ResNetEncoder_forward p enc x h = Ok (r, h') ->
  h' !! r = Some w ->
  tensor_shape w =
    Nat.iter (S (Nat.min (length sizes) (length depths))) (on_each half_extent)
      (tensor_shape v).
Proof.
  intros E H Hx Ef L.
  destruct (ResNetEncoder_forward_Ok_value _ _ _ _ _ _ _ _ _ _ _ _ E Hx Ef)
    as (w' & V & L').
  rewrite L in L'. injection L' as <-.
  apply encoder_value_shape in V as [_ ->].
  destruct (ResNetEncoder_layers _ _ _ _ _ _ E) as [<- _].
  exact (encoder_out_shape_iter ic sizes depths act block enc _ E H).
Qed.

(** X13.  When no layer after the first takes as many channels as it
    gives, an encoder, which has
    [L = min(len(blocks_sizes), len(depths))] layers, halves every
    spatial extent (rounding up) [L + 1] times, twice in the gate and
    once in each layer after the first: that is the shape of every
    tensor its forward pass returns. *)
Theorem encoder_out_shape {fw : Framework} (ic : Z) (sizes depths : list Z)
    (act : string) (block : Block) (enc : ResNetEncoderObj) (p : Path) (x : loc)
    (h : Store) (v : Tensor) (r : loc) (h' : Store) (w : Tensor) :
  ResNetEncoder ic sizes depths act block = Ok enc ->
  (forall k a b, sizes !! k = Some a -> sizes !! S k = Some b ->
                 a * class_expansion block <> b) ->
  h !! x = Some v ->
  ResNetEncoder_forward p enc x h = Ok (r, h') ->
  h' !! r = Some w ->
  tensor_shape w =
    Nat.iter (S (Nat.min (length sizes) (length depths))) (on_each half_extent)
      (tensor_shape v).
Proof. apply ResNetEncoder_forward_shape. Qed.

Lemma encoder_out_shape_witness :
  exists enc r h' w,
    ResNetEncoder (fw := Z_framework) 3 [16; 32] [1; 1] "none" BottleNeckBlock = Ok enc /\
    (forall k a b, [16; 32] !! k = Some a -> [16; 32] !! S k = Some b ->
                   a * class_expansion BottleNeckBlock <> b) /\
    ResNetEncoder_forward (fw := Z_framework) [] enc 0%nat
      [{| zt_channels := 3; zt_shape := (17, 32, 40); zt_data := 1 |}] = Ok (r, h') /\
    h' !! r = Some w /\
    zt_shape w = (3, 4, 5).
Proof.
  assert (forall k a b, [16; 32] !! k = Some a -> [16; 32] !! S k = Some b ->
                        a * class_expansion BottleNeckBlock <> b) as H.
  { intros [|[|k]] a b Ha Hb; try discriminate Hb.
    injection Ha as <-. injection Hb as <-. discriminate. }
  do 4 eexists. split; [vm_compute; reflexivity|]. split; [exact H|].
  split; [vm_compute; reflexivity|]. split; [vm_compute; reflexivity|].
  match goal with
  | |- zt_shape ?w = _ =>
      etransitivity;
      [exact (encoder_out_shape (fw := Z_framework) 3 [16; 32] [1; 1] "none"
                BottleNeckBlock _ [] 0%nat
                [{| zt_channels := 3; zt_shape := (17, 32, 40); zt_data := 1 |}]
                {| zt_channels := 3; zt_shape := (17, 32, 40); zt_data := 1 |}
                _ _ w
                ltac:(vm_compute; reflexivity) H eq_refl
                ltac:(vm_compute; reflexivity) ltac:(vm_compute; reflexivity))
      |vm_compute; reflexivity]
  end.
Defined.

(** X14.  [resnet18] and [resnet34] with the default sizes reduce every
    spatial extent by 32, for both kinds of block: of a tensor whose
    extents are multiples of 32, what the forward pass returns has a
    32nd of each. *)
Theorem resnet_output_shape {fw : Framework} (ic : Z) (block : option Block)
    (enc : ResNetEncoderObj) (a b c : Z) (p : Path) (x : loc) (h : Store) (v : Tensor)
    (r : loc) (h' : Store) (w : Tensor) :
  resnet18 ic block {| kw_blocks_sizes := None; kw_activation := None |} = Ok enc \/
  resnet34 ic block {| kw_blocks_sizes := None; kw_activation := None |} = Ok enc ->
  0 < a -> 0 < b -> 0 < c ->
  h !! x = Some v ->
  tensor_shape v = (32 * a, 32 * b, 32 * c) ->
  ResNetEncoder_forward p enc x h = Ok (r, h') ->
  h' !! r = Some w ->
  tensor_shape w = (a, b, c).
Proof.
  intros E Ha Hb Hc Hx Hv Ef L.
  set (blk := default BasicBlock block).
  assert (forall k x y, [64; 128; 256; 512] !! k = Some x ->
                        [64; 128; 256; 512] !! S k = Some y ->
                        x * class_expansion blk <> y) as Hsizes.
  { intros [|[|[|[|k]]]] x0 y Hx0 Hy; try discriminate Hy;
      injection Hx0 as <-; injection Hy as <-; destruct blk; discriminate. }
  assert (exists depths,
            length depths = 4%nat /\
            ResNetEncoder ic [64; 128; 256; 512] depths "ReLU" blk = Ok enc)
    as (depths & Hlen & E').
  { destruct E as [E|E]; [exists [2; 2; 2; 2] | exists [3; 4; 6; 3]];
      (split; [reflexivity | exact E]). }
  rewrite (ResNetEncoder_forward_shape ic _ depths "ReLU" blk enc p x h v r h' w
             E' Hsizes Hx Ef L).
  rewrite Hlen, Hv. cbn [length Nat.min]. rewrite on_each_iter. cbn [fst snd].
  rewrite !Nat.iter_succ. cbn [Nat.iter nat_rect].
  replace (32 * a) with (2 * (2 * (2 * (2 * (2 * a))))) by lia.
  replace (32 * b) with (2 * (2 * (2 * (2 * (2 * b))))) by lia.
  replace (32 * c) with (2 * (2 * (2 * (2 * (2 * c))))) by lia.
  rewrite !half_extent_double by lia. reflexivity.
Qed.

Lemma resnet_output_shape_witness :
  exists enc r h' w,
    resnet18 (fw := Z_framework) 1 None
      {| kw_blocks_sizes := None; kw_activation := None |} = Ok enc /\
    0 < 1 /\ 0 < 2 /\ 0 < 3 /\
    ResNetEncoder_forward (fw := Z_framework) [] enc 0%nat
      [{| zt_channels := 1; zt_shape := (32, 64, 96); zt_data := 1 |}] = Ok (r, h') /\
    h' !! r = Some w /\
    zt_shape w = (1, 2, 3).
Proof.
  assert (exists enc, resnet18 (fw := Z_framework) 1 None
            {| kw_blocks_sizes := None; kw_activation := None |} = Ok enc)
    as [enc E] by (eexists; vm_compute; reflexivity).
  destruct (ResNetEncoder_forward (fw := Z_framework) [] enc 0%nat
              [{| zt_channels := 1; zt_shape := (32, 64, 96); zt_data := 1 |}])
    as [[r h']|e] eqn:Ef.
  - destruct (h' !! r) as [w|] eqn:L.
    + exists enc, r, h', w. split; [exact E|].
      split; [lia|]. split; [lia|]. split; [lia|].
      split; [exact Ef|]. split; [exact L|].
      exact (resnet_output_shape (fw := Z_framework) 1 None enc 1 2 3 [] 0%nat
               [{| zt_channels := 1; zt_shape := (32, 64, 96); zt_data := 1 |}]
               {| zt_channels := 1; zt_shape := (32, 64, 96); zt_data := 1 |}
               r h' w (or_introl E) ltac:(lia) ltac:(lia) ltac:(lia) eq_refl eq_refl
               Ef L).
    + vm_compute in E. injection E as <-. vm_compute in Ef. injection Ef as <- <-.
      vm_compute in L. discriminate L.
  - vm_compute in E. injection E as <-. vm_compute in Ef. discriminate Ef.
Defined.

(** X21.  If the forward pass of a built encoder returns, its argument
    had [in_channels] channels and the result has
    [encoder.blocks[-1].blocks[-1].expanded_channels] channels; on an
    argument of another number of channels it raises. *)
Theorem encoder_forward_channels {fw : Framework} (ic : Z) (sizes depths : list Z)
    (act : string) (block : Block) (enc : ResNetEncoderObj) (p : Path) (x : loc)
    (h : Store) (v : Tensor) :
  ResNetEncoder ic sizes depths act block = Ok enc ->
  h !! x = Some v ->
  (forall r h' w,
     ResNetEncoder_forward p enc x h = Ok (r, h') -> h' !! r = Some w ->
     tensor_channels v = ic /\ encoder_out_channels enc = Some (tensor_channels w)) /\
  (tensor_channels v <> ic -> exists e, ResNetEncoder_forward p enc x h = Raise e).
Proof.
  intros E Hx.
  assert (forall r h' w,
     ResNetEncoder_forward p enc x h = Ok (r, h') -> h' !! r = Some w ->
     tensor_channels v = ic /\ encoder_out_channels enc = Some (tensor_channels w)) as H.
  { intros r h' w Ef L.
    destruct (ResNetEncoder_forward_Ok_value _ _ _ _ _ _ _ _ _ _ _ _ E Hx Ef)
      as (w' & V & L').
    rewrite L in L'. injection L' as <-.
    apply encoder_value_shape in V as [Hc _].
    destruct (ResNetEncoder_channels_spec _ _ _ _ _ _ E) as (out & Hout & Hspec).
    rewrite Hspec in Hc. destruct (Z.eqb_spec (tensor_channels v) ic); [|discriminate Hc].
    injection Hc as <-. auto. }
  split; [exact H|]. intros Hne.
  destruct (ResNetEncoder_forward p enc x h) as [[r h']|e] eqn:Ef; [|now exists e].
  exfalso.
  destruct (ResNetEncoder_forward_Ok_value _ _ _ _ _ _ _ _ _ _ _ _ E Hx Ef)
    as (w & _ & L).
  now destruct (H r h' w eq_refl L).
Qed.

Lemma encoder_forward_channels_witness :
  exists enc e,
    ResNetEncoder (fw := Z_framework) 1 [2; 4] [1; 2] "ReLU" BasicBlock = Ok enc /\
    [{| zt_channels := 3; zt_shape := (16, 16, 16); zt_data := 7 |}] !! 0%nat
      = Some {| zt_channels := 3; zt_shape := (16, 16, 16); zt_data := 7 |} /\
    ResNetEncoder_forward (fw := Z_framework) [] enc 0%nat
      [{| zt_channels := 3; zt_shape := (16, 16, 16); zt_data := 7 |}] = Raise e.
Proof.
  assert (exists enc, ResNetEncoder (fw := Z_framework) 1 [2; 4] [1; 2] "ReLU" BasicBlock
                      = Ok enc)
    as [enc E] by (eexists; vm_compute; reflexivity).
  destruct (encoder_forward_channels (fw := Z_framework) 1 [2; 4] [1; 2] "ReLU"
              BasicBlock enc [] 0%nat
              [{| zt_channels := 3; zt_shape := (16, 16, 16); zt_data := 7 |}]
              {| zt_channels := 3; zt_shape := (16, 16, 16); zt_data := 7 |} E eq_refl)
    as [_ H].
  destruct (H ltac:(discriminate)) as [e He].
  exists enc, e. split; [exact E|]. split; [reflexivity | exact He].
Defined.

(** * What the forward passes do to the store *)

Lemma call_block_effect {fw : Framework} block i o act ds m :
  call_block block i o act ds = Ok m -> effect m = Fresh.
Proof.
  intros E. destruct block; unfold call_block in E;
    apply bind_Ok in E as (self & E0 & E); injection E as <-.
  - now apply ResNetBasicBlock_inv in E0 as (a & Ha & ->).
  - now apply ResNetBottleNeckBlock_inv in E0 as (a & Ha & ->).
Qed.

Section Store.

Context {fw : Framework}.

(** A computation whose result is a new tensor leaves every tensor of
    the store as it was. *)
Lemma computes_Fresh c x f h v :
  computes Fresh c x f ->
  h !! x = Some v ->
  match f v with
  | Ok w =>
      exists r h',
        c h = Ok (r, h') /\ h' !! r = Some w /\
        (length h <= r)%nat /\
        forall l, (l < length h)%nat -> h' !! l = h !! l
  | Raise e => c h = Raise e
  end.
Proof.
  intros Hc Hx. specialize (Hc h v Hx). destruct (f v) as [w|e]; [|exact Hc].
  destruct Hc as (r & h' & E & L & [_ Hfr] & Hr & Hx').
  exists r, h'. repeat (split; [assumption|]).
  intros l Hl. destruct (decide (l = x)) as [->|Hne]; [congruence | now apply Hfr].
Qed.

End Store.

(** X15.  Where the value of a built block is defined, its forward pass
    returns a new tensor holding it and leaves every tensor of the
    store, its argument included, as it was, in spite of the in-place
    activations and the in-place addition; where the framework rejects
    a step, the forward pass raises the same exception. *)
Theorem block_forward_fresh {fw : Framework} (block : Block) (i o : Z) (act : string)
    (ds : Z) (m : Module) (p : Path) (x : loc) (h : Store) (v : Tensor) :
  call_block block i o act ds = Ok m ->
  h !! x = Some v ->
  match value p m v with
  | Ok w =>
      exists r h',
        forward p m x h = Ok (r, h') /\
        h' !! r = Some w /\
        (length h <= r)%nat /\
        forall l, (l < length h)%nat -> h' !! l = h !! l
  | Raise e => forward p m x h = Raise e
  end.
Proof.
  intros E Hx. apply (computes_Fresh _ x); [|exact Hx].
  rewrite <- (call_block_effect _ _ _ _ _ _ E).
  apply forward_computes. exact (call_block_residual_safe _ _ _ _ _ _ E).
Qed.

Lemma block_forward_fresh_witness :
  exists m r h',
    call_block (fw := Z_framework) BottleNeckBlock 1 2 "leaky_ReLU" 2 = Ok m /\
    [{| zt_channels := 1; zt_shape := (4, 4, 4); zt_data := 5 |};
     {| zt_channels := 1; zt_shape := (8, 8, 8); zt_data := 9 |}] !! 1%nat
      = Some {| zt_channels := 1; zt_shape := (8, 8, 8); zt_data := 9 |} /\
    forward (fw := Z_framework) [] m 1%nat
      [{| zt_channels := 1; zt_shape := (4, 4, 4); zt_data := 5 |};
       {| zt_channels := 1; zt_shape := (8, 8, 8); zt_data := 9 |}] = Ok (r, h') /\
    (2 <= r)%nat /\
    h' !! 1%nat = Some {| zt_channels := 1; zt_shape := (8, 8, 8); zt_data := 9 |}.
Proof.
  assert (exists m, call_block (fw := Z_framework) BottleNeckBlock 1 2 "leaky_ReLU" 2
                    = Ok m)
    as [m E] by (eexists; vm_compute; reflexivity).
  pose proof (block_forward_fresh (fw := Z_framework) BottleNeckBlock 1 2 "leaky_ReLU" 2
                m [] 1%nat
                [{| zt_channels := 1; zt_shape := (4, 4, 4); zt_data := 5 |};
                 {| zt_channels := 1; zt_shape := (8, 8, 8); zt_data := 9 |}]
                {| zt_channels := 1; zt_shape := (8, 8, 8); zt_data := 9 |} E eq_refl)
    as H.
  destruct (value (fw := Z_framework) [] m _) as [w|e] eqn:V.
  - destruct H as (r & h' & Ef & _ & Hr & Hfr).
    exists m, r, h'. split; [exact E|]. split; [reflexivity|]. split; [exact Ef|].
    split; [exact Hr|]. exact (Hfr 1%nat ltac:(cbn; lia)).
  - vm_compute in E. injection E as <-. vm_compute in V. discriminate V.
Defined.

(** X16.  Where the value of the blocks of a built layer, applied in
    order, is defined, [ResNetLayer.forward] returns a new tensor
    holding it and leaves every tensor of the store as it was; where
    the framework rejects a step, it raises the same exception. *)
Theorem layer_forward {fw : Framework} (i o : Z) (block : Block) (n : Z) (act : string)
    (layer : ResNetLayerObj) (p : Path) (x : loc) (h : Store) (v : Tensor) :
  ResNetLayer i o block n act = Ok layer ->
  h !! x = Some v ->
  match Sequential_value (Name "blocks" :: p) 0 (layer_members layer) v with
  | Ok w =>
      exists r h',
        ResNetLayer_forward p layer x h = Ok (r, h') /\
        h' !! r = Some w /\
        (length h <= r)%nat /\
        forall l, (l < length h)%nat -> h' !! l = h !! l
  | Raise e => ResNetLayer_forward p layer x h = Raise e
  end.
Proof.
  intros E Hx. destruct (ResNetLayer_facts _ _ _ _ _ _ E) as (_ & _ & _ & Hsafe).
  apply ResNetLayer_inv in E as (first & rest & E1 & _ & _ & ->).
  unfold layer_members. cbn [layer_blocks] in *.
  apply (computes_Fresh _ x); [|exact Hx].
  eapply computes_ext;
    [intros h0; symmetry; apply Fwd_bind_ret
    |intros v0; apply value_Sequential |].
  replace Fresh with (effect (Sequential (first :: rest))).
  - now apply forward_computes.
  - rewrite effect_Sequential. cbn [Sequential_effect].
    now rewrite (call_block_effect _ _ _ _ _ _ E1).
Qed.

Lemma layer_forward_witness :
  exists layer r h',
    ResNetLayer (fw := Z_framework) 1 2 BasicBlock 2 "ReLU" = Ok layer /\
    [{| zt_channels := 1; zt_shape := (8, 8, 8); zt_data := 5 |}] !! 0%nat
      = Some {| zt_channels := 1; zt_shape := (8, 8, 8); zt_data := 5 |} /\
    ResNetLayer_forward (fw := Z_framework) [] layer 0%nat
      [{| zt_channels := 1; zt_shape := (8, 8, 8); zt_data := 5 |}] = Ok (r, h') /\
    (1 <= r)%nat /\
    h' !! 0%nat = Some {| zt_channels := 1; zt_shape := (8, 8, 8); zt_data := 5 |}.
Proof.
  assert (exists layer, ResNetLayer (fw := Z_framework) 1 2 BasicBlock 2 "ReLU" = Ok layer)
    as [layer E] by (eexists; vm_compute; reflexivity).
  pose proof (layer_forward (fw := Z_framework) 1 2 BasicBlock 2 "ReLU" layer [] 0%nat
                [{| zt_channels := 1; zt_shape := (8, 8, 8); zt_data := 5 |}]
                {| zt_channels := 1; zt_shape := (8, 8, 8); zt_data := 5 |} E eq_refl)
    as H.
  destruct (Sequential_value (fw := Z_framework) _ 0 (layer_members layer) _)
    as [w|e] eqn:V.
  - destruct H as (r & h' & Ef & _ & Hr & Hfr).
    exists layer, r, h'. split; [exact E|]. split; [reflexivity|]. split; [exact Ef|].
    split; [exact Hr|]. exact (Hfr 0%nat ltac:(cbn; lia)).
  - vm_compute in E. injection E as <-. vm_compute in V. discriminate V.
Defined.

(** X17.  Where the parts of a built encoder, applied one after the
    other, give a value, [ResNetEncoder.forward] returns a new tensor
    holding it and leaves every tensor of the store, its argument
    included, as it was; where the framework rejects a step, it raises
    the same exception. *)
Theorem encoder_forward_fresh {fw : Framework} (ic : Z) (sizes depths : list Z)
    (act : string) (block : Block) (enc : ResNetEncoderObj) (p : Path) (x : loc)
    (h : Store) (v : Tensor) :
  ResNetEncoder ic sizes depths act block = Ok enc ->
  h !! x = Some v ->
  match in_sequence (ResNetEncoder_parts p enc) v with
  | Ok w =>
      exists r h',
        ResNetEncoder_forward p enc x h = Ok (r, h') /\
        h' !! r = Some w /\
        (length h <= r < length h')%nat /\
        forall l, (l < length h)%nat -> h' !! l = h !! l
  | Raise e => ResNetEncoder_forward p enc x h = Raise e
  end.
Proof.
  intros E Hx.
  pose proof (ResNetEncoder_residual_safe _ _ _ _ _ _ E) as Hs.
  pose proof (ResNetEncoder_forward_computes p enc x Hs) as Hc.
  assert (effect (gate enc) = Fresh) as Hgate.
  { now destruct (ResNetEncoder_inv _ _ _ _ _ _ E)
      as (s0 & sizes' & d0 & depths' & a & first & rest & _ & _ & _ & _ & _ & ->). }
  rewrite Hgate in Hc. cbn [and_then] in Hc.
  pose proof (computes_Fresh _ _ _ h v Hc Hx) as H.
  destruct (in_sequence (ResNetEncoder_parts p enc) v) as [w|e]; [|exact H].
  destruct H as (r & h' & Ef & L & Hr & Hfr).
  exists r, h'. split; [exact Ef|]. split; [exact L|].
  split; [|exact Hfr]. split; [exact Hr|]. eapply lookup_lt_Some. exact L.
Qed.

Lemma encoder_forward_fresh_witness :
  exists enc r h',
    ResNetEncoder (fw := Z_framework) 1 [2; 4] [1; 2] "ReLU" BasicBlock = Ok enc /\
    [{| zt_channels := 1; zt_shape := (16, 16, 16); zt_data := 7 |}] !! 0%nat
      = Some {| zt_channels := 1; zt_shape := (16, 16, 16); zt_data := 7 |} /\
    ResNetEncoder_forward (fw := Z_framework) [] enc 0%nat
      [{| zt_channels := 1; zt_shape := (16, 16, 16); zt_data := 7 |}] = Ok (r, h') /\
    h' !! 0%nat = Some {| zt_channels := 1; zt_shape := (16, 16, 16); zt_data := 7 |}.
Proof.
  assert (exists enc, ResNetEncoder (fw := Z_framework) 1 [2; 4] [1; 2] "ReLU" BasicBlock
                      = Ok enc)
    as [enc E] by (eexists; vm_compute; reflexivity).
  pose proof (encoder_forward_fresh (fw := Z_framework) 1 [2; 4] [1; 2] "ReLU" BasicBlock
                enc [] 0%nat
                [{| zt_channels := 1; zt_shape := (16, 16, 16); zt_data := 7 |}]
                {| zt_channels := 1; zt_shape := (16, 16, 16); zt_data := 7 |} E eq_refl)
    as H.
  destruct (in_sequence (ResNetEncoder_parts (fw := Z_framework) [] enc) _)
    as [w|e] eqn:V.
  - destruct H as (r & h' & Ef & _ & _ & Hfr).
    exists enc, r, h'. split; [exact E|]. split; [reflexivity|]. split; [exact Ef|].
    exact (Hfr 0%nat ltac:(cbn; lia)).
  - vm_compute in E. injection E as <-. vm_compute in V. discriminate V.
Defined.

(** X18.  The forward pass of a plain [ResidualBlock], whose [blocks] and
    [shortcut] are identities, overwrites its argument: it returns the
    tensor it was given, which then holds [activate(x + x)], and
    allocates nothing. *)
Theorem ResidualBlock_forward_in_place {fw : Framework} (i o : Z) (act : string)
    (self : ResidualBlockObj Module) (p : Path) (x : loc) (h : Store) (v : Tensor) :
  ResidualBlock_init i o act = Ok self ->
  h !! x = Some v ->
  exists w,
    value (Name "activate" :: p) (activate self) (add v v) = Ok w /\
    forward p (ResidualBlock self) x h = Ok (x, <[x := w]> h).
Proof.
  unfold ResidualBlock_init. intros E Hx.
  destruct (activation_func act) as [a|e] eqn:Ha; [|discriminate E].
  injection E as <-. cbn [activate].
  pose proof (lookup_lt_Some _ _ _ Hx) as Hlt.
  assert (forall h0, (if ResidualBlock_should_apply_shortcut
                         {| in_channels := i; out_channels := o; activation := act;
                            blocks := Identity; activate := a;
                            shortcut := Some Identity |}
                      then forward (Name "shortcut" :: p) Identity x
                      else mret x) h0 = Ok (x, h0)) as Hres
    by (intros h0; now destruct (ResidualBlock_should_apply_shortcut _)).
  assert (forall f, pointwise true f x (<[x := add v v]> h)
                    = Ok (x, <[x := f (add v v)]> h)) as Hact.
  { intros f. unfold pointwise, in_place.
    rewrite list_lookup_insert_eq by exact Hlt. now rewrite list_insert_insert_eq. }
  assert (iadd x x h = Ok (x, <[x := add v v]> h)) as Hadd
    by (rewrite (iadd_Ok x x h v v Hx Hx); now rewrite addable_refl).
  assert (forward p (ResidualBlock
                       {| in_channels := i; out_channels := o; activation := act;
                          blocks := Identity; activate := a; shortcut := Some Identity |})
                  x h
          = forward (Name "activate" :: p) a x (<[x := add v v]> h)) as ->.
  { cbn [forward]. unfold ResidualBlock_forward. cbn [shortcut blocks activate].
    rewrite (Fwd_bind_Ok _ _ _ _ _ (Hres h)).
    cbn [forward]. rewrite (Fwd_bind_Ok _ _ h x h eq_refl).
    rewrite (Fwd_bind_Ok _ _ _ _ _ Hadd).
    apply Fwd_bind_ret. }
  pose proof (activation_func_cases act) as H. rewrite Ha in H.
  destruct H as [[_ ->]|[[_ ->]|[[_ ->]|[_ ->]]]]; cbn [forward value];
    eexists; (split; [reflexivity|]); try apply Hact.
  reflexivity.
Qed.

Lemma ResidualBlock_forward_in_place_witness :
  exists self,
    ResidualBlock_init 3 3 "ReLU" = Ok self /\
    [{| zt_channels := 3; zt_shape := (2, 2, 2); zt_data := 4 |};
     {| zt_channels := 3; zt_shape := (2, 2, 2); zt_data := 5 |}] !! 1%nat
      = Some {| zt_channels := 3; zt_shape := (2, 2, 2); zt_data := 5 |} /\
    forward (fw := Z_framework) [] (ResidualBlock self) 1%nat
      [{| zt_channels := 3; zt_shape := (2, 2, 2); zt_data := 4 |};
       {| zt_channels := 3; zt_shape := (2, 2, 2); zt_data := 5 |}]
    = Ok (1%nat, [{| zt_channels := 3; zt_shape := (2, 2, 2); zt_data := 4 |};
                  {| zt_channels := 3; zt_shape := (2, 2, 2); zt_data := 10 |}]).
Proof.
  eexists. split; [vm_compute; reflexivity|]. split; [reflexivity|].
  match goal with
  | |- forward _ (ResidualBlock ?self) _ _ = _ =>
      destruct (ResidualBlock_forward_in_place (fw := Z_framework) 3 3 "ReLU" self
                  [] 1%nat
                  [{| zt_channels := 3; zt_shape := (2, 2, 2); zt_data := 4 |};
                   {| zt_channels := 3; zt_shape := (2, 2, 2); zt_data := 5 |}]
                  {| zt_channels := 3; zt_shape := (2, 2, 2); zt_data := 5 |}
                  ltac:(vm_compute; reflexivity) eq_refl)
        as (w & Hw & E)
  end.
  vm_compute in Hw. injection Hw as <-. exact E.
Defined.

(** X22.  With bottleneck blocks and two equal consecutive
    [blocks_sizes], the first block of the later layer has no shortcut
    and halves the extents of its main path, so the residual, which
    is the argument itself, cannot be added to it: on every tensor with
    an extent of 2 or more the block, and with it the layer, raises. *)
Theorem bottleneck_equal_sizes_raises {fw : Framework} (ic : Z) (sizes depths : list Z)
    (act : string) (enc : ResNetEncoderObj) (k : nat) (c : Z) (layer : ResNetLayerObj)
    (p : Path) (x : loc) (h : Store) (v : Tensor) :
  ResNetEncoder ic sizes depths act BottleNeckBlock = Ok enc ->
  sizes !! k = Some c ->
  sizes !! S k = Some c ->
  c <> 0 ->
  encoder_blocks enc !! S k = Some layer ->
  h !! x = Some v ->
  2 <= (tensor_shape v).1.1 \/ 2 <= (tensor_shape v).1.2 \/ 2 <= (tensor_shape v).2 ->
  exists first rest e,
    layer_members layer = first :: rest /\
    forward (Idx 0 :: Name "blocks" :: p) first x h = Raise e /\
    ResNetLayer_forward p layer x h = Raise e.
Proof.
  intros E Hk HSk Hc Hl Hx Hbig.
  destruct (ResNetEncoder_layers _ _ _ _ _ _ E) as [_ Hlayers].
  destruct (Hlayers (S k) layer Hl) as (i & o & n & Ho & _ & (o' & Ho' & ->) & El).
  rewrite HSk in Ho. injection Ho as <-. rewrite Hk in Ho'. injection Ho' as <-.
  cbn [class_expansion] in El.
  apply ResNetLayer_inv in El as (first & rest & E1 & _ & _ & ->).
  assert ((c * 4 =? c) = false) as Hne by (apply Z.eqb_neq; lia).
  rewrite Hne in E1. cbn [negb] in E1.
  pose proof (call_block_residual_safe _ _ _ _ _ _ E1) as Hsafe.
  pose proof (block_out_shape _ _ _ _ _ _ (tensor_shape v) E1) as Hout.
  pose proof E1 as E1'.
  apply call_block_inv in E1' as (a & self & Ha & -> & Hi & Ho & He & _ & _ & Hact & _).
  assert (exists e, value (Idx 0 :: Name "blocks" :: p) (ResNetResidualBlock self) v
                    = Raise e) as [e V].
  { destruct (value _ (ResNetResidualBlock self) v) as [w|e] eqn:V; [|now exists e].
    exfalso. cbn [value] in V.
    assert (should_apply_shortcut self = false) as Hno.
    { unfold should_apply_shortcut, expanded_channels. rewrite Hi, Ho, He.
      cbn [class_expansion]. now rewrite Z.eqb_refl. }
    rewrite Hno in V.
    apply residual_composition_Ok in V as (residual & main & -> & Vb & Hadd & _).
    apply value_shape in Vb as [_ Hs].
    cbn [out_shape] in Hout. rewrite Hact, (activation_out_shape _ _ _ Ha) in Hout.
    rewrite Hout in Hs.
    destruct (add_shape _ _ Hadd) as (_ & _ & _ & B1 & B2 & B3).
    rewrite Hs in B1, B2, B3. unfold on_each in B1, B2, B3. cbn [fst snd] in B1, B2, B3.
    destruct Hbig as [H|[H|H]]; pose proof (half_extent_less _ H) as HL;
      unfold half_extent in HL; lia. }
  pose proof (computes_Raise _ _ _ _ h v e
                (forward_computes _ (Idx 0 :: Name "blocks" :: p) x Hsafe) Hx V) as Ef.
  exists (ResNetResidualBlock self), rest, e.
  split; [reflexivity|]. split; [exact Ef|].
  unfold ResNetLayer_forward. cbn [layer_blocks].
  apply Fwd_bind_Raise. rewrite forward_Sequential. cbn [Sequential_forward].
  now apply Fwd_bind_Raise.
Qed.

Lemma bottleneck_equal_sizes_raises_witness :
  exists enc layer first rest,
    ResNetEncoder (fw := Z_framework) 1 [64; 64] [1; 1] "ReLU" BottleNeckBlock = Ok enc /\
    encoder_blocks enc !! 1%nat = Some layer /\
    layer_members layer = first :: rest /\
    forward (fw := Z_framework) [Idx 0; Name "blocks"] first 0%nat
      [{| zt_channels := 256; zt_shape := (8, 8, 8); zt_data := 1 |}]
    = Raise RuntimeError.
Proof.
  assert (exists enc, ResNetEncoder (fw := Z_framework) 1 [64; 64] [1; 1] "ReLU"
                        BottleNeckBlock = Ok enc)
    as [enc E] by (eexists; vm_compute; reflexivity).
  assert (exists layer, encoder_blocks enc !! 1%nat = Some layer) as [layer Hl].
  { vm_compute in E. injection E as <-. eexists. reflexivity. }
  destruct (bottleneck_equal_sizes_raises (fw := Z_framework) 1 [64; 64] [1; 1] "ReLU"
              enc 0 64 layer [] 0%nat
              [{| zt_channels := 256; zt_shape := (8, 8, 8); zt_data := 1 |}]
              {| zt_channels := 256; zt_shape := (8, 8, 8); zt_data := 1 |}
              E eq_refl eq_refl ltac:(discriminate) Hl eq_refl
              ltac:(left; cbn; lia))
    as (first & rest & e & Hm & Ef & _).
  exists enc, layer, first, rest. split; [exact E|]. split; [exact Hl|].
  split; [exact Hm|]. rewrite Ef. f_equal.
  vm_compute in E. injection E as <-. vm_compute in Hl. injection Hl as <-.
  vm_compute in Hm. injection Hm as <- <-. vm_compute in Ef. congruence.
Defined.
